(** * action-tagger: the next semantic-version tag of a repository

    A shallow embedding of [src/main.ts] and the properties of it that the
    specification states.

    - [JS]: the JavaScript string operations and the regular expressions the
      action uses.
    - [Semver]: the functions of the [semver] package (7.3) the action calls.
    - [Tagger]: [main.ts] itself, function by function, over an explicit
      remote API and a log of the requests made and the outputs set.

    Strings are ASCII strings.  Logging ([core.info]) is not modelled. *)

From Stdlib Require Import Bool List NArith PeanoNat Ascii String Lia Sorted.
From Stdlib Require Import DecimalString.
From Stdlib Require DecimalN DecimalPos DecimalFacts.
Import ListNotations.

Local Open Scope string_scope.

(* ================================================================= *)
(** ** JavaScript strings and regular expressions *)

Module JS.

(** [\d] *)
Definition isDigit (c : ascii) : bool :=
  ((48 <=? N_of_ascii c) && (N_of_ascii c <=? 57))%N.

Definition isUpper (c : ascii) : bool :=
  ((65 <=? N_of_ascii c) && (N_of_ascii c <=? 90))%N.

Definition isLower (c : ascii) : bool :=
  ((97 <=? N_of_ascii c) && (N_of_ascii c <=? 122))%N.

Definition isLetter (c : ascii) : bool := isUpper c || isLower c.

(** [\w]: the characters between which [\b] sees no boundary. *)
Definition isWordChar (c : ascii) : bool :=
  isLetter c || isDigit c || (c =? "_")%char.

(** The ASCII white space that [String.prototype.trim] removes. *)
Definition isWhiteSpace (c : ascii) : bool :=
  ((9 <=? N_of_ascii c) && (N_of_ascii c <=? 13))%N || (c =? " ")%char.

Fixpoint trimStart (s : string) : string :=
  match s with
  | String c s' => if isWhiteSpace c then trimStart s' else s
  | EmptyString => EmptyString
  end.

Fixpoint trimEnd (s : string) : string :=
  match s with
  | String c s' =>
      match trimEnd s' with
      | EmptyString => if isWhiteSpace c then EmptyString else String c EmptyString
      | t => String c t
      end
  | EmptyString => EmptyString
  end.

Definition trim (s : string) : string := trimEnd (trimStart s).

Definition lowerChar (c : ascii) : ascii :=
  if isUpper c then ascii_of_N (N_of_ascii c + 32) else c.

Fixpoint toLowerCase (s : string) : string :=
  match s with
  | String c s' => String (lowerChar c) (toLowerCase s')
  | EmptyString => EmptyString
  end.

(** [s.split(sep)] for a separator of one character: the piece that is being
    read, and the pieces after it. *)
Fixpoint split_pieces (sep : ascii) (s : string) : string * list string :=
  match s with
  | EmptyString => (EmptyString, [])
  | String c s' =>
      let (piece, pieces) := split_pieces sep s' in
      if (c =? sep)%char then (EmptyString, piece :: pieces)
      else (String c piece, pieces)
  end.

Definition split (sep : ascii) (s : string) : list string :=
  let (piece, pieces) := split_pieces sep s in piece :: pieces.

(** [xs.join(sep)] *)
Definition join (sep : string) (xs : list string) : string := String.concat sep xs.

(** [xs.pop()] of an array of strings that is not empty: its last element.
    [split] never returns an empty array. *)
Definition pop (xs : list string) : string := List.last xs EmptyString.

(** [xs.includes(x)] *)
Definition includes (xs : list string) (x : string) : bool :=
  existsb (String.eqb x) xs.

(** What is left of [s] after the prefix [p], when [s] starts with [p]. *)
Fixpoint stripPrefix (p s : string) : option string :=
  match p, s with
  | EmptyString, _ => Some s
  | String a p', String b s' => if (a =? b)%char then stripPrefix p' s' else None
  | String _ _, EmptyString => None
  end.

(** [s.replace(p, '')] for a pattern [p] without metacharacters: the first
    occurrence of [p] is removed. *)
Fixpoint removeFirst (p s : string) : string :=
  match stripPrefix p s with
  | Some rest => rest
  | None =>
      match s with
      | String c s' => String c (removeFirst p s')
      | EmptyString => EmptyString
      end
  end.

(** A regular expression that is not anchored is tried at every position of
    the subject, from the left. *)
Fixpoint firstMatch {A : Type} (at_ : string -> option A) (s : string) : option A :=
  match at_ s with
  | Some r => Some r
  | None =>
      match s with
      | String _ s' => firstMatch at_ s'
      | EmptyString => None
      end
  end.

Definition searches (at_ : string -> bool) (s : string) : bool :=
  match firstMatch (fun t => if at_ t then Some tt else None) s with
  | Some _ => true
  | None => false
  end.

(** [\b] after a word character: the subject ends, or a character that is not
    a word character follows. *)
Definition boundaryAfterWord (rest : string) : bool :=
  match rest with
  | EmptyString => true
  | String c _ => negb (isWordChar c)
  end.

(** [new RegExp(marker + '\\b').test(s)] for a marker that ends in a word
    character: [#wip\b], [#major\b], [#minor\b], [#patch\b]. *)
Definition markerAt (marker s : string) : bool :=
  match stripPrefix marker s with
  | Some rest => boundaryAfterWord rest
  | None => false
  end.

Definition testMarker (marker s : string) : bool := searches (markerAt marker) s.

(** The longest prefix of digits, and what follows it. *)
Fixpoint spanDigits (s : string) : string * string :=
  match s with
  | String c s' =>
      if isDigit c then let (ds, rest) := spanDigits s' in (String c ds, rest)
      else (EmptyString, s)
  | EmptyString => (EmptyString, EmptyString)
  end.

(** [fix(?:es)? #] at the start of [s]: what follows it.  The group is tried
    with [es] first and without it next. *)
Definition fixHead (s : string) : option string :=
  match stripPrefix "fix" s with
  | Some r =>
      match stripPrefix "es" r with
      | Some r' =>
          match stripPrefix " #" r' with
          | Some d => Some d
          | None => stripPrefix " #" r
          end
      | None => stripPrefix " #" r
      end
  | None => None
  end.

(** [fix(?:es)? #\d+] at the start of [s]. *)
Definition fixAt (s : string) : bool :=
  match fixHead s with
  | Some d => match spanDigits d with (String _ _, _) => true | _ => false end
  | None => false
  end.

(** [new RegExp('fix(?:es)? #\\d+').test(s)] *)
Definition testFix (s : string) : bool := searches fixAt s.

(** [/fix(?:es)? #(\d+)\b/] at the start of [s]: the group.  [\d+] takes all
    the digits there are; giving one back leaves a digit after a digit, where
    [\b] fails, so only the longest run can match. *)
Definition matcherAt (s : string) : option string :=
  match fixHead s with
  | Some d =>
      match spanDigits d with
      | (String c ds, rest) =>
          if boundaryAfterWord rest then Some (String c ds) else None
      | _ => None
      end
  | None => None
  end.

(** [/fix(?:es)? #(\d+)\b/.exec(s)]: [id[1]] of the leftmost match. *)
Definition execMatcher (s : string) : option string := firstMatch matcherAt s.

(** The value of a string of decimal digits. *)
Definition decimalValue (s : string) : N :=
  match NilEmpty.uint_of_string s with
  | Some d => N.of_uint d
  | None => 0
  end.

(** The double nearest to the integer [n], ties to the even significand.
    The doubles that are integers are written as these integers: all of them
    below [2 ^ 53], and from there on the multiples of the power of two that
    leaves 53 binary digits.  [Infinity], for the integers that round to
    [2 ^ 1024] or more, is written [2 ^ 1024], which is no double. *)
Definition roundToDouble (n : N) : N :=
  if (n <? 9007199254740992)%N then n
  else
    let shift := (N.log2 n - 52)%N in
    let significand := N.shiftr n shift in
    let rest := (n mod 2 ^ shift)%N in
    let half := (2 ^ (shift - 1))%N in
    let rounded :=
      if (half <? rest)%N || ((rest =? half)%N && N.odd significand)
      then (significand + 1)%N else significand in
    let result := N.shiftl rounded shift in
    if (1024 <=? N.log2 result)%N then N.shiftl 1 1024 else result.

Arguments roundToDouble : simpl never.

(** [Number(s)], and [+s], for a string of decimal digits: a double. *)
Definition numberOfDigits (s : string) : N := roundToDouble (decimalValue s).

(** [String(n)] for a natural number. *)
Definition decimalString (n : N) : string := NilZero.string_of_uint (N.to_uint n).

Fixpoint allDigits (s : string) : bool :=
  match s with
  | String c s' => isDigit c && allDigits s'
  | EmptyString => true
  end.

(** [/^[0-9]+$/.test(s)] *)
Definition isNumeric (s : string) : bool :=
  match s with
  | EmptyString => false
  | _ => allDigits s
  end.

End JS.

(* ================================================================= *)
(** ** The semver package

    The functions of [semver] 7.3 that [main.ts] calls: [clean], [compare],
    [prerelease] and [inc], in strict mode (no options are passed).

    Numbers are in [N].  JavaScript holds them as doubles, which are exact
    below 2^53; the constructor refuses a larger component of the main
    version and keeps a numeric prerelease identifier from
    [MAX_SAFE_INTEGER] on as a string, which [compareIdentifiers] turns into a
    double again ([numberOfDigits]).  The constructor's tests of [+m[i]] and
    of [+id] against [MAX_SAFE_INTEGER] are written on the value of the
    digits: the tests answer the same on a number and on its double, and the
    numbers that pass are their own doubles ([safe_tests_on_doubles]). *)

Module Semver.
Import JS.

Definition MAX_LENGTH : nat := 256.
Definition MAX_SAFE_INTEGER : N := 9007199254740991.

(** A prerelease identifier of a [SemVer] object is a number or a string. *)
Inductive Identifier : Type :=
| Num (n : N)
| Str (s : string).

(** The [SemVer] object. *)
Record SemVer : Type := mkSemVer {
  major : N;
  minor : N;
  patch : N;
  prerelease : list Identifier;
  build : list string
}.

(** *** Parsing: [re[t.FULL]] and the constructor *)

(** [NUMERICIDENTIFIER]: [0|[1-9]\d*] *)
Definition isNumericIdentifier (s : string) : bool :=
  match s with
  | EmptyString => false
  | String c s' =>
      if (c =? "0")%char then match s' with EmptyString => true | _ => false end
      else isDigit c && allDigits s'
  end.

Definition isIdentifierChar (c : ascii) : bool :=
  isDigit c || isLetter c || (c =? "-")%char.

Fixpoint allIdentifierChars (s : string) : bool :=
  match s with
  | String c s' => isIdentifierChar c && allIdentifierChars s'
  | EmptyString => true
  end.

(** [BUILDIDENTIFIER]: [[0-9A-Za-z-]+] *)
Definition isBuildIdentifier (s : string) : bool :=
  match s with
  | EmptyString => false
  | _ => allIdentifierChars s
  end.

(** [PRERELEASEIDENTIFIER]: [0|[1-9]\d*|\d*[a-zA-Z-][a-zA-Z0-9-]*], followed
    by a dot, a plus or the end of the string: a run of identifier characters
    that is not a number with a leading zero. *)
Definition isPrereleaseIdentifier (s : string) : bool :=
  isBuildIdentifier s && (if allDigits s then isNumericIdentifier s else true).

(** The part of [s] before the first [sep], and the part after it if there is
    one. *)
Fixpoint cut (sep : ascii) (s : string) : string * option string :=
  match s with
  | EmptyString => (EmptyString, None)
  | String c s' =>
      if (c =? sep)%char then (EmptyString, Some s')
      else let (before, after) := cut sep s' in (String c before, after)
  end.

(** [MAINVERSION], and the constructor's bound on its three numbers. *)
Definition mainVersion (s : string) : option (N * N * N) :=
  match split "." s with
  | [a; b; c] =>
      if isNumericIdentifier a && isNumericIdentifier b && isNumericIdentifier c
      then
        let x := decimalValue a in
        let y := decimalValue b in
        let z := decimalValue c in
        if ((MAX_SAFE_INTEGER <? x) || (MAX_SAFE_INTEGER <? y)
            || (MAX_SAFE_INTEGER <? z))%N
        then None
        else Some (x, y, z)
      else None
  | _ => None
  end.

(** The constructor's reading of one prerelease identifier. *)
Definition toIdentifier (id : string) : Identifier :=
  if isNumeric id then
    let num := decimalValue id in
    if (num <? MAX_SAFE_INTEGER)%N then Num num else Str id
  else Str id.

Definition prereleasePart (p : option string) : option (list Identifier) :=
  match p with
  | None => Some []
  | Some ps =>
      let ids := split "." ps in
      if forallb isPrereleaseIdentifier ids then Some (map toIdentifier ids)
      else None
  end.

Definition buildPart (b : option string) : option (list string) :=
  match b with
  | None => Some []
  | Some bs =>
      let ids := split "." bs in
      if forallb isBuildIdentifier ids then Some ids else None
  end.

(** [MAINVERSION(-PRERELEASE)?(\+BUILD)?$] on the whole of [s], and what the
    constructor reads from the groups. *)
Definition fullPlain (s : string) : option SemVer :=
  let (front, b) := cut "+" s in
  let (m, p) := cut "-" front in
  match mainVersion m, prereleasePart p, buildPart b with
  | Some (x, y, z), Some pre, Some bld => Some (mkSemVer x y z pre bld)
  | _, _, _ => None
  end.

(** [parse(version)]: [null] when the string is longer than [MAX_LENGTH],
    when [re[t.FULL]], which allows one [v] before the version, does not match
    it, or when the constructor throws. *)
Definition parse (version : string) : option SemVer :=
  if Nat.ltb MAX_LENGTH (String.length version) then None
  else
    fullPlain (match stripPrefix "v" version with Some r => r | None => version end).

(** *** [format()]: the [version] field *)

Definition identifierString (i : Identifier) : string :=
  match i with
  | Num n => decimalString n
  | Str s => s
  end.

Definition format (v : SemVer) : string :=
  let main :=
    decimalString (major v) ++ "." ++ decimalString (minor v) ++ "."
    ++ decimalString (patch v) in
  match prerelease v with
  | [] => main
  | pre => main ++ "-" ++ join "." (map identifierString pre)
  end.

(** *** [clean] *)

(** [s.replace(/^[=v]+/, '')] *)
Fixpoint stripEqualsAndV (s : string) : string :=
  match s with
  | String c s' =>
      if ((c =? "=") || (c =? "v"))%char then stripEqualsAndV s' else s
  | EmptyString => EmptyString
  end.

(** [clean(version)] returns the [version] field of the object it parsed, a
    string without build metadata that [compare] and [inc] parse again.  The
    model keeps it parsed: the object with its build metadata dropped;
    [format] gives the string. *)
Definition clean (version : string) : option SemVer :=
  match parse (stripEqualsAndV (trim version)) with
  | Some s => Some (mkSemVer (major s) (minor s) (patch s) (prerelease s) [])
  | None => None
  end.

(** *** [prerelease] *)

(** [prerelease(version)]: the prerelease identifiers of the version as it is
    given, [null] when it does not parse or has none. *)
Definition prereleaseOf (version : string) : option (list Identifier) :=
  match parse version with
  | Some parsed =>
      match prerelease parsed with
      | [] => None
      | pre => Some pre
      end
  | None => None
  end.

(** *** [compare] *)

(** [a === b] on identifiers *)
Definition identical (a b : Identifier) : bool :=
  match a, b with
  | Num x, Num y => (x =? y)%N
  | Str x, Str y => (x =? y)%string
  | _, _ => false
  end.

(** [/^[0-9]+$/.test(a)] *)
Definition numeric (a : Identifier) : bool :=
  match a with
  | Num _ => true
  | Str s => isNumeric s
  end.

(** [+a] for a numeric identifier: the number it is, or the double of its
    digits. *)
Definition toNumber (a : Identifier) : N :=
  match a with
  | Num n => n
  | Str s => numberOfDigits s
  end.

Definition compareIdentifiers (a b : Identifier) : comparison :=
  let anum := numeric a in
  let bnum := numeric b in
  if anum && bnum then (toNumber a ?= toNumber b)%N
  else if anum then Lt
  else if bnum then Gt
  else (identifierString a ?= identifierString b)%string.

Definition compareMain (a b : SemVer) : comparison :=
  match (major a ?= major b)%N with
  | Eq =>
      match (minor a ?= minor b)%N with
      | Eq => (patch a ?= patch b)%N
      | c => c
      end
  | c => c
  end.

(** The [do ... while (++i)] loop of [comparePre]. *)
Fixpoint comparePreLoop (xs ys : list Identifier) : comparison :=
  match xs, ys with
  | [], [] => Eq
  | _ :: _, [] => Gt
  | [], _ :: _ => Lt
  | a :: xs', b :: ys' =>
      if identical a b then comparePreLoop xs' ys' else compareIdentifiers a b
  end.

(** A version with prerelease identifiers is below the same version without. *)
Definition comparePre (a b : SemVer) : comparison :=
  match prerelease a, prerelease b with
  | _ :: _, [] => Lt
  | [], _ :: _ => Gt
  | [], [] => Eq
  | xs, ys => comparePreLoop xs ys
  end.

(** [compare(a, b)]: [Lt], [Eq], [Gt] for -1, 0, 1.  The method first answers
    0 for two objects with the same [version] string; [compareMain] and
    [comparePre] answer 0 on them as well, so that test is left out. *)
Definition compare (a b : SemVer) : comparison :=
  match compareMain a b with
  | Eq => comparePre a b
  | c => c
  end.

(** *** [inc] *)

(** [ExponentPart] of a numeric literal, or nothing, up to the end. *)
Definition exponentOrEnd (s : string) : bool :=
  match s with
  | EmptyString => true
  | String e s' =>
      if ((e =? "e") || (e =? "E"))%char then
        let digits :=
          match s' with
          | String sign s'' =>
              if ((sign =? "+") || (sign =? "-"))%char then s'' else s'
          | EmptyString => s'
          end in
        isNumeric digits
      else false
  end.

(** [StrUnsignedDecimalLiteral] *)
Definition unsignedDecimalLiteral (s : string) : bool :=
  if (s =? "Infinity")%string then true
  else
    let (int, r) := spanDigits s in
    match r with
    | String "." r' =>
        let (frac, r'') := spanDigits r' in
        negb ((int =? "") && (frac =? ""))%string && exponentOrEnd r''
    | _ => negb (int =? "")%string && exponentOrEnd r
    end.

Definition isHexDigit (c : ascii) : bool :=
  isDigit c || ((65 <=? N_of_ascii c) && (N_of_ascii c <=? 70))%N
  || ((97 <=? N_of_ascii c) && (N_of_ascii c <=? 102))%N.

Definition isOctalDigit (c : ascii) : bool :=
  ((48 <=? N_of_ascii c) && (N_of_ascii c <=? 55))%N.

Definition isBinaryDigit (c : ascii) : bool := ((c =? "0") || (c =? "1"))%char.

Fixpoint allOf (p : ascii -> bool) (s : string) : bool :=
  match s with
  | String c s' => p c && allOf p s'
  | EmptyString => true
  end.

Definition someOf (p : ascii -> bool) (s : string) : bool :=
  match s with
  | EmptyString => false
  | _ => allOf p s
  end.

(** [NonDecimalIntegerLiteral]: [0x], [0o] or [0b] and digits of that base. *)
Definition nonDecimalLiteral (s : string) : bool :=
  match s with
  | String "0" (String b digits) =>
      if ((b =? "x") || (b =? "X"))%char then someOf isHexDigit digits
      else if ((b =? "o") || (b =? "O"))%char then someOf isOctalDigit digits
      else if ((b =? "b") || (b =? "B"))%char then someOf isBinaryDigit digits
      else false
  | _ => false
  end.

(** Whether [Number(s)] is a number: [s], trimmed, is empty or a
    [StrNumericLiteral]. *)
Definition stringIsNumber (s : string) : bool :=
  match trim s with
  | EmptyString => true
  | String c t as u =>
      nonDecimalLiteral u
      || (if ((c =? "+") || (c =? "-"))%char then unsignedDecimalLiteral t
          else unsignedDecimalLiteral u)
  end.

(** [isNaN(prerelease[1])]; an array without a second element gives
    [undefined], which is not a number. *)
Definition secondIsNaN (pre : list Identifier) : bool :=
  match pre with
  | _ :: Num _ :: _ => false
  | _ :: Str s :: _ => negb (stringIsNumber s)
  | _ => true
  end.

(** The [while (--i >= 0)] loop of ['pre']: the last identifier that is a
    number is incremented; [None] when there is none. *)
Fixpoint incrementLastNumber (pre : list Identifier) : option (list Identifier) :=
  match pre with
  | [] => None
  | x :: xs =>
      match incrementLastNumber xs with
      | Some xs' => Some (x :: xs')
      | None =>
          match x with
          | Num n => Some (Num (n + 1) :: xs)
          | Str _ => None
          end
      end
  end.

(** The case ['pre'].  An [identifier] that is [undefined] or empty is falsy;
    the model writes both as the empty string. *)
Definition incPre (identifier : string) (v : SemVer) : SemVer :=
  let pre :=
    match prerelease v with
    | [] => [Num 0]
    | xs =>
        match incrementLastNumber xs with
        | Some xs' => xs'
        | None => (xs ++ [Num 0])%list
        end
    end in
  let pre' :=
    if (identifier =? "")%string then pre
    else
      match pre with
      | Str s :: _ =>
          if (s =? identifier)%string then
            if secondIsNaN pre then [Str identifier; Num 0] else pre
          else [Str identifier; Num 0]
      | _ => [Str identifier; Num 0]
      end in
  mkSemVer (major v) (minor v) (patch v) pre' (build v).

Definition hasPrerelease (v : SemVer) : bool :=
  match prerelease v with
  | [] => false
  | _ => true
  end.

Definition incMajor (v : SemVer) : SemVer :=
  let major' :=
    if negb (minor v =? 0)%N || negb (patch v =? 0)%N || negb (hasPrerelease v)
    then (major v + 1)%N else major v in
  mkSemVer major' 0 0 [] (build v).

Definition incMinor (v : SemVer) : SemVer :=
  let minor' :=
    if negb (patch v =? 0)%N || negb (hasPrerelease v)
    then (minor v + 1)%N else minor v in
  mkSemVer (major v) minor' 0 [] (build v).

Definition incPatch (v : SemVer) : SemVer :=
  let patch' := if negb (hasPrerelease v) then (patch v + 1)%N else patch v in
  mkSemVer (major v) (minor v) patch' [] (build v).

(** The method [inc(release, identifier)]; [None] where it throws
    [invalid increment argument]. *)
Definition incSemVer (release identifier : string) (v : SemVer) : option SemVer :=
  if (release =? "premajor")%string then
    Some (incPre identifier (mkSemVer (major v + 1) 0 0 [] (build v)))
  else if (release =? "preminor")%string then
    Some (incPre identifier (mkSemVer (major v) (minor v + 1) 0 [] (build v)))
  else if (release =? "prepatch")%string then
    Some (incPre identifier
            (incPatch (mkSemVer (major v) (minor v) (patch v) [] (build v))))
  else if (release =? "prerelease")%string then
    Some (incPre identifier (if hasPrerelease v then v else incPatch v))
  else if (release =? "major")%string then Some (incMajor v)
  else if (release =? "minor")%string then Some (incMinor v)
  else if (release =? "patch")%string then Some (incPatch v)
  else if (release =? "pre")%string then Some (incPre identifier v)
  else None.

(** [inc(version, release, identifier)]: the new version string, [null] when
    the method throws.  [version] is a string that [clean] returned (see
    [clean]). *)
Definition inc (version : SemVer) (release identifier : string) : option string :=
  match incSemVer release identifier version with
  | Some v => Some (format v)
  | None => None
  end.

End Semver.

(* ================================================================= *)
(** ** main.ts *)

Module Tagger.
Import JS.

(** *** Promises, and the trace of a run *)

(** How a promise settles; a function that throws rejects in the same way. *)
Inductive Settled (A : Type) : Type :=
| Fulfilled (value : A)
| Rejected (message : string).
Arguments Fulfilled {A} value.
Arguments Rejected {A} message.

(** What a run does to the world: the requests to the remote API, in order,
    and the outputs it sets. *)
Inductive Event : Type :=
| ListTags (owner repo : string)
| ListMatchingRefs (owner repo ref : string)
| ListCommits (owner repo sha : string)
| IssuesGet (owner repo : string) (issue_number : N)
| CreateRef (owner repo ref sha : string)
| SetOutput (name value : string).

(** An [async] computation: how it settles, and the events up to there. *)
Definition Async (A : Type) : Type := (Settled A * list Event)%type.

Definition ret {A : Type} (a : A) : Async A := (Fulfilled a, []).

Definition throw {A : Type} (message : string) : Async A := (Rejected message, []).

Definition bind {A B : Type} (m : Async A) (f : A -> Async B) : Async B :=
  match m with
  | (Fulfilled a, done) => let (r, more) := f a in (r, (done ++ more)%list)
  | (Rejected message, done) => (Rejected message, done)
  end.

(** [await] of a request: the event, and the remote's answer. *)
Definition request {A : Type} (e : Event) (answer : Settled A) : Async A :=
  (answer, [e]).

(** A computation without events. *)
Definition lift {A : Type} (r : Settled A) : Async A := (r, []).

(** [core.setOutput(name, value)] *)
Definition setOutput (name value : string) : Async unit :=
  (Fulfilled tt, [SetOutput name value]).

Declare Scope async_scope.
Delimit Scope async_scope with async.
Notation "x <- m ;; k" := (bind m (fun x => k))
  (at level 61, m at next level, right associativity) : async_scope.
Notation "m ;;; k" := (bind m (fun _ => k))
  (at level 61, right associativity) : async_scope.
Local Open Scope async_scope.

(** Synchronous code that may throw. *)
Definition bindS {A B : Type} (m : Settled A) (f : A -> Settled B) : Settled B :=
  match m with
  | Fulfilled a => f a
  | Rejected message => Rejected message
  end.

(** *** The remote API *)

(** [components['schemas']['tag']]: [name] and [commit.sha]. *)
Record Tag : Type := mkTag {
  tag_name : string;
  tag_commit_sha : string
}.

(** A git reference: [ref] and [object.sha]. *)
Record GitRef : Type := mkGitRef {
  ref_name : string;
  ref_object_sha : string
}.

(** A commit: [sha] and [commit.message]. *)
Record Commit : Type := mkCommit {
  commit_sha : string;
  commit_message : string
}.

(** A label of an issue: a string, or an object whose [name] may be missing. *)
Inductive Label : Type :=
| LabelString (s : string)
| LabelObject (name : option string).

Record Issue : Type := mkIssue {
  issue_labels : list Label
}.

(** The client: for every request, how the remote answers it ([data] of the
    response, or a rejection).  The remote does not change during a run. *)
Record Octokit : Type := mkOctokit {
  listTags : string -> string -> Settled (list Tag);
  listMatchingRefs : string -> string -> string -> Settled (list GitRef);
  listCommits : string -> string -> string -> Settled (list Commit);
  issuesGet : string -> string -> N -> Settled Issue;
  createRef : string -> string -> string -> string -> Settled unit
}.

(** [github.context]: [payload.repository] with [owner.login] and [name],
    and [ref]. *)
Record Repository : Type := mkRepository {
  owner_login : option string;
  repository_name : option string
}.

Record Context : Type := mkContext {
  payload_repository : option Repository;
  context_ref : string
}.

(** What [core.getInput] returns for each input, [""] when it is not set. *)
Record Inputs : Type := mkInputs {
  github_token : string;
  dry_run : string;
  bump : string;
  branch : string;
  release_branch : string;
  with_v : string;
  tag : string;
  issue_labels_input : string
}.

(** The values of [releaseBump]. *)
Inductive ReleaseBump : Type := none | patch | minor | major.

Definition bumpName (b : ReleaseBump) : string :=
  match b with
  | none => "none"
  | patch => "patch"
  | minor => "minor"
  | major => "major"
  end.

Definition isMinor (b : ReleaseBump) : bool :=
  match b with
  | minor => true
  | _ => false
  end.

Definition isNone (b : ReleaseBump) : bool :=
  match b with
  | none => true
  | _ => false
  end.

(** [nextVersion]: not assigned, [null] from [semver.inc], or a string. *)
Inductive Value : Type :=
| Undefined
| Null
| Text (s : string).

(** [`${value}`] *)
Definition templateString (v : Value) : string :=
  match v with
  | Undefined => "undefined"
  | Null => "null"
  | Text s => s
  end.

(** What [core.setOutput] writes for a value. *)
Definition commandValue (v : Value) : string :=
  match v with
  | Text s => s
  | _ => ""
  end.

Definition ofNullable (o : option string) : Value :=
  match o with
  | Some s => Text s
  | None => Null
  end.

(** [xs.pop()]: the last element, [undefined] for an empty array. *)
Fixpoint lastOf {A : Type} (xs : list A) : option A :=
  match xs with
  | [] => None
  | [x] => Some x
  | _ :: xs' => lastOf xs'
  end.

(** *** checkTag (lines 23-41) *)

Section WithRepository.

Variable octokit : Octokit.
Variables owner repo : string.

Definition checkTag (tagName : string) : Async bool :=
  data <- request (ListTags owner repo) (listTags octokit owner repo) ;;
  let result := filter (fun t => (tag_name t =? tagName)%string) data in
  match result with
  | [] => ret false
  | _ => ret true
  end.

(** *** getLatestTag (lines 43-71) *)

(** The comparator of the sort.  [semver.compare] throws on [null]. *)
Definition compareTags (a b : Tag) : Settled comparison :=
  match Semver.clean (tag_name a), Semver.clean (tag_name b) with
  | Some x, Some y => Fulfilled (Semver.compare x y)
  | _, _ => Rejected "Invalid Version: null"
  end.

(** [Array.prototype.sort] is stable, and for a comparator that orders the
    elements consistently the sorted stable arrangement is unique: it is
    computed here by insertion, from the last element to the first.  Where
    the comparator is not consistent (numeric prerelease identifiers that
    round to the same double) the order of the result is the engine's; what
    is proved about the order is proved for lists without such
    identifiers. *)
Fixpoint insertSorted {A : Type} (cmp : A -> A -> Settled comparison)
    (x : A) (sorted : list A) : Settled (list A) :=
  match sorted with
  | [] => Fulfilled [x]
  | y :: ys =>
      bindS (cmp x y) (fun c =>
        match c with
        | Gt => bindS (insertSorted cmp x ys) (fun zs => Fulfilled (y :: zs))
        | _ => Fulfilled (x :: y :: ys)
        end)
  end.

Fixpoint sort {A : Type} (cmp : A -> A -> Settled comparison) (xs : list A)
    : Settled (list A) :=
  match xs with
  | [] => Fulfilled []
  | x :: xs' => bindS (sort cmp xs') (insertSorted cmp x)
  end.

Definition qualifies (t : Tag) : bool :=
  match Semver.clean (tag_name t) with
  | Some _ => true
  | None => false
  end.

Definition notPrerelease (t : Tag) : bool :=
  match Semver.prereleaseOf (tag_name t) with
  | Some _ => false
  | None => true
  end.

(** Lines 52-70: what is returned for the tags [data] of the response. *)
Definition pickLatest (data : list Tag) (boolAll : bool) : Settled (option Tag) :=
  let allVTags := filter qualifies data in
  bindS (sort compareTags allVTags) (fun sorted =>
    if boolAll then Fulfilled (lastOf sorted)
    else
      let filtered := filter notPrerelease sorted in
      Fulfilled (lastOf filtered)).

Definition getLatestTag (boolAll : bool) : Async (option Tag) :=
  data <- request (ListTags owner repo) (listTags octokit owner repo) ;;
  lift (pickLatest data boolAll).

(** *** loadBranch (lines 73-85) *)

Definition loadBranch (branch : string) : Async (option GitRef) :=
  data <- request (ListMatchingRefs owner repo ("heads/" ++ branch))
                  (listMatchingRefs octokit owner repo ("heads/" ++ branch)) ;;
  ret (List.hd_error data).

(** *** checkMessages (lines 87-188) *)

(** [commit.sha === tagSha] *)
Definition isTagSha (sha : string) (tagSha : option string) : bool :=
  match tagSha with
  | Some t => (sha =? t)%string
  | None => false
  end.

(** Lines 167-178: the issue makes it a patch, and a minor as soon as one of
    its labels is among [issueTags]. *)
Fixpoint labelsBump (issueTags : list string) (labels : list Label) : ReleaseBump :=
  match labels with
  | [] => patch
  | LabelObject name :: rest =>
      let name' :=
        match name with
        | Some (String c s) => String c s
        | _ => "empty"
        end in
      if includes issueTags name' then minor else labelsBump issueTags rest
  | LabelString _ :: rest => labelsBump issueTags rest
  end.

(** The loop over [result.data], from the commit it is at, with the current
    [releaseBump].  [Number(id[1])] is the double of the digits. *)
Fixpoint scanCommits (tagSha : option string) (issueTags : list string)
    (releaseBump : ReleaseBump) (commits : list Commit) : Async ReleaseBump :=
  match commits with
  | [] => ret releaseBump
  | commit :: rest =>
      let message := commit_message commit in
      if isTagSha (commit_sha commit) tagSha then ret releaseBump
      else if testMarker "#wip" message then
        scanCommits tagSha issueTags releaseBump rest
      else if testMarker "#major" message then ret major
      else if testMarker "#minor" message then
        scanCommits tagSha issueTags minor rest
      else if negb (isMinor releaseBump) && testMarker "#patch" message then
        scanCommits tagSha issueTags patch rest
      else if negb (isMinor releaseBump) && testFix message then
        match execMatcher message with
        | Some id =>
            if (0 <? numberOfDigits id)%N then
              let issue_number := numberOfDigits id in
              data <- request (IssuesGet owner repo issue_number)
                              (issuesGet octokit owner repo issue_number) ;;
              scanCommits tagSha issueTags
                (labelsBump issueTags (issue_labels data)) rest
            else scanCommits tagSha issueTags releaseBump rest
        | None => scanCommits tagSha issueTags releaseBump rest
        end
      else scanCommits tagSha issueTags releaseBump rest
  end.

(** The response of a fulfilled request is an object with [data], so the test
    of line 105 passes; so does the test of [data] of the issue, line 166. *)
Definition checkMessages (branchHeadSha : string) (tagSha : option string)
    (issueTags : list string) : Async ReleaseBump :=
  let sha := branchHeadSha in
  data <- request (ListCommits owner repo sha) (listCommits octokit owner repo sha) ;;
  scanCommits tagSha issueTags none data.

End WithRepository.

(** *** isReleaseBranch (lines 190-199) *)

(** The characters that are not literal in a pattern. *)
Definition isSyntaxCharacter (c : ascii) : bool :=
  existsb (Ascii.eqb c)
    ["^"; "$"; "\"; "."; "*"; "+"; "?"; "("; ")"; "["; "]"; "{"; "}"; "|"]%char.

Fixpoint isLiteralPattern (p : string) : bool :=
  match p with
  | String c p' => negb (isSyntaxCharacter c) && isLiteralPattern p'
  | EmptyString => true
  end.

(** Whether [p] occurs in [s]. *)
Definition occursIn (p s : string) : bool :=
  searches (fun t => match stripPrefix p t with Some _ => true | None => false end) s.

Section WithRegExp.

(** [new RegExp(pattern).test(subject)] for the patterns of the configuration:
    the answer, or the [SyntaxError] of a pattern that does not compile.  A
    pattern without syntax characters matches the subjects it occurs in, the
    empty pattern ([/(?:)/]) all of them.  The other patterns are answered by
    [regExp], JavaScript's regular expressions, which are not modelled. *)
Variable regExp : string -> string -> Settled bool.

Definition regExpTest (pattern subject : string) : Settled bool :=
  if isLiteralPattern pattern then Fulfilled (occursIn pattern subject)
  else regExp pattern subject.

(** The [for] loop over the patterns. *)
Fixpoint testBranches (branchName : string) (branches : list string) : Settled bool :=
  match branches with
  | [] => Fulfilled false
  | branch :: rest =>
      bindS (regExpTest branch branchName) (fun matched =>
        if matched then Fulfilled true else testBranches branchName rest)
  end.

Definition isReleaseBranch (branchName branchList : string) : Settled bool :=
  testBranches branchName (map trim (split "," branchList)).

(** *** action (lines 201-355) *)

(** [semver.inc] of [semver.clean(versionTag)]; on [null] the constructor
    throws inside [inc], which returns [null]. *)
Definition incVersion (version : option Semver.SemVer) (release identifier : string)
    : Value :=
  match version with
  | Some v => ofNullable (Semver.inc v release identifier)
  | None => Null
  end.

(** Lines 300-308 *)
Definition issLabs (issueLabels : string) : list string :=
  match issueLabels with
  | EmptyString => ["enhancement"]
  | _ =>
      match map trim (split "," issueLabels) with
      | [] => ["enhancement"]
      | xlabels => xlabels
      end
  end.

Section WithRun.

Variable inputs : Inputs.
Variable contextRef : string.
Variable octokit : Octokit.
Variables owner repo : string.

(** Lines 221-247: the branch to work on. *)
Definition resolveBranch : Async GitRef :=
  let forceBranch := branch inputs in
  forced <-
    match forceBranch with
    | EmptyString => ret None
    | _ =>
        branchInfo <- loadBranch octokit owner repo forceBranch ;;
        match branchInfo with
        | None => throw "unknown branch provided"
        | Some info => ret (Some info)
        end
    end ;;
  match forced with
  | Some info => ret info
  | None =>
      let activeBranch := removeFirst "refs/heads/" contextRef in
      branchInfo <- loadBranch octokit owner repo activeBranch ;;
      match branchInfo with
      | None => throw ("failed to load branch " ++ activeBranch)
      | Some info => ret info
      end
  end.

(** Lines 263-335: the version that follows the latest tag. *)
Definition computeVersion (sha branchName : string) : Async Value :=
  let level := bump inputs in
  let releaseBranch := release_branch inputs in
  latestTag <- getLatestTag octokit owner repo true ;;
  latestMainTag <- getLatestTag octokit owner repo false ;;
  let versionTag :=
    match latestTag with
    | Some t => tag_name t
    | None => "0.0.0"
    end in
  setOutput "tag" versionTag ;;;
  match latestTag with
  | Some t =>
      if (tag_commit_sha t =? sha)%string
      then throw "no new commits, avoid tagging" else ret tt
  | None => ret tt
  end ;;;
  let version := Semver.clean versionTag in
  let nextVersion := incVersion version "prerelease" branchName in
  msgLevel <- checkMessages octokit owner repo sha
                (option_map tag_commit_sha latestMainTag)
                (issLabs (issue_labels_input inputs)) ;;
  isRelease <- lift (isReleaseBranch branchName releaseBranch) ;;
  let nextVersion :=
    if isRelease then
      if isNone msgLevel then incVersion version level ""
      else incVersion version (bumpName msgLevel) ""
    else nextVersion in
  setOutput "new-tag" (commandValue nextVersion) ;;;
  ret nextVersion.

Definition action : Async unit :=
  token <-
    match github_token inputs with
    | EmptyString => throw "Input required and not supplied: github-token"
    | t => ret t
    end ;;
  let dryRun := toLowerCase (dry_run inputs) in
  let withV := if (toLowerCase (with_v inputs) =? "false")%string then "" else "v" in
  let customTag := tag inputs in
  branchInfo <- resolveBranch ;;
  let sha := ref_object_sha branchInfo in
  let branchName := pop (split "/" (ref_name branchInfo)) in
  nextVersion <-
    match customTag with
    | String _ _ =>
        checkTagResult <- checkTag octokit owner repo customTag ;;
        (if checkTagResult : bool
         then throw ("tag already exists " ++ customTag) else ret tt) ;;;
        setOutput "new-tag" customTag ;;;
        ret Undefined
    | EmptyString => computeVersion sha branchName
    end ;;
  if (dryRun =? "true")%string then ret tt
  else
    let newTag := withV ++ templateString nextVersion in
    let ref :=
      "refs/tags/" ++ match customTag with String _ _ => customTag | _ => newTag end in
    request (CreateRef owner repo ref sha) (createRef octokit owner repo ref sha).

End WithRun.

(** *** The module (lines 13-21 and 357-361) *)

(** How the process ends: [action()] fulfilled, [core.setFailed] called with
    the message of the rejection, or an exception that nothing catches. *)
Inductive Exit : Type :=
| Success
| Failed (message : string)
| Uncaught (message : string).

Record Run : Type := mkRun {
  exit : Exit;
  events : list Event
}.

Definition main (context : Context) (inputs : Inputs) (octokit : Octokit) : Run :=
  match payload_repository context with
  | None => mkRun (Uncaught "Repository owner can't be null") []
  | Some repository =>
      match owner_login repository with
      | None => mkRun (Uncaught "Repository owner can't be null") []
      | Some owner =>
          match repository_name repository with
          | None => mkRun (Uncaught "Repository name can't be null") []
          | Some repo =>
              match action inputs (context_ref context) octokit owner repo with
              | (Fulfilled _, done) => mkRun Success done
              | (Rejected message, done) => mkRun (Failed message) done
              end
          end
      end
  end.

End WithRegExp.

End Tagger.

(* ================================================================= *)
(** ** Observing a run *)

Import JS Tagger.
Local Open Scope async_scope.

(** The value an output has after the events: the last one set. *)
Fixpoint outputValue (name : string) (events : list Event) : option string :=
  match events with
  | [] => None
  | e :: rest =>
      match outputValue name rest with
      | Some v => Some v
      | None =>
          match e with
          | SetOutput n v => if (n =? name)%string then Some v else None
          | _ => None
          end
      end
  end.

Definition isCreateRef (e : Event) : bool :=
  match e with
  | CreateRef _ _ _ _ => true
  | _ => false
  end.

(** The tag-creation requests among the events. *)
Definition created (events : list Event) : list Event := filter isCreateRef events.

(** The order of the classifications. *)
Definition rank (b : ReleaseBump) : nat :=
  match b with
  | none => 0
  | patch => 1
  | minor => 2
  | major => 3
  end.

(** The same remote with [commits] as the answer of [listCommits]. *)
Definition withCommits (o : Octokit) (commits : list Commit) : Octokit :=
  mkOctokit (listTags o) (listMatchingRefs o) (fun _ _ _ => Fulfilled commits)
    (issuesGet o) (createRef o).

(** The same inputs with another [dry-run]. *)
Definition withDryRun (i : Inputs) (dryRun : string) : Inputs :=
  mkInputs (github_token i) dryRun (bump i) (branch i) (release_branch i)
    (with_v i) (tag i) (issue_labels_input i).

(** The same inputs with another [release-branch]. *)
Definition withReleaseBranch (i : Inputs) (releaseBranch : string) : Inputs :=
  mkInputs (github_token i) (dry_run i) (bump i) (branch i) releaseBranch
    (with_v i) (tag i) (issue_labels_input i).

(** The version the action starts from: the cleaned name of the latest tag,
    of [0.0.0] when there is none. *)
Definition currentVersion (latestTag : option Tag) : option Semver.SemVer :=
  Semver.clean
    match latestTag with
    | Some t => tag_name t
    | None => "0.0.0"
    end.

(** The level of a full bump: the classification, the configured level when
    there is none. *)
Definition bumpLevel (level : string) (msgLevel : ReleaseBump) : string :=
  if isNone msgLevel then level else bumpName msgLevel.

(** The run computes a version: the event names the repository [owner] and
    [repo], the token is there and no custom tag is configured; the branch
    resolves to [info]; the remote lists [tags], of which [latestTag] is the
    latest, on another commit than the head of the branch; the commits since
    the latest main tag classify as [msgLevel]; and the release-branch test of
    the branch name answers [isRelease]. *)
Definition Computes (regExp : string -> string -> Settled bool)
    (context : Context) (inputs : Inputs) (octokit : Octokit)
    (owner repo : string) (info : GitRef) (tags : list Tag)
    (latestTag : option Tag) (msgLevel : ReleaseBump) (isRelease : bool) : Prop :=
  payload_repository context = Some (mkRepository (Some owner) (Some repo))
  /\ github_token inputs <> ""
  /\ tag inputs = ""
  /\ fst (resolveBranch inputs (context_ref context) octokit owner repo)
     = Fulfilled info
  /\ listTags octokit owner repo = Fulfilled tags
  /\ pickLatest tags true = Fulfilled latestTag
  /\ (forall t, latestTag = Some t -> tag_commit_sha t <> ref_object_sha info)
  /\ (exists latestMainTag,
        pickLatest tags false = Fulfilled latestMainTag
        /\ fst (checkMessages octokit owner repo (ref_object_sha info)
                  (option_map tag_commit_sha latestMainTag)
                  (issLabs (issue_labels_input inputs)))
           = Fulfilled msgLevel)
  /\ isReleaseBranch regExp (pop (split "/" (ref_name info)))
       (release_branch inputs) = Fulfilled isRelease.

(** [withV]: the prefix of a computed tag. *)
Definition tagPrefix (inputs : Inputs) : string :=
  if (toLowerCase (with_v inputs) =? "false")%string then "" else "v".

(** The version such a run computes: a full bump on a release branch, a
    prerelease of the branch elsewhere. *)
Definition computed (inputs : Inputs) (latestTag : option Tag) (branchName : string)
    (msgLevel : ReleaseBump) (isRelease : bool) : Value :=
  if isRelease then
    incVersion (currentVersion latestTag) (bumpLevel (bump inputs) msgLevel) ""
  else incVersion (currentVersion latestTag) "prerelease" branchName.

(** The first conflict: a custom tag is configured and the remote lists a tag
    of that name. *)
Definition CustomTagExists (context : Context) (inputs : Inputs) (octokit : Octokit)
    : Prop :=
  tag inputs <> ""
  /\ exists owner repo tags t,
       payload_repository context = Some (mkRepository (Some owner) (Some repo))
       /\ listTags octokit owner repo = Fulfilled tags
       /\ In t tags
       /\ tag_name t = tag inputs.

(** The second conflict: the commit of the latest tag is the head of the
    branch the run resolves. *)
Definition LatestTagOnHead (context : Context) (inputs : Inputs) (octokit : Octokit)
    : Prop :=
  exists owner repo info tags t,
    payload_repository context = Some (mkRepository (Some owner) (Some repo))
    /\ fst (resolveBranch inputs (context_ref context) octokit owner repo)
       = Fulfilled info
    /\ listTags octokit owner repo = Fulfilled tags
    /\ pickLatest tags true = Fulfilled (Some t)
    /\ tag_commit_sha t = ref_object_sha info.

(** The run ends in [core.setFailed]. *)
Definition failed (run : Run) : Prop := exists message, exit run = Failed message.

(** The events that are not the creation of a reference. *)
Definition reads (events : list Event) : list Event :=
  filter (fun e => negb (isCreateRef e)) events.

(** The levels of a full bump. *)
Definition fullBumps : list string := ["major"; "minor"; "patch"].

(** An identifier that [compareIdentifiers] reads as it is: a number, which
    the constructor only makes of digits below [MAX_SAFE_INTEGER], or a string
    that is not all digits. *)
Definition isExactIdentifier (i : Semver.Identifier) : bool :=
  match i with
  | Semver.Num _ => true
  | Semver.Str s => negb (isNumeric s)
  end.

Definition exactIdentifier (i : Semver.Identifier) : Prop :=
  isExactIdentifier i = true.

(** A version of such identifiers, without build metadata. *)
Definition exactVersion (v : Semver.SemVer) : Prop :=
  Forall exactIdentifier (Semver.prerelease v) /\ Semver.build v = [].

(** The numeric prerelease identifiers of the tag's version, if it has one,
    are below [MAX_SAFE_INTEGER]. *)
Definition bounded (t : Tag) : bool :=
  match Semver.clean (tag_name t) with
  | Some v => forallb isExactIdentifier (Semver.prerelease v)
  | None => true
  end.

(** The tag qualifies and its version has no prerelease identifiers. *)
Definition mainRelease (t : Tag) : Prop :=
  exists v, Semver.clean (tag_name t) = Some v /\ Semver.prerelease v = [].

(** The characters of a version: those of the identifiers, the dot and the
    plus. *)
Definition isVersionChar (c : ascii) : bool :=
  Semver.isIdentifierChar c || (c =? ".")%char || (c =? "+")%char.

(** Both tags qualify, and [semver.compare] does not put the cleaned name of
    [t] below that of [u]. *)
Definition notBelow (t u : Tag) : Prop :=
  exists x y,
    Semver.clean (tag_name t) = Some x
    /\ Semver.clean (tag_name u) = Some y
    /\ Semver.compare x y <> Lt.

(** *** More vocabulary *)

(** A request for an issue with a positive number. *)
Definition isIssueRequest (e : Event) : bool :=
  match e with
  | IssuesGet _ _ n => (0 <? n)%N
  | _ => false
  end.

(** The name line 171 gives a label: none for a string, [empty] for an
    object without name. *)
Definition labelName (l : Label) : option string :=
  match l with
  | LabelString _ => None
  | LabelObject (Some (String c s)) => Some (String c s)
  | LabelObject _ => Some "empty"
  end.

(** The message carries none of [#major], [#minor], [#patch] and no reference
    to a fixed issue. *)
Definition unmarked (c : Commit) : bool :=
  negb (testMarker "#major" (commit_message c))
  && negb (testMarker "#minor" (commit_message c))
  && negb (testMarker "#patch" (commit_message c))
  && negb (testFix (commit_message c)).

(** The message carries a reference to a fixed issue and no marker. *)
Definition plainFix (c : Commit) : bool :=
  negb (testMarker "#wip" (commit_message c))
  && negb (testMarker "#major" (commit_message c))
  && negb (testMarker "#minor" (commit_message c))
  && negb (testMarker "#patch" (commit_message c))
  && testFix (commit_message c).

(** What the [inc] method accepts as release. *)
Definition releaseTypes : list string :=
  ["premajor"; "preminor"; "prepatch"; "prerelease"; "major"; "minor"; "patch"; "pre"].

(** The event leaves the output [name] as it is. *)
Definition keeps (name : string) (e : Event) : bool :=
  match e with
  | SetOutput n _ => negb (n =? name)%string
  | _ => true
  end.

(** The run gets to the tags: the event names the repository, the token is
    there and the branch resolves to [info]. *)
Definition Resolves (context : Context) (inputs : Inputs) (octokit : Octokit)
    (owner repo : string) (info : GitRef) : Prop :=
  payload_repository context = Some (mkRepository (Some owner) (Some repo))
  /\ github_token inputs <> ""
  /\ fst (resolveBranch inputs (context_ref context) octokit owner repo)
     = Fulfilled info.

(** The same remote with [tags] as the answer of [listTags]. *)
Definition withTags (o : Octokit) (tags : list Tag) : Octokit :=
  mkOctokit (fun _ _ => Fulfilled tags) (listMatchingRefs o) (listCommits o)
    (issuesGet o) (createRef o).

(** The character does not occur in the string. *)
Definition without (sep : ascii) (s : string) : bool :=
  Semver.allOf (fun c => negb (c =? sep)%char) s.

(** The characters of a name that [clean] reads: those of a version, the
    equals sign, and white space. *)
Definition isCleanChar (c : ascii) : bool :=
  isVersionChar c || (c =? "=")%char || isWhiteSpace c.

(** The numbers of the version leave room for an increment. *)
Definition incrementable (v : Semver.SemVer) : Prop :=
  (Semver.major v < Semver.MAX_SAFE_INTEGER)%N
  /\ (Semver.minor v < Semver.MAX_SAFE_INTEGER)%N
  /\ (Semver.patch v < Semver.MAX_SAFE_INTEGER)%N.

(** The digit [m] before the numeral [d]. *)
Definition digit (m : N) (d : Decimal.uint) : Decimal.uint :=
  match m with
  | 0%N => Decimal.D0 d
  | 1%N => Decimal.D1 d
  | 2%N => Decimal.D2 d
  | 3%N => Decimal.D3 d
  | 4%N => Decimal.D4 d
  | 5%N => Decimal.D5 d
  | 6%N => Decimal.D6 d
  | 7%N => Decimal.D7 d
  | 8%N => Decimal.D8 d
  | _ => Decimal.D9 d
  end.

(** The last [k] digits of [n], the last one first. *)
Fixpoint littleEndian (k : nat) (n : N) : Decimal.uint :=
  match k with
  | O => Decimal.Nil
  | S k' => digit (n mod 10)%N (littleEndian k' (n / 10)%N)
  end.

(* ================================================================= *)
(** ** Example repositories *)

Module Example.

(** A remote with the given tags, branches, commits and issues, which accepts
    every new reference.  [listMatchingRefs] answers with the references that
    start with the requested one. *)
Definition remote (tags : list Tag) (refs : list GitRef) (commits : list Commit)
    (issues : N -> Settled Issue) : Octokit :=
  mkOctokit
    (fun _ _ => Fulfilled tags)
    (fun _ _ ref =>
       Fulfilled
         (filter (fun r => match stripPrefix ("refs/" ++ ref) (ref_name r) with
                           | Some _ => true
                           | None => false
                           end) refs))
    (fun _ _ _ => Fulfilled commits)
    (fun _ _ n => issues n)
    (fun _ _ _ _ => Fulfilled tt).

Definition noIssues (n : N) : Settled Issue := Rejected "Not Found".

(** An engine that refuses every pattern with a syntax character. *)
Definition noRegExp (pattern subject : string) : Settled bool :=
  Rejected "Invalid regular expression".

Definition pushTo (ref : string) : Context :=
  mkContext (Some (mkRepository (Some "rbkmoney") (Some "action-tagger"))) ref.

(** [bump: minor], [release-branch: main], the other inputs not set. *)
Definition inputs : Inputs := mkInputs "token" "" "minor" "" "main" "" "" "".

(** Tag [v1.2.0] on commit [a1], branch [main] one commit further. *)
Definition onMain (message : string) : Octokit :=
  remote [mkTag "v1.2.0" "a1"] [mkGitRef "refs/heads/main" "b2"]
    [mkCommit "b2" message; mkCommit "a1" "release"] noIssues.

(** Tags [v1.2.0] and [v1.2.1-rc.1], branch [feature/x] ahead of both. *)
Definition onFeature : Octokit :=
  remote [mkTag "v1.2.0" "a1"; mkTag "v1.2.1-rc.1" "c3"]
    [mkGitRef "refs/heads/main" "a1"; mkGitRef "refs/heads/feature/x" "d4"]
    [mkCommit "d4" "work"; mkCommit "c3" "candidate"; mkCommit "a1" "release"]
    noIssues.

(** A release tag, and a tag of a release candidate whose name starts with
    an equals sign. *)
Definition tagsWithEquals : list Tag :=
  [mkTag "v1.0.0" "a1"; mkTag "=1.1.0-rc.1" "b2"].

(** The custom tag [v9.9.9]. *)
Definition customInputs : Inputs := mkInputs "token" "" "" "" "" "" "v9.9.9" "".

(** The latest tag [v1.0.0] is on the head of [main]. *)
Definition nothingNew : Octokit :=
  remote [mkTag "v1.0.0" "b2"] [mkGitRef "refs/heads/main" "b2"]
    [mkCommit "b2" "release"] noIssues.

(** The tag [v9.9.9] exists. *)
Definition alreadyTagged : Octokit :=
  remote [mkTag "v9.9.9" "a1"] [mkGitRef "refs/heads/main" "b2"]
    [mkCommit "b2" "work"; mkCommit "a1" "release"] noIssues.

(** A commit of work in progress that is the commit of the last main tag. *)
Definition wipOnTag : Commit := mkCommit "a1" "release #wip".

Definition minorCommit : Commit := mkCommit "b2" "feature #minor".

End Example.

(* ================================================================= *)
(** ** Properties *)

Local Open Scope list_scope.

(** *** Events *)

Lemma outputValue_app (name : string) (before after : list Event) :
  outputValue name (before ++ after) =
  match outputValue name after with
  | Some v => Some v
  | None => outputValue name before
  end.
Proof.
  induction before as [|e before IH]; simpl.
  - destruct (outputValue name after); reflexivity.
  - rewrite IH. destruct (outputValue name after); reflexivity.
Qed.

Lemma created_app (before after : list Event) :
  created (before ++ after) = created before ++ created after.
Proof. apply filter_app. Qed.

Lemma reads_app (before after : list Event) :
  reads (before ++ after) = reads before ++ reads after.
Proof. apply filter_app. Qed.

Lemma reads_all (events : list Event) : created events = [] -> reads events = events.
Proof.
  unfold created, reads. induction events as [|e events IH]; cbn [filter]; auto.
  destruct (isCreateRef e); cbn [negb]; [discriminate|]. intros H. now rewrite IH.
Qed.

(** A computation creates no reference when none of its parts does. *)
Lemma bind_reads {A B : Type} (m : Async A) (f : A -> Async B) :
  created (snd m) = [] -> (forall a, created (snd (f a)) = []) ->
  created (snd (bind m f)) = [].
Proof.
  intros Hm Hf. destruct m as [[a|message] done]; cbn [bind snd] in *; auto.
  specialize (Hf a). destruct (f a) as [r more]. cbn [snd] in *.
  rewrite created_app, Hm, Hf. reflexivity.
Qed.

(** *** The classifier *)

Section Classifier.

Variable octokit : Octokit.
Variables owner repo : string.
Variable tagSha : option string.
Variable issueTags : list string.

Local Abbreviation scan := (scanCommits octokit owner repo tagSha issueTags).

(** The tests of one turn of the loop, one after the other. *)
Ltac scan_cases :=
  repeat match goal with
  | |- context [if ?c then _ else _] => destruct c eqn:?
  | |- context [match execMatcher ?m with _ => _ end] =>
      destruct (execMatcher m) eqn:?
  | |- context [match issuesGet ?o ?a ?b ?n with _ => _ end] =>
      destruct (issuesGet o a b n) eqn:?
  end.

Lemma scan_major_here (b : ReleaseBump) (commit : Commit) (rest : list Commit) :
  isTagSha (commit_sha commit) tagSha = false ->
  testMarker "#wip" (commit_message commit) = false ->
  testMarker "#major" (commit_message commit) = true ->
  scan b (commit :: rest) = (Fulfilled major, []).
Proof.
  intros Hstop Hwip Hmajor. simpl. rewrite Hstop, Hwip, Hmajor. reflexivity.
Qed.

Lemma scan_after_major (commit : Commit) (rest : list Commit) :
  isTagSha (commit_sha commit) tagSha = false ->
  testMarker "#wip" (commit_message commit) = false ->
  testMarker "#major" (commit_message commit) = true ->
  forall (pre : list Commit) (b : ReleaseBump),
    scan b (pre ++ commit :: rest) = scan b (pre ++ [commit]).
Proof.
  intros Hstop Hwip Hmajor pre.
  induction pre as [|c pre IH]; intros b.
  - simpl. rewrite Hstop, Hwip, Hmajor. reflexivity.
  - simpl. scan_cases; rewrite ?IH; auto.
Qed.

Lemma scan_reaches_major (commit : Commit) (rest : list Commit) :
  isTagSha (commit_sha commit) tagSha = false ->
  testMarker "#wip" (commit_message commit) = false ->
  testMarker "#major" (commit_message commit) = true ->
  forall (pre : list Commit) (b r : ReleaseBump) (done : list Event),
    (forall c, In c pre -> isTagSha (commit_sha c) tagSha = false) ->
    scan b (pre ++ commit :: rest) = (Fulfilled r, done) -> r = major.
Proof.
  intros Hstop Hwip Hmajor pre.
  induction pre as [|c pre IH]; intros b r done Hpre.
  - rewrite app_nil_l, (scan_major_here b commit rest Hstop Hwip Hmajor).
    now intros [= <- _].
  - assert (IH' := fun b r done => IH b r done (fun c' H => Hpre c' (or_intror H))).
    simpl. rewrite (Hpre c (or_introl eq_refl)).
    scan_cases; eauto; try (now intros [= <- _]); try discriminate.
    destruct (scanCommits _ _ _ _ _ _ (pre ++ commit :: rest)) as [r' more] eqn:E.
    intros [= -> _]. eauto.
Qed.

Lemma scan_skips_wip (w : Commit) :
  isTagSha (commit_sha w) tagSha = false ->
  testMarker "#wip" (commit_message w) = true ->
  forall (pre post : list Commit) (b : ReleaseBump),
    scan b (pre ++ w :: post) = scan b (pre ++ post).
Proof.
  intros Hstop Hwip pre post.
  induction pre as [|c pre IH]; intros b.
  - simpl. rewrite Hstop, Hwip. reflexivity.
  - simpl. scan_cases; rewrite ?IH; auto.
Qed.

Lemma labelsBump_cases (labels : list Label) :
  labelsBump issueTags labels = patch \/ labelsBump issueTags labels = minor.
Proof.
  induction labels as [|[s|name] labels IH]; simpl; auto.
  destruct (includes issueTags _); auto.
Qed.

Lemma scan_monotone (commits : list Commit) :
  forall (b r : ReleaseBump) (done : list Event),
    b <> major -> scan b commits = (Fulfilled r, done) -> rank b <= rank r.
Proof.
  induction commits as [|c commits IH]; intros b r done Hb; simpl.
  { intros [= <- _]. lia. }
  destruct (isTagSha _ _). { intros [= <- _]. lia. }
  destruct (testMarker "#wip" _). { now apply IH. }
  destruct (testMarker "#major" _). { intros [= <- _]. destruct b; simpl; lia. }
  destruct (testMarker "#minor" _).
  { intros H. apply IH in H; [|discriminate].
    destruct b; simpl in *; try lia. congruence. }
  destruct (negb (isMinor b) && testMarker "#patch" _) eqn:Epatch.
  { intros H. apply IH in H; [|discriminate].
    destruct b; simpl in *; try lia; try discriminate. congruence. }
  destruct (negb (isMinor b) && testFix _) eqn:Efix; [|now apply IH].
  destruct (execMatcher _) as [id|]; [|now apply IH].
  destruct (0 <? numberOfDigits id)%N; [|now apply IH].
  unfold bind, request.
  destruct (issuesGet _ _ _ _) as [issue|m]; [|discriminate].
  destruct (scanCommits _ _ _ _ _ _ commits) as [r' more] eqn:Hscan.
  intros [= -> _].
  destruct (labelsBump_cases (issue_labels issue)) as [E | E];
    rewrite E in Hscan; apply IH in Hscan; try discriminate;
    destruct b; simpl in *; try lia; try discriminate; congruence.
Qed.

Lemma scan_keeps_minor (commits : list Commit) :
  (forall c, In c commits -> testMarker "#major" (commit_message c) = false) ->
  scan minor commits = (Fulfilled minor, []).
Proof.
  induction commits as [|c commits IH]; intros Hfree; simpl.
  - reflexivity.
  - rewrite (Hfree c (or_introl eq_refl)).
    assert (IH' := IH (fun c' H => Hfree c' (or_intror H))).
    simpl. scan_cases; auto.
Qed.

Lemma scan_from_minor (commits : list Commit) :
  scan minor commits = (Fulfilled minor, [])
  \/ scan minor commits = (Fulfilled major, []).
Proof.
  induction commits as [|c commits IH]; simpl; auto.
  scan_cases; auto.
Qed.

(** The loop asks the remote for issues only. *)
Lemma scan_withCommits (answer : list Commit) (commits : list Commit) :
  forall b,
    scanCommits (withCommits octokit answer) owner repo tagSha issueTags b commits
    = scan b commits.
Proof. reflexivity. Qed.

Lemma checkMessages_withCommits (sha : string) (commits : list Commit) :
  checkMessages (withCommits octokit commits) owner repo sha tagSha issueTags
  = bind (request (ListCommits owner repo sha) (Fulfilled commits))
         (scan none).
Proof.
  unfold checkMessages. cbn [withCommits listCommits bind request].
  rewrite scan_withCommits. reflexivity.
Qed.

Lemma scanCommits_reads (commits : list Commit) :
  forall b, created (snd (scan b commits)) = [].
Proof.
  induction commits as [|c commits IH]; intros b; simpl; auto.
  repeat match goal with
  | |- context [if ?c then _ else _] => destruct c
  | |- context [match execMatcher ?m with _ => _ end] => destruct (execMatcher m)
  end; auto.
  destruct (issuesGet _ _ _ _) as [issue|m]; auto.
  specialize (IH (labelsBump issueTags (issue_labels issue))).
  destruct (scanCommits _ _ _ _ _ _ commits); simpl in *. exact IH.
Qed.

Lemma checkMessages_reads (sha : string) :
  created (snd (checkMessages octokit owner repo sha tagSha issueTags)) = [].
Proof.
  unfold checkMessages. apply bind_reads; [reflexivity|]. intros commits.
  apply scanCommits_reads.
Qed.

End Classifier.

(** *** The requests of the steps *)

Section Requests.

Variable regExp : string -> string -> Settled bool.
Variable inputs : Inputs.
Variable octokit : Octokit.
Variables owner repo : string.

Lemma resolveBranch_reads (ref : string) :
  created (snd (resolveBranch inputs ref octokit owner repo)) = [].
Proof.
  unfold resolveBranch, loadBranch, bind, request, throw, ret.
  destruct (branch inputs);
    repeat (match goal with
            | |- context [match listMatchingRefs ?o ?a ?b ?r with _ => _ end] =>
                destruct (listMatchingRefs o a b r) as [[|? ?]|?]
            end; simpl); reflexivity.
Qed.

Lemma getLatestTag_reads (boolAll : bool) :
  created (snd (getLatestTag octokit owner repo boolAll)) = [].
Proof.
  unfold getLatestTag. apply bind_reads; [reflexivity|]. intros data.
  unfold lift. reflexivity.
Qed.

Lemma getLatestTag_fulfilled (tags : list Tag) (boolAll : bool) (t : option Tag) :
  listTags octokit owner repo = Fulfilled tags ->
  pickLatest tags boolAll = Fulfilled t ->
  getLatestTag octokit owner repo boolAll = (Fulfilled t, [ListTags owner repo]).
Proof.
  intros Htags Hpick. unfold getLatestTag, bind, request, lift.
  rewrite Htags, Hpick. reflexivity.
Qed.

Lemma checkTag_reads (tagName : string) :
  created (snd (checkTag octokit owner repo tagName)) = [].
Proof.
  unfold checkTag. apply bind_reads; [reflexivity|]. intros data.
  destruct (filter _ data); reflexivity.
Qed.

Lemma checkTag_finds (tags : list Tag) (t : Tag) :
  listTags octokit owner repo = Fulfilled tags ->
  In t tags ->
  checkTag octokit owner repo (tag_name t) = (Fulfilled true, [ListTags owner repo]).
Proof.
  intros Htags Hin. unfold checkTag, request. rewrite Htags. cbn [bind ret app].
  assert (Hf : In t (filter (fun t' => (tag_name t' =? tag_name t)%string) tags)).
  { apply filter_In. split; [assumption|apply String.eqb_refl]. }
  destruct (filter _ tags); [destruct Hf|reflexivity].
Qed.

Lemma computeVersion_reads (sha branchName : string) :
  created (snd (computeVersion regExp inputs octokit owner repo sha branchName)) = [].
Proof.
  unfold computeVersion.
  apply bind_reads; [apply getLatestTag_reads|]. intros latestTag.
  apply bind_reads; [apply getLatestTag_reads|]. intros latestMainTag.
  apply bind_reads; [reflexivity|]. intros _.
  apply bind_reads.
  { destruct latestTag as [t|]; [destruct (_ =? _)%string|]; reflexivity. }
  intros _.
  apply bind_reads; [apply checkMessages_reads|]. intros msgLevel.
  apply bind_reads; [reflexivity|]. intros isRelease.
  apply bind_reads; reflexivity.
Qed.

End Requests.

(** *** A run that computes a version *)

Section Run.

Variable regExp : string -> string -> Settled bool.
Variable context : Context.
Variable inputs : Inputs.
Variable octokit : Octokit.
Variables owner repo : string.

Lemma main_caught :
  payload_repository context = Some (mkRepository (Some owner) (Some repo)) ->
  main regExp context inputs octokit =
  match action regExp inputs (context_ref context) octokit owner repo with
  | (Fulfilled _, done) => mkRun Success done
  | (Rejected message, done) => mkRun (Failed message) done
  end.
Proof. intros H. unfold main. rewrite H. reflexivity. Qed.

Lemma computeVersion_computes (info : GitRef) (tags : list Tag)
    (latestTag : option Tag) (msgLevel : ReleaseBump) (isRelease : bool) :
  Computes regExp context inputs octokit owner repo info tags latestTag msgLevel isRelease ->
  let branchName := pop (split "/" (ref_name info)) in
  let nextVersion := computed inputs latestTag branchName msgLevel isRelease in
  exists before,
    computeVersion regExp inputs octokit owner repo (ref_object_sha info) branchName
    = (Fulfilled nextVersion, before ++ [SetOutput "new-tag" (commandValue nextVersion)])
    /\ created before = [].
Proof.
  intros (_ & _ & _ & _ & Htags & Hlatest & Hnew & (latestMainTag & Hmain & Hmsgs) & Hrel).
  intros branchName nextVersion.
  fold branchName in Hrel.
  assert (Hsha : match latestTag with
                 | Some t => if (tag_commit_sha t =? ref_object_sha info)%string
                             then @throw unit "no new commits, avoid tagging" else ret tt
                 | None => ret tt
                 end = ret tt).
  { destruct latestTag as [t|]; [|reflexivity].
    destruct (String.eqb_spec (tag_commit_sha t) (ref_object_sha info)) as [E|E];
      [|reflexivity].
    now destruct (Hnew t eq_refl). }
  pose proof (checkMessages_reads octokit owner repo
                (option_map tag_commit_sha latestMainTag)
                (issLabs (issue_labels_input inputs)) (ref_object_sha info)) as Hreads.
  unfold computeVersion.
  rewrite (getLatestTag_fulfilled octokit owner repo tags true latestTag Htags Hlatest).
  rewrite (getLatestTag_fulfilled octokit owner repo tags false latestMainTag Htags Hmain).
  cbn [bind setOutput lift ret throw request app].
  rewrite Hsha.
  destruct (checkMessages _ _ _ _ _ _) as [r evM]. cbn [fst snd] in Hmsgs, Hreads. subst r.
  unfold lift. rewrite Hrel.
  cbn [bind setOutput lift ret throw request app].
  exists ([ListTags owner repo; ListTags owner repo;
           SetOutput "tag" match latestTag with Some t => tag_name t | None => "0.0.0" end]
          ++ evM).
  split.
  - unfold nextVersion, computed, currentVersion, bumpLevel.
    rewrite <- !app_assoc. cbn [app].
    destruct isRelease; [destruct (isNone msgLevel)|]; rewrite ?app_nil_r; reflexivity.
  - rewrite created_app, Hreads. reflexivity.
Qed.

(** Such a run sets the output [new-tag] to the version it computes, and
    creates the tag of that version on the head of the branch unless it is a
    dry run. *)
Lemma run_computes (info : GitRef) (tags : list Tag)
    (latestTag : option Tag) (msgLevel : ReleaseBump) (isRelease : bool) :
  Computes regExp context inputs octokit owner repo info tags latestTag msgLevel isRelease ->
  let run := main regExp context inputs octokit in
  let nextVersion :=
    computed inputs latestTag (pop (split "/" (ref_name info))) msgLevel isRelease in
  outputValue "new-tag" (events run) = Some (commandValue nextVersion)
  /\ created (events run) =
     if (toLowerCase (dry_run inputs) =? "true")%string then []
     else [CreateRef owner repo
             ("refs/tags/" ++ tagPrefix inputs ++ templateString nextVersion)%string
             (ref_object_sha info)].
Proof.
  intros Hc run nextVersion.
  destruct (computeVersion_computes info tags latestTag msgLevel isRelease Hc)
    as (before & Hversion & Hbefore).
  destruct Hc as (Hrepo & Htoken & Hcustom & Hbranch & _).
  pose proof (resolveBranch_reads inputs octokit owner repo (context_ref context)) as HB.
  unfold run. rewrite (main_caught Hrepo).
  unfold action. rewrite Hcustom.
  destruct (github_token inputs) as [|c token]; [now destruct Htoken|].
  destruct (resolveBranch _ _ _ _ _) as [r evB]. cbn [fst snd] in Hbranch, HB. subst r.
  cbn [bind ret]. rewrite Hversion. fold nextVersion. unfold tagPrefix.
  destruct (toLowerCase (dry_run inputs) =? "true")%string.
  - cbn [bind ret request events app]. rewrite !app_nil_r.
    rewrite !outputValue_app, !created_app, HB, Hbefore.
    split; reflexivity.
  - cbn [bind ret request events app].
    destruct (createRef _ _ _ _ _); cbn [events];
      rewrite !outputValue_app, !created_app, HB, Hbefore; split; reflexivity.
Qed.

(** *** Conflicts *)

Lemma custom_tag_conflict :
  CustomTagExists context inputs octokit ->
  failed (main regExp context inputs octokit)
  /\ created (events (main regExp context inputs octokit)) = [].
Proof.
  intros (Hcustom & owner' & repo' & tags & t & Hrepo & Htags & Hin & Hname).
  unfold main, failed. rewrite Hrepo. cbn [owner_login repository_name].
  unfold action.
  destruct (github_token inputs) as [|c token]; [cbn; eauto|].
  pose proof (resolveBranch_reads inputs octokit owner' repo' (context_ref context)) as HB.
  destruct (resolveBranch _ _ _ _ _) as [[info|message] evB]; cbn [snd] in HB;
    cbn [bind ret app]; [|cbn [exit events]; eauto].
  destruct (tag inputs) as [|c' customTag] eqn:Etag; [now destruct Hcustom|].
  rewrite <- Hname, (checkTag_finds octokit owner' repo' tags t Htags Hin).
  cbn [bind ret throw app exit events].
  rewrite created_app, HB. split; [eauto|reflexivity].
Qed.

Lemma latest_tag_conflict :
  tag inputs = "" ->
  LatestTagOnHead context inputs octokit ->
  failed (main regExp context inputs octokit)
  /\ created (events (main regExp context inputs octokit)) = [].
Proof.
  intros Hcustom
    (owner' & repo' & info & tags & t & Hrepo & Hbranch & Htags & Hlatest & Hsha).
  unfold main, failed. rewrite Hrepo. cbn [owner_login repository_name].
  unfold action.
  destruct (github_token inputs) as [|c token]; [cbn; eauto|].
  pose proof (resolveBranch_reads inputs octokit owner' repo' (context_ref context)) as HB.
  destruct (resolveBranch _ _ _ _ _) as [r evB]; cbn [fst snd] in HB, Hbranch. subst r.
  cbn [bind ret app]. rewrite Hcustom. unfold computeVersion.
  rewrite (getLatestTag_fulfilled octokit owner' repo' tags true (Some t) Htags Hlatest).
  cbn [bind app]. unfold getLatestTag, request, lift. rewrite Htags. cbn [bind app].
  destruct (pickLatest tags false) as [latestMainTag|message].
  - cbn [bind setOutput app]. rewrite Hsha, String.eqb_refl.
    cbn [bind throw app exit events]. rewrite created_app, HB. split; [eauto|reflexivity].
  - cbn [bind app exit events]. rewrite created_app, HB. split; [eauto|reflexivity].
Qed.

(** *** The exit of the process *)

Lemma uncaught_iff :
  (exists message, exit (main regExp context inputs octokit) = Uncaught message)
  <-> (forall owner' repo',
         payload_repository context <> Some (mkRepository (Some owner') (Some repo'))).
Proof.
  unfold main. split.
  - intros [message H] owner' repo' Hrepo. rewrite Hrepo in H.
    cbn [owner_login repository_name] in H.
    destruct (action _ _ _ _ _ _) as [[|] ?]; discriminate.
  - intros H. destruct (payload_repository context) as [[[owner'|] [repo'|]]|];
      cbn [owner_login repository_name exit]; eauto.
    now destruct (H owner' repo').
Qed.


End Run.

(* ================================================================= *)
(** ** The order of the versions *)

(** *** Comparing strings *)

Lemma ascii_compare_lt_trans (a b c : ascii) :
  Ascii.compare a b = Lt -> Ascii.compare b c = Lt -> Ascii.compare a c = Lt.
Proof.
  unfold Ascii.compare. rewrite !N.compare_lt_iff. lia.
Qed.

Lemma string_compare_lt_trans (s t u : string) :
  (s ?= t)%string = Lt -> (t ?= u)%string = Lt -> (s ?= u)%string = Lt.
Proof.
  revert t u. induction s as [|a s IH]; intros [|b t] [|c u]; simpl;
    try discriminate; auto.
  destruct (Ascii.compare a b) eqn:Eab; try discriminate;
    destruct (Ascii.compare b c) eqn:Ebc; try discriminate; intros H1 H2.
  - apply Ascii.compare_eq_iff in Eab, Ebc. subst.
    assert (E : Ascii.compare c c = Eq) by (unfold Ascii.compare; apply N.compare_refl).
    rewrite E. eauto.
  - apply Ascii.compare_eq_iff in Eab. subst. now rewrite Ebc.
  - apply Ascii.compare_eq_iff in Ebc. subst. now rewrite Eab.
  - now rewrite (ascii_compare_lt_trans a b c Eab Ebc).
Qed.

Lemma string_compare_refl (s : string) : (s ?= s)%string = Eq.
Proof.
  induction s as [|a s IH]; simpl; auto.
  assert (E : Ascii.compare a a = Eq) by (unfold Ascii.compare; apply N.compare_refl).
  now rewrite E.
Qed.

(** *** Identifiers *)

Lemma identical_eq (a b : Semver.Identifier) :
  Semver.identical a b = true <-> a = b.
Proof.
  destruct a as [x|s], b as [y|t]; simpl; split; try discriminate.
  - intros H. apply N.eqb_eq in H. now subst.
  - intros [= ->]. apply N.eqb_refl.
  - intros H. apply String.eqb_eq in H. now subst.
  - intros [= ->]. apply String.eqb_refl.
Qed.

Lemma compareIdentifiers_antisym (a b : Semver.Identifier) :
  Semver.compareIdentifiers b a = CompOpp (Semver.compareIdentifiers a b).
Proof.
  unfold Semver.compareIdentifiers.
  destruct (Semver.numeric a), (Semver.numeric b); simpl; auto.
  - apply N.compare_antisym.
  - apply String.compare_antisym.
Qed.

Lemma compareIdentifiers_lt_trans (a b c : Semver.Identifier) :
  Semver.compareIdentifiers a b = Lt -> Semver.compareIdentifiers b c = Lt ->
  Semver.compareIdentifiers a c = Lt.
Proof.
  unfold Semver.compareIdentifiers.
  destruct (Semver.numeric a), (Semver.numeric b), (Semver.numeric c); simpl;
    try discriminate; auto.
  - rewrite !N.compare_lt_iff. lia.
  - apply string_compare_lt_trans.
Qed.

Lemma compareIdentifiers_eq (a b : Semver.Identifier) :
  exactIdentifier a -> exactIdentifier b ->
  Semver.compareIdentifiers a b = Eq -> a = b.
Proof.
  unfold Semver.compareIdentifiers, exactIdentifier.
  destruct a as [x|s], b as [y|t]; cbn [isExactIdentifier Semver.numeric andb].
  - intros _ _ H. apply N.compare_eq_iff in H. cbn [Semver.toNumber] in H. now subst.
  - intros _ Ht. apply negb_true_iff in Ht. rewrite Ht. discriminate.
  - intros Hs _. apply negb_true_iff in Hs. rewrite Hs. discriminate.
  - intros Hs Ht. apply negb_true_iff in Hs, Ht. rewrite Hs, Ht. cbn [andb].
    intros H. f_equal. now apply String.compare_eq_iff.
Qed.

Lemma compareIdentifiers_refl (a : Semver.Identifier) :
  Semver.compareIdentifiers a a = Eq.
Proof.
  unfold Semver.compareIdentifiers.
  destruct (Semver.numeric a); simpl.
  - apply N.compare_refl.
  - apply string_compare_refl.
Qed.

(** *** The prerelease loop: the lexicographic order of the identifiers *)

Lemma comparePreLoop_eq (xs : list Semver.Identifier) :
  forall ys,
    Forall exactIdentifier xs -> Forall exactIdentifier ys ->
    Semver.comparePreLoop xs ys = Eq -> xs = ys.
Proof.
  induction xs as [|a xs IH]; intros [|b ys] Hxs Hys; simpl; try discriminate; auto.
  inversion Hxs; inversion Hys; subst.
  destruct (Semver.identical a b) eqn:E.
  - apply identical_eq in E. subst. intros H. f_equal. auto.
  - intros H. apply compareIdentifiers_eq in H; auto. subst.
    rewrite (proj2 (identical_eq b b) eq_refl) in E. discriminate.
Qed.

Lemma comparePreLoop_refl (xs : list Semver.Identifier) :
  Semver.comparePreLoop xs xs = Eq.
Proof.
  induction xs as [|a xs IH]; simpl; auto.
  now rewrite (proj2 (identical_eq a a) eq_refl).
Qed.

Lemma comparePreLoop_antisym (xs : list Semver.Identifier) :
  forall ys, Semver.comparePreLoop ys xs = CompOpp (Semver.comparePreLoop xs ys).
Proof.
  induction xs as [|a xs IH]; intros [|b ys]; simpl; auto.
  destruct (Semver.identical a b) eqn:E.
  - apply identical_eq in E. subst. rewrite (proj2 (identical_eq b b) eq_refl). apply IH.
  - destruct (Semver.identical b a) eqn:E'.
    + apply identical_eq in E'. subst.
      rewrite (proj2 (identical_eq a a) eq_refl) in E. discriminate.
    + apply compareIdentifiers_antisym.
Qed.

Lemma comparePreLoop_lt_trans (xs : list Semver.Identifier) :
  forall ys zs,
    Forall exactIdentifier xs -> Forall exactIdentifier ys ->
    Forall exactIdentifier zs ->
    Semver.comparePreLoop xs ys = Lt -> Semver.comparePreLoop ys zs = Lt ->
    Semver.comparePreLoop xs zs = Lt.
Proof.
  induction xs as [|a xs IH]; intros [|b ys] [|c zs] Hxs Hys Hzs; simpl;
    try discriminate; auto.
  inversion Hxs; inversion Hys; inversion Hzs; subst.
  destruct (Semver.identical a b) eqn:Eab.
  - apply identical_eq in Eab. subst b.
    destruct (Semver.identical a c) eqn:Eac; eauto.
  - destruct (Semver.identical b c) eqn:Ebc.
    + apply identical_eq in Ebc. subst c. rewrite Eab. auto.
    + intros Hab Hbc.
      pose proof (compareIdentifiers_lt_trans a b c Hab Hbc) as Hac.
      destruct (Semver.identical a c) eqn:Eac; auto.
      apply identical_eq in Eac. subst c.
      rewrite compareIdentifiers_refl in Hac. discriminate.
Qed.

(** *** Versions *)

Lemma comparePre_loop (xs ys : list Semver.Identifier) (b1 b2 : list string)
    (x y z x' y' z' : N) :
  Semver.comparePre (Semver.mkSemVer x y z xs b1) (Semver.mkSemVer x' y' z' ys b2)
  = match xs, ys with
    | _ :: _, [] => Lt
    | [], _ :: _ => Gt
    | _, _ => Semver.comparePreLoop xs ys
    end.
Proof. destruct xs, ys; reflexivity. Qed.

Ltac by_component x y z :=
  destruct (N.compare_spec x y); destruct (N.compare_spec y z);
  destruct (N.compare_spec x z); try lia;
  try (intros; discriminate); try (intros; reflexivity); subst.

Lemma compare_lt_trans (a b c : Semver.SemVer) :
  exactVersion a -> exactVersion b -> exactVersion c ->
  Semver.compare a b = Lt -> Semver.compare b c = Lt -> Semver.compare a c = Lt.
Proof.
  destruct a as [a1 a2 a3 ap ab], b as [b1 b2 b3 bp bb], c as [c1 c2 c3 cp cb].
  intros [Ha _] [Hb _] [Hc _]. cbn [Semver.prerelease] in *.
  unfold Semver.compare, Semver.compareMain. rewrite !comparePre_loop.
  cbn [Semver.major Semver.minor Semver.patch].
  by_component a1 b1 c1. by_component a2 b2 c2. by_component a3 b3 c3.
  destruct ap, bp, cp; try discriminate; auto.
  apply comparePreLoop_lt_trans; auto.
Qed.

Lemma compare_antisym (a b : Semver.SemVer) :
  Semver.compare b a = CompOpp (Semver.compare a b).
Proof.
  destruct a as [a1 a2 a3 ap ab], b as [b1 b2 b3 bp bb].
  unfold Semver.compare, Semver.compareMain. rewrite !comparePre_loop.
  cbn [Semver.major Semver.minor Semver.patch].
  rewrite (N.compare_antisym a1 b1), (N.compare_antisym a2 b2), (N.compare_antisym a3 b3).
  destruct (a1 ?= b1)%N; simpl; auto.
  destruct (a2 ?= b2)%N; simpl; auto.
  destruct (a3 ?= b3)%N; simpl; auto.
  destruct ap, bp; auto. apply comparePreLoop_antisym.
Qed.

Lemma compare_eq (a b : Semver.SemVer) :
  exactVersion a -> exactVersion b -> Semver.compare a b = Eq -> a = b.
Proof.
  destruct a as [a1 a2 a3 ap ab], b as [b1 b2 b3 bp bb].
  intros [Ha Hab] [Hb Hbb]. cbn [Semver.prerelease Semver.build] in *. subst.
  unfold Semver.compare, Semver.compareMain. rewrite !comparePre_loop.
  cbn [Semver.major Semver.minor Semver.patch].
  destruct (N.compare_spec a1 b1); try discriminate.
  destruct (N.compare_spec a2 b2); try discriminate.
  destruct (N.compare_spec a3 b3); try discriminate. subst.
  intros H. f_equal.
  destruct ap, bp; try discriminate; auto.
  apply comparePreLoop_eq; auto.
Qed.

Lemma compare_refl (a : Semver.SemVer) : Semver.compare a a = Eq.
Proof.
  destruct a as [a1 a2 a3 ap ab].
  unfold Semver.compare, Semver.compareMain. rewrite !comparePre_loop.
  cbn [Semver.major Semver.minor Semver.patch]. rewrite !N.compare_refl.
  destruct ap; auto. apply comparePreLoop_refl.
Qed.

(** [compare] orders the cleaned versions: what is not above is below or
    equal, transitively. *)
Lemma compare_le_trans (a b c : Semver.SemVer) :
  exactVersion a -> exactVersion b -> exactVersion c ->
  Semver.compare a b <> Gt -> Semver.compare b c <> Gt -> Semver.compare a c <> Gt.
Proof.
  intros Ha Hb Hc Hab Hbc.
  destruct (Semver.compare a b) eqn:Eab; [| |now destruct Hab].
  - apply compare_eq in Eab; auto. now subst.
  - destruct (Semver.compare b c) eqn:Ebc; [| |now destruct Hbc].
    + apply compare_eq in Ebc; auto. subst. rewrite Eab. discriminate.
    + rewrite (compare_lt_trans a b c Ha Hb Hc Eab Ebc). discriminate.
Qed.

(** *** The doubles of the numerals *)

(** Rounding keeps the numbers below [2 ^ 53] and leaves the others at or
    above it: the tests against [MAX_SAFE_INTEGER] answer the same on a
    number and on its double. *)
Lemma roundToDouble_small (n : N) :
  (n < 9007199254740992)%N -> roundToDouble n = n.
Proof. intros H. unfold roundToDouble. apply N.ltb_lt in H. now rewrite H. Qed.

Lemma roundToDouble_large (n : N) :
  (9007199254740992 <= n)%N -> (9007199254740992 <= roundToDouble n)%N.
Proof.
  intros H. unfold roundToDouble.
  destruct (N.ltb_spec n 9007199254740992) as [Hlt|_]; [lia|].
  cbv zeta.
  match goal with
  | |- context [N.leb 1024 ?x] => destruct (N.leb 1024 x)
  end.
  { vm_compute. discriminate. }
  assert (Hpos : (0 < n)%N) by lia.
  destruct (N.log2_spec n Hpos) as [Hlo _].
  assert (He : (53 <= N.log2 n)%N).
  { change 53%N with (N.log2 9007199254740992). now apply N.log2_le_mono. }
  set (e := N.log2 n) in *. set (shift := (e - 52)%N).
  assert (Es : e = (52 + shift)%N) by (unfold shift; lia).
  assert (Hsig : (2 ^ 52 <= N.shiftr n shift)%N).
  { rewrite N.shiftr_div_pow2.
    apply N.div_le_lower_bound; [apply N.pow_nonzero; lia|].
    rewrite <- N.pow_add_r, N.add_comm, <- Es. exact Hlo. }
  rewrite N.shiftl_mul_pow2.
  apply N.le_trans with (2 ^ 52 * 2 ^ shift)%N.
  - rewrite <- N.pow_add_r, <- Es.
    change 9007199254740992%N with (2 ^ 53)%N. apply N.pow_le_mono_r; lia.
  - apply N.mul_le_mono_r.
    destruct (_ || _); lia.
Qed.

Lemma safe_tests_on_doubles (s : string) :
  (Semver.MAX_SAFE_INTEGER <? numberOfDigits s)%N
  = (Semver.MAX_SAFE_INTEGER <? decimalValue s)%N
  /\ (numberOfDigits s <? Semver.MAX_SAFE_INTEGER)%N
     = (decimalValue s <? Semver.MAX_SAFE_INTEGER)%N
  /\ ((decimalValue s <= Semver.MAX_SAFE_INTEGER)%N ->
      numberOfDigits s = decimalValue s).
Proof.
  unfold numberOfDigits, Semver.MAX_SAFE_INTEGER.
  destruct (N.lt_ge_cases (decimalValue s) 9007199254740992) as [H|H].
  - rewrite (roundToDouble_small _ H). auto.
  - pose proof (roundToDouble_large _ H) as H'. split; [|split].
    + transitivity true; [|symmetry]; apply N.ltb_lt; lia.
    + transitivity false; [|symmetry]; apply N.ltb_ge; lia.
    + lia.
Qed.

(** *** Numerals that are not exact *)

(** From [2 ^ 53] on two numerals may read as the same double.
    [compareIdentifiers] answers 0 for them and the loop of [comparePre]
    returns it, whatever follows: the comparison is not transitive. *)
Lemma large_numerals_compare_as_doubles :
  match Semver.clean "1.0.0-9007199254740993.c",
        Semver.clean "1.0.0-9007199254740992.b",
        Semver.clean "1.0.0-9007199254740993.a" with
  | Some c, Some b, Some a =>
      Semver.compare c b = Eq /\ Semver.compare b a = Eq /\ Semver.compare c a = Gt
  | _, _, _ => False
  end.
Proof. vm_compute. repeat split. Qed.

(** *** What [clean] returns *)

Lemma clean_build (version : string) (v : Semver.SemVer) :
  Semver.clean version = Some v -> Semver.build v = [].
Proof.
  unfold Semver.clean. destruct (Semver.parse _); [|discriminate].
  intros [= <-]. reflexivity.
Qed.

Lemma bounded_exact (t : Tag) (v : Semver.SemVer) :
  bounded t = true -> Semver.clean (tag_name t) = Some v -> exactVersion v.
Proof.
  unfold bounded. intros H Hv. rewrite Hv in H. split.
  - apply Forall_forall. intros i Hi. exact (proj1 (forallb_forall _ _) H i Hi).
  - eapply clean_build; eauto.
Qed.

(** ** The latest tag *)

Lemma qualifies_clean (t : Tag) :
  qualifies t = true -> exists x, Semver.clean (tag_name t) = Some x.
Proof.
  unfold qualifies. destruct (Semver.clean (tag_name t)) as [x|]; [eauto|discriminate].
Qed.

Lemma lastOf_app {A : Type} (xs : list A) (x : A) : lastOf (xs ++ [x]) = Some x.
Proof.
  induction xs as [|y xs IH]; simpl; auto.
  rewrite IH. destruct (xs ++ [x]) eqn:E; auto.
  now destruct xs.
Qed.

Lemma lastOf_in {A : Type} (xs : list A) (x : A) : lastOf xs = Some x -> In x xs.
Proof.
  induction xs as [|y xs IH]; simpl; [discriminate|].
  destruct xs as [|z xs]; [intros [= ->]; auto|]. intros H. right. auto.
Qed.

Lemma lastOf_none {A : Type} (xs : list A) : lastOf xs = None <-> xs = [].
Proof.
  split; [|intros ->; reflexivity].
  induction xs as [|y xs IH]; simpl; auto.
  destruct xs as [|z xs]; [discriminate|]. intros H. apply IH in H. discriminate.
Qed.

(** In a list in ascending order the last element is at least every other. *)
Lemma lastOf_greatest (xs : list Tag) (t : Tag) :
  StronglySorted (fun a b => notBelow b a) xs ->
  Forall (fun a => qualifies a = true) xs ->
  lastOf xs = Some t -> forall u, In u xs -> notBelow t u.
Proof.
  induction xs as [|y xs IH]; [discriminate|].
  intros Hs Hq Hlast u Hu. apply StronglySorted_inv in Hs as [Hs Hy].
  inversion Hq as [|? ? Hqy Hqxs]; subst.
  destruct xs as [|z xs].
  - simpl in Hlast. injection Hlast as <-. destruct Hu as [<-|[]].
    destruct (qualifies_clean _ Hqy) as [x Hx].
    exists x, x. repeat split; auto. rewrite compare_refl. discriminate.
  - change (lastOf (y :: z :: xs)) with (lastOf (z :: xs)) in Hlast.
    destruct Hu as [<-|Hu].
    + rewrite Forall_forall in Hy. apply Hy. now apply lastOf_in.
    + now apply IH.
Qed.

Section Sorting.

Local Abbreviation ascending := (StronglySorted (fun a b => notBelow b a)).
Local Abbreviation allQualify := (Forall (fun a => qualifies a = true)).
Local Abbreviation allBounded := (Forall (fun a => bounded a = true)).

Lemma compareTags_qualifying (a b : Tag) :
  qualifies a = true -> qualifies b = true ->
  exists x y,
    Semver.clean (tag_name a) = Some x /\ Semver.clean (tag_name b) = Some y
    /\ compareTags a b = Fulfilled (Semver.compare x y).
Proof.
  intros Ha Hb. destruct (qualifies_clean a Ha) as [x Hx], (qualifies_clean b Hb) as [y Hy].
  exists x, y. unfold compareTags. rewrite Hx, Hy. auto.
Qed.

(** The comparator does not throw on qualifying tags: the sort settles,
    with the same tags. *)
Lemma insertSorted_settles (x : Tag) (sorted : list Tag) :
  qualifies x = true -> allQualify sorted ->
  exists sorted',
    insertSorted compareTags x sorted = Fulfilled sorted'
    /\ (forall t, In t sorted' <-> t = x \/ In t sorted).
Proof.
  intros Hx. induction sorted as [|y ys IH]; intros Hq.
  - exists [x]. split; [reflexivity|]. intros t. simpl. intuition congruence.
  - inversion Hq as [|? ? Hy Hys]; subst.
    destruct (compareTags_qualifying x y Hx Hy) as (vx & vy & _ & _ & Ecmp).
    cbn [insertSorted]. rewrite Ecmp. cbn [bindS].
    destruct (IH Hys) as (zs & Ezs & Hin).
    destruct (Semver.compare vx vy).
    + exists (x :: y :: ys). split; [reflexivity|]. intros t. simpl. intuition congruence.
    + exists (x :: y :: ys). split; [reflexivity|]. intros t. simpl. intuition congruence.
    + rewrite Ezs. cbn [bindS]. exists (y :: zs). split; [reflexivity|].
      intros t. simpl. rewrite Hin. intuition congruence.
Qed.

Lemma sort_settles (xs : list Tag) :
  allQualify xs ->
  exists sorted,
    sort compareTags xs = Fulfilled sorted /\ (forall t, In t sorted <-> In t xs).
Proof.
  induction xs as [|x xs IH]; intros Hq.
  - exists []. split; [reflexivity|tauto].
  - inversion Hq as [|? ? Hx Hxs]; subst.
    destruct (IH Hxs) as (s & Es & Hin).
    assert (Hqs : allQualify s).
    { rewrite Forall_forall in *. intros t Ht. apply Hxs. now apply Hin. }
    destruct (insertSorted_settles x s Hx Hqs) as (s' & Es' & Hin').
    exists s'. cbn [sort]. rewrite Es. cbn [bindS]. split; [assumption|].
    intros t. rewrite Hin'. simpl. rewrite Hin. intuition congruence.
Qed.

Lemma notBelow_trans (a b c : Tag) :
  bounded a = true -> bounded b = true -> bounded c = true ->
  notBelow a b -> notBelow b c -> notBelow a c.
Proof.
  intros Ba Bb Bc (x & y & Hx & Hy & Hxy) (y' & z & Hy' & Hz & Hyz).
  rewrite Hy in Hy'. injection Hy' as <-.
  exists x, z. repeat split; auto.
  pose proof (bounded_exact _ _ Ba Hx) as Wx.
  pose proof (bounded_exact _ _ Bb Hy) as Wy.
  pose proof (bounded_exact _ _ Bc Hz) as Wz.
  intros H.
  apply (compare_le_trans z y x Wz Wy Wx).
  - rewrite compare_antisym. destruct (Semver.compare y z); auto; discriminate.
  - rewrite compare_antisym. destruct (Semver.compare x y); auto; discriminate.
  - rewrite compare_antisym, H. reflexivity.
Qed.

(** On bounded tags the comparator is consistent, and the result is in
    ascending order. *)
Lemma insertSorted_sorted (x : Tag) (sorted : list Tag) :
  qualifies x = true -> bounded x = true ->
  allQualify sorted -> allBounded sorted -> ascending sorted ->
  exists sorted',
    insertSorted compareTags x sorted = Fulfilled sorted'
    /\ (forall t, In t sorted' <-> t = x \/ In t sorted)
    /\ ascending sorted'.
Proof.
  intros Hx Bx. induction sorted as [|y ys IH]; intros Hq Hb Hs.
  - exists [x]. split; [reflexivity|]. split.
    + intros t. simpl. intuition congruence.
    + constructor; constructor.
  - inversion Hq as [|? ? Hy Hys]; subst. inversion Hb as [|? ? By Bys]; subst.
    apply StronglySorted_inv in Hs as Hinv. destruct Hinv as [Hs' Hall].
    destruct (compareTags_qualifying x y Hx Hy) as (vx & vy & Evx & Evy & Ecmp).
    cbn [insertSorted]. rewrite Ecmp. cbn [bindS].
    assert (Hle : Semver.compare vx vy <> Gt ->
                  ascending (x :: y :: ys)).
    { intros E. constructor; auto.
      assert (Hyx : notBelow y x).
      { exists vy, vx. repeat split; auto. rewrite compare_antisym.
        destruct (Semver.compare vx vy); try discriminate. now destruct E. }
      constructor; auto.
      rewrite Forall_forall in *. intros z Hz.
      apply (notBelow_trans z y x); auto. }
    destruct (Semver.compare vx vy) eqn:E.
    + exists (x :: y :: ys). split; [reflexivity|]. split.
      * intros t. simpl. intuition congruence.
      * apply Hle. discriminate.
    + exists (x :: y :: ys). split; [reflexivity|]. split.
      * intros t. simpl. intuition congruence.
      * apply Hle. discriminate.
    + destruct (IH Hys Bys Hs') as (zs & Ezs & Hin & Hsz).
      rewrite Ezs. cbn [bindS]. exists (y :: zs). split; [reflexivity|]. split.
      * intros t. simpl. rewrite Hin. intuition congruence.
      * constructor; auto.
        rewrite Forall_forall in *. intros z Hz. apply Hin in Hz as [->|Hz]; auto.
        exists vx, vy. repeat split; auto. rewrite E. discriminate.
Qed.

Lemma sort_sorted (xs : list Tag) :
  allQualify xs -> allBounded xs ->
  exists sorted,
    sort compareTags xs = Fulfilled sorted
    /\ (forall t, In t sorted <-> In t xs)
    /\ allQualify sorted
    /\ ascending sorted.
Proof.
  induction xs as [|x xs IH]; intros Hq Hb.
  - exists []. split; [reflexivity|]. split; [tauto|]. split; constructor.
  - inversion Hq as [|? ? Hx Hxs]; subst. inversion Hb as [|? ? Bx Bxs]; subst.
    destruct (IH Hxs Bxs) as (s & Es & Hin & Hqs & Hss).
    assert (Hbs : allBounded s).
    { rewrite Forall_forall in *. intros t Ht. apply Bxs. now apply Hin. }
    destruct (insertSorted_sorted x s Hx Bx Hqs Hbs Hss) as (s' & Es' & Hin' & Hss').
    exists s'. cbn [sort]. rewrite Es. cbn [bindS].
    split; [assumption|]. split; [|split; [|assumption]].
    + intros t. rewrite Hin'. simpl. rewrite Hin. intuition congruence.
    + rewrite Forall_forall in *. intros t Ht. apply Hin' in Ht as [->|Ht]; auto.
Qed.

Lemma filter_ascending (f : Tag -> bool) (xs : list Tag) :
  ascending xs -> ascending (filter f xs).
Proof.
  induction xs as [|x xs IH]; intros Hs; simpl; auto.
  apply StronglySorted_inv in Hs as [Hs Hall].
  destruct (f x); auto. constructor; auto.
  rewrite Forall_forall in *. intros z Hz. apply filter_In in Hz as [Hz _]. auto.
Qed.

Lemma filter_qualify (f : Tag -> bool) (xs : list Tag) :
  allQualify xs -> allQualify (filter f xs).
Proof.
  rewrite !Forall_forall. intros H z Hz. apply filter_In in Hz as [Hz _]. auto.
Qed.

End Sorting.

Lemma qualifying_bounded (tags : list Tag) :
  forallb bounded tags = true ->
  Forall (fun a => qualifies a = true) (filter qualifies tags)
  /\ Forall (fun a => bounded a = true) (filter qualifies tags).
Proof.
  intros H. split; apply Forall_forall; intros t Ht; apply filter_In in Ht as [Ht Hq];
    [assumption|]. exact (proj1 (forallb_forall _ _) H t Ht).
Qed.

Lemma pickLatest_main (tags : list Tag) :
  forallb bounded tags = true ->
  exists latest,
    pickLatest tags false = Fulfilled latest
    /\ (latest = None <->
        forall t, In t tags -> qualifies t && notPrerelease t = false)
    /\ forall t, latest = Some t ->
         In t tags /\ qualifies t = true /\ notPrerelease t = true
         /\ forall u, In u tags -> qualifies u = true -> notPrerelease u = true ->
              notBelow t u.
Proof.
  intros Hbound. destruct (qualifying_bounded tags Hbound) as [Hq Hb].
  destruct (sort_sorted _ Hq Hb) as (s & Es & Hin & Hqs & Hss).
  exists (lastOf (filter notPrerelease s)). unfold pickLatest. rewrite Es. cbn [bindS].
  split; [reflexivity|split].
  - rewrite lastOf_none. split.
    + intros Hnil t Ht. destruct (qualifies t) eqn:E; auto. simpl.
      destruct (notPrerelease t) eqn:E'; auto.
      assert (H : In t (filter notPrerelease s)).
      { apply filter_In. split; auto. apply Hin. apply filter_In. auto. }
      rewrite Hnil in H. destruct H.
    + intros H. destruct (filter notPrerelease s) as [|t f] eqn:Ef; auto.
      assert (Ht : In t (filter notPrerelease s)) by (rewrite Ef; left; auto).
      apply filter_In in Ht as [Ht Hnp]. apply Hin in Ht.
      apply filter_In in Ht as [Ht Hqt]. specialize (H t Ht).
      rewrite Hqt, Hnp in H. discriminate.
  - intros t Hlast.
    assert (Ht : In t (filter notPrerelease s)) by now apply lastOf_in.
    apply filter_In in Ht as [Ht Hnp]. apply Hin in Ht.
    apply filter_In in Ht as [Ht Hqt]. repeat split; auto.
    intros u Hu Hqu Hnu.
    apply (lastOf_greatest (filter notPrerelease s) t); auto.
    + now apply filter_ascending.
    + now apply filter_qualify.
    + apply filter_In. split; auto. apply Hin. apply filter_In. auto.
Qed.

(** *** Names that parse as they are *)

Lemma allOf_identifier (s : string) :
  Semver.allIdentifierChars s = true -> Semver.allOf isVersionChar s = true.
Proof.
  induction s as [|c s IH]; simpl; auto.
  intros H. apply andb_true_iff in H as [Hc Hs].
  unfold isVersionChar at 1. rewrite Hc. simpl. auto.
Qed.

Lemma allDigits_identifier (s : string) :
  allDigits s = true -> Semver.allIdentifierChars s = true.
Proof.
  induction s as [|c s IH]; simpl; auto.
  intros H. apply andb_true_iff in H as [Hc Hs].
  unfold Semver.isIdentifierChar. rewrite Hc. simpl. auto.
Qed.

Lemma numericIdentifier_digits (s : string) :
  Semver.isNumericIdentifier s = true -> allDigits s = true.
Proof.
  destruct s as [|c s]; [discriminate|]. cbn [Semver.isNumericIdentifier allDigits].
  destruct (Ascii.eqb_spec c "0") as [->|_]; [destruct s; [reflexivity|discriminate]|].
  auto.
Qed.

Lemma split_pieces_allOf (p : ascii -> bool) (sep : ascii) (s : string) :
  p sep = true ->
  Semver.allOf p (fst (split_pieces sep s)) = true ->
  Forall (fun piece => Semver.allOf p piece = true) (snd (split_pieces sep s)) ->
  Semver.allOf p s = true.
Proof.
  intros Hsep. induction s as [|c s IH]; simpl; auto.
  destruct (split_pieces sep s) as [piece pieces].
  destruct (Ascii.eqb_spec c sep) as [->|Hc]; cbn [fst snd].
  - intros _ H. inversion H; subst. rewrite Hsep. simpl. auto.
  - simpl. intros H H'. apply andb_true_iff in H as [-> H]. simpl. auto.
Qed.

Lemma split_allOf (p : ascii -> bool) (sep : ascii) (s : string) :
  p sep = true ->
  forallb (Semver.allOf p) (split sep s) = true -> Semver.allOf p s = true.
Proof.
  intros Hsep. unfold split. intros H.
  apply (split_pieces_allOf p sep s Hsep);
    destruct (split_pieces sep s) as [piece pieces]; cbn [forallb fst snd] in *;
    apply andb_true_iff in H as [H1 H2]; auto.
  apply Forall_forall. rewrite forallb_forall in H2. auto.
Qed.

Lemma forallb_impl {A : Type} (f g : A -> bool) (xs : list A) :
  (forall x, f x = true -> g x = true) -> forallb f xs = true -> forallb g xs = true.
Proof.
  intros H. rewrite !forallb_forall. auto.
Qed.

Lemma cut_allOf (p : ascii -> bool) (sep : ascii) (s : string) :
  p sep = true ->
  Semver.allOf p (fst (Semver.cut sep s)) = true ->
  match snd (Semver.cut sep s) with
  | Some after => Semver.allOf p after = true
  | None => True
  end ->
  Semver.allOf p s = true.
Proof.
  intros Hsep. induction s as [|c s IH]; simpl; auto.
  destruct (Ascii.eqb_spec c sep) as [->|Hc]; cbn [fst snd].
  - intros _ H. rewrite Hsep. auto.
  - destruct (Semver.cut sep s) as [before after]. cbn [fst snd Semver.allOf] in *.
    intros H H'. apply andb_true_iff in H as [-> H]. simpl. auto.
Qed.

Lemma buildIdentifier_chars (s : string) :
  Semver.isBuildIdentifier s = true -> Semver.allOf isVersionChar s = true.
Proof.
  intros H. apply allOf_identifier. destruct s; [discriminate|exact H].
Qed.

Lemma mainVersion_chars (m : string) (v : N * N * N) :
  Semver.mainVersion m = Some v -> Semver.allOf isVersionChar m = true.
Proof.
  unfold Semver.mainVersion. intros H.
  apply (split_allOf isVersionChar "." m eq_refl).
  destruct (split "." m) as [|a [|b [|c [|d l]]]]; try discriminate.
  destruct (Semver.isNumericIdentifier a) eqn:Ea; [|discriminate].
  destruct (Semver.isNumericIdentifier b) eqn:Eb; [|discriminate].
  destruct (Semver.isNumericIdentifier c) eqn:Ec; [|discriminate].
  cbn [forallb].
  rewrite !(allOf_identifier _ (allDigits_identifier _ (numericIdentifier_digits _ Ea))).
  rewrite !(allOf_identifier _ (allDigits_identifier _ (numericIdentifier_digits _ Eb))).
  rewrite !(allOf_identifier _ (allDigits_identifier _ (numericIdentifier_digits _ Ec))).
  reflexivity.
Qed.

Lemma prereleasePart_chars (p : option string) (pre : list Semver.Identifier) :
  Semver.prereleasePart p = Some pre ->
  match p with Some ps => Semver.allOf isVersionChar ps = true | None => True end.
Proof.
  destruct p as [ps|]; simpl; auto.
  destruct (forallb _ _) eqn:E; [|discriminate]. intros _.
  apply (split_allOf isVersionChar "." ps eq_refl).
  eapply forallb_impl; [|exact E].
  intros x Hx. apply buildIdentifier_chars.
  unfold Semver.isPrereleaseIdentifier in Hx. now apply andb_true_iff in Hx as [Hx _].
Qed.

Lemma buildPart_chars (b : option string) (bld : list string) :
  Semver.buildPart b = Some bld ->
  match b with Some bs => Semver.allOf isVersionChar bs = true | None => True end.
Proof.
  destruct b as [bs|]; simpl; auto.
  destruct (forallb _ _) eqn:E; [|discriminate]. intros _.
  apply (split_allOf isVersionChar "." bs eq_refl).
  eapply forallb_impl; [|exact E]. apply buildIdentifier_chars.
Qed.

Lemma fullPlain_chars (s : string) (v : Semver.SemVer) :
  Semver.fullPlain s = Some v -> Semver.allOf isVersionChar s = true.
Proof.
  unfold Semver.fullPlain.
  destruct (Semver.cut "+" s) as [front b] eqn:Ecut.
  destruct (Semver.cut "-" front) as [m p] eqn:Ecut'.
  destruct (Semver.mainVersion m) as [[[x y] z]|] eqn:Em; [|discriminate].
  destruct (Semver.prereleasePart p) as [pre|] eqn:Ep; [|discriminate].
  destruct (Semver.buildPart b) as [bld|] eqn:Eb; [|discriminate].
  intros _.
  apply (cut_allOf isVersionChar "+" s eq_refl); rewrite Ecut; cbn [fst snd].
  - apply (cut_allOf isVersionChar "-" front eq_refl); rewrite Ecut'; cbn [fst snd].
    + eapply mainVersion_chars; eauto.
    + eapply prereleasePart_chars; eauto.
  - eapply buildPart_chars; eauto.
Qed.

Lemma fullPlain_head (s : string) (v : Semver.SemVer) :
  Semver.fullPlain s = Some v -> exists d r, s = String d r /\ isDigit d = true.
Proof.
  unfold Semver.fullPlain.
  destruct (Semver.cut "+" s) as [front b] eqn:Ecut.
  destruct (Semver.cut "-" front) as [m p] eqn:Ecut'.
  destruct (Semver.mainVersion m) as [[[x y] z]|] eqn:Em; [|discriminate].
  intros _.
  assert (Hm : exists d r, m = String d r /\ isDigit d = true).
  { unfold Semver.mainVersion, split in Em.
    destruct m as [|d r]; [discriminate|]. exists d, r. split; auto.
    cbn [split_pieces] in Em. destruct (split_pieces "." r) as [piece pieces].
    destruct (Ascii.eqb_spec d ".") as [->|Hd].
    - destruct pieces as [|? [|? ?]]; discriminate.
    - destruct pieces as [|b' [|c' [|? ?]]]; try discriminate.
      destruct (Semver.isNumericIdentifier (String d piece)) eqn:E; [|discriminate].
      cbn [Semver.isNumericIdentifier] in E.
      destruct (Ascii.eqb_spec d "0") as [->|_]; [reflexivity|].
      now apply andb_true_iff in E as [E _]. }
  destruct Hm as (d & r & -> & Hd).
  assert (Hf : exists r', front = String d r').
  { destruct front as [|c f]; [discriminate|]. cbn [Semver.cut] in Ecut'.
    destruct (c =? "-")%char; [discriminate|].
    destruct (Semver.cut "-" f). injection Ecut' as -> _ _. eauto. }
  destruct Hf as (r' & ->).
  destruct s as [|c t]; [discriminate|]. cbn [Semver.cut] in Ecut.
  destruct (c =? "+")%char; [discriminate|].
  destruct (Semver.cut "+" t). injection Ecut as -> _ _. eauto.
Qed.

Lemma isDigit_versionChar_not_space (c : ascii) :
  isVersionChar c = true -> isWhiteSpace c = false.
Proof.
  destruct c as [[|] [|] [|] [|] [|] [|] [|] [|]]; try reflexivity; discriminate.
Qed.

Lemma trimEnd_id (s : string) :
  Semver.allOf isVersionChar s = true -> trimEnd s = s.
Proof.
  induction s as [|c s IH]; simpl; auto.
  intros H. apply andb_true_iff in H as [Hc Hs]. rewrite (IH Hs).
  destruct s; [|reflexivity]. now rewrite (isDigit_versionChar_not_space c Hc).
Qed.

Lemma trim_id (s : string) :
  Semver.allOf isVersionChar s = true -> trim s = s.
Proof.
  intros H. unfold trim.
  assert (E : trimStart s = s).
  { destruct s as [|c s]; [reflexivity|]. simpl in *.
    apply andb_true_iff in H as [Hc _].
    now rewrite (isDigit_versionChar_not_space c Hc). }
  rewrite E. now apply trimEnd_id.
Qed.

Lemma digit_not_v (d : ascii) : isDigit d = true ->
  (d =? "v")%char = false /\ (d =? "=")%char = false.
Proof.
  destruct d as [[|] [|] [|] [|] [|] [|] [|] [|]]; try discriminate; split; reflexivity.
Qed.

(** A name that parses as it is cleans to the same version. *)
Lemma parse_clean (s : string) (v : Semver.SemVer) :
  Semver.parse s = Some v ->
  Semver.clean s
  = Some (Semver.mkSemVer (Semver.major v) (Semver.minor v) (Semver.patch v)
            (Semver.prerelease v) []).
Proof.
  unfold Semver.parse at 1.
  destruct (Nat.ltb Semver.MAX_LENGTH (String.length s)) eqn:El; [discriminate|].
  intros Hbody.
  assert (Hchars : Semver.allOf isVersionChar s = true).
  { destruct s as [|c r]; [reflexivity|]. cbn [stripPrefix] in Hbody.
    destruct (Ascii.eqb_spec "v" c) as [<-|_].
    - cbn [stripPrefix] in Hbody. simpl. eapply fullPlain_chars; eauto.
    - eapply fullPlain_chars; eauto. }
  unfold Semver.clean. rewrite (trim_id s Hchars).
  assert (E : Semver.parse (Semver.stripEqualsAndV s) = Some v).
  { destruct s as [|c r]; [discriminate|]. cbn [stripPrefix] in Hbody.
    destruct (Ascii.eqb_spec "v" c) as [<-|Hc].
    - cbn [stripPrefix] in Hbody.
      destruct (fullPlain_head r v Hbody) as (d & r' & -> & Hd).
      destruct (digit_not_v d Hd) as [Hv He].
      cbn [Semver.stripEqualsAndV Ascii.eqb Bool.eqb orb].
      change (("v" =? "=")%char || ("v" =? "v")%char) with true. cbn iota.
      rewrite He, Hv. cbn [orb].
      unfold Semver.parse.
      assert (El' : Nat.ltb Semver.MAX_LENGTH (String.length (String d r')) = false).
      { apply Nat.ltb_ge. apply Nat.ltb_ge in El. simpl in *. lia. }
      rewrite El'. cbn [stripPrefix]. rewrite Ascii.eqb_sym, Hv. exact Hbody.
    - destruct (fullPlain_head _ v Hbody) as (d & r' & [= -> ->] & Hd).
      destruct (digit_not_v d Hd) as [Hv He].
      cbn [Semver.stripEqualsAndV]. rewrite He, Hv. cbn [orb].
      unfold Semver.parse. rewrite El. cbn [stripPrefix]. rewrite Ascii.eqb_sym, Hv. exact Hbody. }
  rewrite E. reflexivity.
Qed.

Lemma plain_mainRelease (t : Tag) :
  Semver.parse (tag_name t) <> None ->
  (qualifies t = true /\ notPrerelease t = true) <-> mainRelease t.
Proof.
  intros Hparse. destruct (Semver.parse (tag_name t)) as [p|] eqn:Ep; [|now destruct Hparse].
  pose proof (parse_clean _ _ Ep) as Hclean.
  unfold qualifies, notPrerelease, mainRelease, Semver.prereleaseOf.
  rewrite Hclean, Ep. split.
  - intros [_ H]. eexists. split; [reflexivity|]. cbn [Semver.prerelease].
    destruct (Semver.prerelease p); [reflexivity|discriminate].
  - intros (v & [= <-] & Hv). cbn [Semver.prerelease] in Hv. rewrite Hv. auto.
Qed.

(* ================================================================= *)
(** ** More about the steps *)

(** *** The scan of the commits *)

Section Scan.

Variable octokit : Octokit.
Variables owner repo : string.
Variable tagSha : option string.
Variable issueTags : list string.

Local Abbreviation scan := (scanCommits octokit owner repo tagSha issueTags).

Local Ltac scan_steps :=
  repeat match goal with
  | |- context [if ?c then _ else _] => destruct c eqn:?
  | |- context [match execMatcher ?m with _ => _ end] =>
      destruct (execMatcher m) eqn:?
  | |- context [match issuesGet ?o ?a ?b ?n with _ => _ end] =>
      destruct (issuesGet o a b n) eqn:?
  end.

Lemma scan_stops (c : Commit) (rest : list Commit) :
  isTagSha (commit_sha c) tagSha = true ->
  forall (pre : list Commit) (b : ReleaseBump),
    scan b (pre ++ c :: rest) = scan b pre.
Proof.
  intros Hstop pre. induction pre as [|p pre IH]; intros b.
  - simpl. now rewrite Hstop.
  - simpl. scan_steps; rewrite ?IH; auto.
Qed.

Lemma scan_unmarked (commits : list Commit) :
  forallb unmarked commits = true ->
  forall b, scan b commits = (Fulfilled b, []).
Proof.
  induction commits as [|c commits IH]; intros H b; simpl; auto.
  simpl in H. apply andb_true_iff in H as [Hc H]. unfold unmarked in Hc.
  apply andb_true_iff in Hc as [Hc Hfix]. apply andb_true_iff in Hc as [Hc Hpatch].
  apply andb_true_iff in Hc as [Hmajor Hminor].
  apply negb_true_iff in Hmajor, Hminor, Hpatch, Hfix.
  rewrite Hmajor, Hminor, Hpatch, Hfix, !andb_false_r.
  destruct (isTagSha _ _); auto. destruct (testMarker "#wip" _); auto.
Qed.

Lemma scan_issue_requests (commits : list Commit) :
  forall b, forallb isIssueRequest (snd (scan b commits)) = true.
Proof.
  induction commits as [|c commits IH]; intros b; simpl; auto.
  scan_steps; auto.
  - specialize (IH (labelsBump issueTags (issue_labels value))).
    destruct (scanCommits _ _ _ _ _ _ commits). simpl in *.
    now rewrite IH, andb_true_r.
  - simpl. now rewrite andb_true_r.
Qed.

End Scan.

(** *** The regular expressions *)

Lemma stripPrefix_append (p s rest : string) :
  stripPrefix p s = Some rest <-> s = (p ++ rest)%string.
Proof.
  revert s. induction p as [|a p IH]; intros s; simpl.
  - split; [intros [= ->]|intros ->]; reflexivity.
  - destruct s as [|b s]; [split; discriminate|].
    destruct (Ascii.eqb_spec a b) as [->|Hab].
    + rewrite IH. split; [intros ->; reflexivity|intros [= ->]; reflexivity].
    + split; [discriminate|]. intros [= E _]. now destruct Hab.
Qed.

Lemma firstMatch_some {A : Type} (at_ : string -> option A) (s : string) (r : A) :
  firstMatch at_ s = Some r ->
  exists pre t, s = (pre ++ t)%string /\ at_ t = Some r.
Proof.
  induction s as [|c s IH]; simpl.
  - destruct (at_ "") eqn:E; [|discriminate]. intros [= ->]. exists "", "". auto.
  - destruct (at_ (String c s)) eqn:E.
    + intros [= ->]. exists "", (String c s). auto.
    + intros H. destruct (IH H) as (pre & t & -> & Ht).
      exists (String c pre), t. auto.
Qed.

Lemma firstMatch_none {A : Type} (at_ : string -> option A) (s : string) :
  firstMatch at_ s = None -> forall pre t, s = (pre ++ t)%string -> at_ t = None.
Proof.
  induction s as [|c s IH]; simpl.
  - destruct (at_ "") eqn:E; [discriminate|]. intros _ pre t H.
    destruct pre; [|discriminate]. simpl in H. now subst.
  - destruct (at_ (String c s)) eqn:E; [discriminate|]. intros H pre t Hs.
    destruct pre as [|a pre]; simpl in Hs.
    + now subst.
    + injection Hs as -> ->. eapply IH; eauto.
Qed.

Lemma searches_iff (at_ : string -> bool) (s : string) :
  searches at_ s = true <-> exists pre t, s = (pre ++ t)%string /\ at_ t = true.
Proof.
  unfold searches.
  destruct (firstMatch _ s) as [[]|] eqn:E.
  - split; [|reflexivity]. intros _.
    destruct (firstMatch_some _ _ _ E) as (pre & t & -> & Ht).
    exists pre, t. split; auto. destruct (at_ t); [reflexivity|discriminate].
  - split; [discriminate|]. intros (pre & t & Hs & Ht).
    pose proof (firstMatch_none _ _ E pre t Hs) as H. cbn beta in H.
    rewrite Ht in H. discriminate.
Qed.

Lemma spanDigits_digits (s : string) :
  allDigits (fst (spanDigits s)) = true.
Proof.
  induction s as [|c s IH]; simpl; auto.
  destruct (isDigit c) eqn:E; [|reflexivity].
  destruct (spanDigits s). simpl in *. now rewrite E.
Qed.

Lemma matcherAt_fixAt (s id : string) :
  matcherAt s = Some id -> fixAt s = true /\ isNumeric id = true.
Proof.
  unfold matcherAt, fixAt. destruct (fixHead s) as [d|]; [|discriminate].
  pose proof (spanDigits_digits d) as Hd.
  destruct (spanDigits d) as [[|c ds] rest]; [discriminate|].
  destruct (boundaryAfterWord rest); [|discriminate]. intros [= <-]. auto.
Qed.

Lemma fixHead_forms (s d : string) :
  fixHead s = Some d <-> s = ("fix #" ++ d)%string \/ s = ("fixes #" ++ d)%string.
Proof.
  unfold fixHead. split.
  - destruct (stripPrefix "fix" s) as [r|] eqn:E; [|discriminate].
    apply stripPrefix_append in E. subst s.
    destruct (stripPrefix "es" r) as [r'|] eqn:E'.
    + apply stripPrefix_append in E'. subst r.
      destruct (stripPrefix " #" r') as [d'|] eqn:E''.
      * intros [= ->]. apply stripPrefix_append in E''. subst. now right.
      * discriminate.
    + intros H. apply stripPrefix_append in H. subst. now left.
  - intros [->| ->]; reflexivity.
Qed.

Lemma fixAt_forms (s : string) :
  fixAt s = true <->
  exists c rest,
    isDigit c = true
    /\ (s = ("fix #" ++ String c rest)%string \/ s = ("fixes #" ++ String c rest)%string).
Proof.
  unfold fixAt. split.
  - destruct (fixHead s) as [d|] eqn:E; [|discriminate].
    apply fixHead_forms in E.
    destruct d as [|c rest]; [discriminate|]. cbn [spanDigits].
    destruct (isDigit c) eqn:Ec; [|discriminate]. intros _. eauto.
  - intros (c & rest & Hc & H). apply fixHead_forms in H. rewrite H.
    cbn [spanDigits]. rewrite Hc. destruct (spanDigits rest). reflexivity.
Qed.

(** *** Splitting *)

Lemma split_pieces_without (sep : ascii) (s : string) :
  without sep s = true -> split_pieces sep s = (s, []).
Proof.
  unfold without. induction s as [|c s IH]; simpl; auto.
  intros H. apply andb_true_iff in H as [Hc Hs]. rewrite (IH Hs).
  apply negb_true_iff in Hc. now rewrite Hc.
Qed.

Lemma split_without (sep : ascii) (s : string) :
  without sep s = true -> split sep s = [s].
Proof. intros H. unfold split. now rewrite split_pieces_without. Qed.

Lemma split_append (sep : ascii) (s rest : string) :
  without sep s = true ->
  split sep (s ++ String sep rest)%string = s :: split sep rest.
Proof.
  unfold without, split. induction s as [|c s IH]; simpl.
  - intros _. rewrite Ascii.eqb_refl. destruct (split_pieces sep rest). reflexivity.
  - intros H. apply andb_true_iff in H as [Hc Hs]. specialize (IH Hs).
    apply negb_true_iff in Hc. rewrite Hc.
    destruct (split_pieces sep (s ++ String sep rest)) as [piece pieces].
    injection IH as -> ->. reflexivity.
Qed.

(** *** The release branches *)

Lemma testBranches_literal (regExp : string -> string -> Settled bool)
    (branchName : string) (branches : list string) :
  forallb isLiteralPattern branches = true ->
  testBranches regExp branchName branches
  = Fulfilled (existsb (fun p => occursIn p branchName) branches).
Proof.
  induction branches as [|p branches IH]; simpl; auto.
  intros H. apply andb_true_iff in H as [Hp H]. unfold regExpTest. rewrite Hp.
  cbn [bindS]. destruct (occursIn p branchName); simpl; auto.
Qed.

(** *** The steps of a run *)

Lemma outputValue_kept (name : string) (before after : list Event) :
  forallb (keeps name) after = true ->
  outputValue name (before ++ after) = outputValue name before.
Proof.
  intros H. rewrite outputValue_app.
  assert (E : outputValue name after = None); [|now rewrite E].
  induction after as [|e after IH]; simpl in *; auto.
  apply andb_true_iff in H as [He H]. rewrite (IH H).
  destruct e; try reflexivity. simpl in He. now destruct (_ =? _)%string.
Qed.

Lemma incVersion_defined (version : option Semver.SemVer) (release identifier : string) :
  incVersion version release identifier <> Undefined.
Proof.
  unfold incVersion. destruct version as [v|]; [|discriminate].
  destruct (Semver.inc v release identifier); discriminate.
Qed.

Section Steps.

Variable regExp : string -> string -> Settled bool.
Variable inputs : Inputs.
Variable octokit : Octokit.
Variables owner repo : string.

Lemma checkTag_exact (tagName : string) :
  checkTag octokit owner repo tagName
  = match listTags octokit owner repo with
    | Fulfilled tags =>
        (Fulfilled (existsb (fun t => (tag_name t =? tagName)%string) tags),
         [ListTags owner repo])
    | Rejected message => (Rejected message, [ListTags owner repo])
    end.
Proof.
  unfold checkTag, request. destruct (listTags octokit owner repo) as [tags|m];
    cbn [bind]; [|reflexivity].
  assert (E : existsb (fun t => (tag_name t =? tagName)%string) tags
              = match filter (fun t => (tag_name t =? tagName)%string) tags with
                | [] => false | _ => true end).
  { induction tags as [|t tags IH]; simpl; auto.
    destruct (tag_name t =? tagName)%string; simpl; auto. }
  rewrite E. destruct (filter _ tags); reflexivity.
Qed.

Lemma resolveBranch_keeps (name ref : string) :
  forallb (keeps name) (snd (resolveBranch inputs ref octokit owner repo)) = true.
Proof.
  unfold resolveBranch, loadBranch, bind, request, throw, ret.
  destruct (branch inputs);
    repeat (match goal with
            | |- context [match listMatchingRefs ?o ?a ?b ?r with _ => _ end] =>
                destruct (listMatchingRefs o a b r) as [[|? ?]|?]
            end; simpl); reflexivity.
Qed.

Lemma checkMessages_keeps (name sha : string) (tagSha : option string)
    (issueTags : list string) :
  forallb (keeps name) (snd (checkMessages octokit owner repo sha tagSha issueTags))
  = true.
Proof.
  unfold checkMessages, bind, request.
  destruct (listCommits octokit owner repo sha) as [commits|m]; [|reflexivity].
  pose proof (scan_issue_requests octokit owner repo tagSha issueTags commits none) as H.
  destruct (scanCommits _ _ _ _ _ _ commits) as [r more]. cbn [snd app forallb keeps] in *.
  eapply forallb_impl; [|exact H]. intros [] E; try discriminate; reflexivity.
Qed.

(** A version that is computed is the last thing [computeVersion] sets. *)
Lemma computeVersion_ends (sha branchName : string) (v : Value) (done : list Event) :
  computeVersion regExp inputs octokit owner repo sha branchName = (Fulfilled v, done) ->
  v <> Undefined
  /\ exists before, done = before ++ [SetOutput "new-tag" (commandValue v)].
Proof.
  unfold computeVersion.
  destruct (getLatestTag octokit owner repo true) as [[latestTag|m] e1];
    cbn [bind]; [|discriminate].
  destruct (getLatestTag octokit owner repo false) as [[latestMainTag|m] e2];
    cbn [bind]; [|discriminate].
  cbn [setOutput bind].
  destruct (match latestTag with
            | Some t => if (tag_commit_sha t =? sha)%string
                        then @throw unit "no new commits, avoid tagging" else ret tt
            | None => ret tt
            end) as [[[]|m] e3]; cbn [bind]; [|discriminate].
  destruct (checkMessages _ _ _ _ _ _) as [[msgLevel|m] evM]; cbn [bind]; [|discriminate].
  destruct (lift _) as [[isRelease|m] e4]; cbn [bind ret]; [|discriminate].
  intros [= <- <-]. split.
  - destruct isRelease; [destruct (isNone msgLevel)|]; apply incVersion_defined.
  - exists (e1 ++ e2 ++ SetOutput "tag" match latestTag with
                                        | Some t => tag_name t
                                        | None => "0.0.0"
                                        end :: e3 ++ evM ++ e4).
    rewrite <- ?List.app_assoc. cbn [app]. rewrite <- ?List.app_assoc, ?List.app_nil_r.
    reflexivity.
Qed.

End Steps.

Lemma incSemVer_none (release identifier : string) (v : Semver.SemVer) :
  Semver.incSemVer release identifier v = None <-> ~ In release releaseTypes.
Proof.
  unfold Semver.incSemVer, releaseTypes.
  repeat match goal with
  | |- context [(release =? ?s)%string] =>
      destruct (String.eqb_spec release s) as [->|?]
  end; try (split; [discriminate|]; intros H; exfalso; apply H; simpl; tauto).
  split; [|reflexivity]. intros _ H. simpl in H. intuition congruence.
Qed.

(** *** The latest tag, again *)

Lemma qualifying_all (tags : list Tag) :
  Forall (fun a => qualifies a = true) (filter qualifies tags).
Proof. apply Forall_forall. intros t Ht. now apply filter_In in Ht. Qed.

(** The sort settles for every list: [getLatestTag] does not throw. *)
Lemma pickLatest_settles (tags : list Tag) (boolAll : bool) :
  exists latest, pickLatest tags boolAll = Fulfilled latest.
Proof.
  destruct (sort_settles _ (qualifying_all tags)) as (s & Es & _).
  unfold pickLatest. rewrite Es. cbn [bindS]. destruct boolAll; eauto.
Qed.

(** What it returns is a qualifying tag of the list. *)
Lemma pickLatest_member (tags : list Tag) (boolAll : bool) (t : Tag) :
  pickLatest tags boolAll = Fulfilled (Some t) -> In t tags /\ qualifies t = true.
Proof.
  destruct (sort_settles _ (qualifying_all tags)) as (s & Es & Hin).
  unfold pickLatest. rewrite Es. cbn [bindS].
  assert (H : In t s -> In t tags /\ qualifies t = true).
  { intros Ht. apply Hin in Ht. now apply filter_In in Ht. }
  destruct boolAll; intros [= Hlast]; apply lastOf_in in Hlast; auto.
  apply filter_In in Hlast as [Hlast _]. auto.
Qed.

Lemma pickLatest_all (tags : list Tag) (latest : option Tag) :
  forallb bounded tags = true ->
  pickLatest tags true = Fulfilled latest ->
  (latest = None <-> forall t, In t tags -> qualifies t = false)
  /\ forall t, latest = Some t ->
       In t tags /\ qualifies t = true
       /\ forall u, In u tags -> qualifies u = true -> notBelow t u.
Proof.
  intros Hbound. destruct (qualifying_bounded tags Hbound) as [Hq Hb].
  destruct (sort_sorted _ Hq Hb) as (s & Es & Hin & Hqs & Hss).
  unfold pickLatest. rewrite Es. cbn [bindS]. intros [= <-]. split.
  - rewrite lastOf_none. split.
    + intros -> t Ht. destruct (qualifies t) eqn:E; auto.
      destruct (proj2 (Hin t)). apply filter_In. auto.
    + intros H. destruct s as [|t s]; auto.
      assert (Ht : In t (filter qualifies tags)) by (apply Hin; left; auto).
      apply filter_In in Ht as [Ht Hqt]. rewrite (H t Ht) in Hqt. discriminate.
  - intros t Hlast.
    assert (Ht : In t (filter qualifies tags)) by (apply Hin; now apply lastOf_in).
    apply filter_In in Ht as [Ht Hqt]. repeat split; auto.
    intros u Hu Hqu. apply (lastOf_greatest s t Hss Hqs Hlast).
    apply Hin. apply filter_In. auto.
Qed.

Lemma pickLatest_qualifying (tags tags' : list Tag) (boolAll : bool) :
  filter qualifies tags' = filter qualifies tags ->
  pickLatest tags' boolAll = pickLatest tags boolAll.
Proof. intros H. unfold pickLatest. now rewrite H. Qed.

Lemma filter_insert {A : Type} (f : A -> bool) (before after : list A) (x : A) :
  f x = false -> filter f (before ++ x :: after) = filter f (before ++ after).
Proof. intros H. rewrite !filter_app. cbn [filter]. now rewrite H. Qed.

Lemma currentVersion_some (tags : list Tag) (latestTag : option Tag) :
  pickLatest tags true = Fulfilled latestTag ->
  exists v, currentVersion latestTag = Some v.
Proof.
  intros H. destruct latestTag as [t|]; [|now eexists].
  destruct (pickLatest_member tags true t H) as [_ Hq].
  now apply qualifies_clean.
Qed.

Section Tags.

Variable regExp : string -> string -> Settled bool.
Variable inputs : Inputs.
Variable octokit : Octokit.
Variables owner repo : string.

(** Without a custom tag, the tags that do not qualify play no role. *)
Lemma action_withTags (ref : string) (tags tags' : list Tag) :
  tag inputs = "" ->
  listTags octokit owner repo = Fulfilled tags ->
  filter qualifies tags' = filter qualifies tags ->
  action regExp inputs ref (withTags octokit tags') owner repo
  = action regExp inputs ref octokit owner repo.
Proof.
  intros Hcustom Htags Hfilter.
  assert (E : forall boolAll,
             getLatestTag (withTags octokit tags') owner repo boolAll
             = getLatestTag octokit owner repo boolAll).
  { intros boolAll. unfold getLatestTag, request, lift. cbn [withTags listTags].
    rewrite Htags. cbn [bind].
    now rewrite (pickLatest_qualifying tags tags' boolAll Hfilter). }
  unfold action, computeVersion. rewrite Hcustom, !E. reflexivity.
Qed.

End Tags.

Section Conflict.

Variable regExp : string -> string -> Settled bool.
Variable context : Context.
Variable inputs : Inputs.
Variable octokit : Octokit.
Variables owner repo : string.

(** The run that finds the latest tag on the head of the branch. *)
Lemma head_conflict (info : GitRef) (tags : list Tag) (t : Tag) :
  Resolves context inputs octokit owner repo info ->
  tag inputs = "" ->
  listTags octokit owner repo = Fulfilled tags ->
  pickLatest tags true = Fulfilled (Some t) ->
  tag_commit_sha t = ref_object_sha info ->
  main regExp context inputs octokit
  = mkRun (Failed "no new commits, avoid tagging")
      (snd (resolveBranch inputs (context_ref context) octokit owner repo)
       ++ [ListTags owner repo; ListTags owner repo; SetOutput "tag" (tag_name t)]).
Proof.
  intros (Hrepo & Htoken & Hbranch) Hcustom Htags Hlatest Hsha.
  destruct (pickLatest_settles tags false) as [latestMainTag Hmain].
  rewrite (main_caught regExp context inputs octokit owner repo Hrepo). unfold action.
  destruct (github_token inputs) as [|c token]; [now destruct Htoken|].
  destruct (resolveBranch _ _ _ _ _) as [r evB]. cbn [fst snd] in *. subst r.
  cbn [bind ret app]. rewrite Hcustom. unfold computeVersion.
  rewrite (getLatestTag_fulfilled octokit owner repo tags true (Some t) Htags Hlatest).
  rewrite (getLatestTag_fulfilled octokit owner repo tags false latestMainTag Htags Hmain).
  cbn [bind setOutput app]. rewrite Hsha, String.eqb_refl.
  cbn [bind throw app]. reflexivity.
Qed.

End Conflict.

Section Rejection.

Variable regExp : string -> string -> Settled bool.
Variable context : Context.
Variable inputs : Inputs.
Variable octokit : Octokit.
Variables owner repo : string.

(** A run whose classification of the commits is rejected. *)
Lemma classification_rejected (info : GitRef) (tags : list Tag)
    (latestTag latestMainTag : option Tag) (message : string) :
  Resolves context inputs octokit owner repo info ->
  tag inputs = "" ->
  listTags octokit owner repo = Fulfilled tags ->
  pickLatest tags true = Fulfilled latestTag ->
  (forall t, latestTag = Some t -> tag_commit_sha t <> ref_object_sha info) ->
  pickLatest tags false = Fulfilled latestMainTag ->
  fst (checkMessages octokit owner repo (ref_object_sha info)
         (option_map tag_commit_sha latestMainTag) (issLabs (issue_labels_input inputs)))
  = Rejected message ->
  main regExp context inputs octokit
  = mkRun (Failed message)
      (snd (resolveBranch inputs (context_ref context) octokit owner repo)
       ++ [ListTags owner repo; ListTags owner repo;
           SetOutput "tag" match latestTag with Some t => tag_name t | None => "0.0.0" end]
       ++ snd (checkMessages octokit owner repo (ref_object_sha info)
                 (option_map tag_commit_sha latestMainTag)
                 (issLabs (issue_labels_input inputs)))).
Proof.
  intros (Hrepo & Htoken & Hbranch) Hcustom Htags Hlatest Hnew Hmain Hmsgs.
  assert (Hsha : match latestTag with
                 | Some t => if (tag_commit_sha t =? ref_object_sha info)%string
                             then @throw unit "no new commits, avoid tagging" else ret tt
                 | None => ret tt
                 end = ret tt).
  { destruct latestTag as [t|]; [|reflexivity].
    destruct (String.eqb_spec (tag_commit_sha t) (ref_object_sha info)) as [E|E];
      [|reflexivity].
    now destruct (Hnew t eq_refl). }
  rewrite (main_caught regExp context inputs octokit owner repo Hrepo). unfold action.
  destruct (github_token inputs) as [|c token]; [now destruct Htoken|].
  destruct (resolveBranch _ _ _ _ _) as [r evB]. cbn [fst snd] in *. subst r.
  cbn [bind ret app]. rewrite Hcustom. unfold computeVersion.
  rewrite (getLatestTag_fulfilled octokit owner repo tags true latestTag Htags Hlatest).
  rewrite (getLatestTag_fulfilled octokit owner repo tags false latestMainTag Htags Hmain).
  cbn [bind setOutput app]. rewrite Hsha.
  destruct (checkMessages _ _ _ _ _ _) as [r evM]. cbn [fst snd] in *. subst r.
  cbn [bind ret app]. reflexivity.
Qed.

End Rejection.

(** *** Numerals *)

Lemma of_lu_digit (m : N) (d : Decimal.uint) :
  (m < 10)%N -> DecimalPos.Unsigned.of_lu (digit m d)
                = (m + 10 * DecimalPos.Unsigned.of_lu d)%N.
Proof.
  intros H. destruct m as [|p]; [reflexivity|].
  do 4 (destruct p as [p|p|]; try reflexivity; try lia).
Qed.

Lemma of_lu_littleEndian (k : nat) :
  forall n, DecimalPos.Unsigned.of_lu (littleEndian k n) = (n mod 10 ^ N.of_nat k)%N.
Proof.
  induction k as [|k IH]; intros n.
  - simpl. now rewrite N.mod_1_r.
  - cbn [littleEndian]. rewrite of_lu_digit by (apply N.mod_lt; lia).
    rewrite IH, Nat2N.inj_succ, N.pow_succ_r'.
    rewrite (N.Div0.mod_mul_r n 10 (10 ^ N.of_nat k)). reflexivity.
Qed.

Lemma nb_digits_digit (m : N) (d : Decimal.uint) :
  Decimal.nb_digits (digit m d) = S (Decimal.nb_digits d).
Proof.
  destruct m as [|p]; [reflexivity|].
  do 4 (destruct p as [p|p|]; try reflexivity).
Qed.

Lemma nb_digits_littleEndian (k : nat) :
  forall n, Decimal.nb_digits (littleEndian k n) = k.
Proof.
  induction k as [|k IH]; intros n; [reflexivity|].
  cbn [littleEndian]. now rewrite nb_digits_digit, IH.
Qed.

(** A number below [10 ^ k] has at most [k] digits. *)
Lemma to_uint_digits (k : nat) (n : N) :
  (n < 10 ^ N.of_nat (S k))%N -> Decimal.nb_digits (N.to_uint n) <= S k.
Proof.
  intros H.
  assert (E : N.of_uint (Decimal.rev (littleEndian (S k) n)) = n).
  { unfold N.of_uint. rewrite DecimalPos.Unsigned.of_lu_rev, of_lu_littleEndian.
    now apply N.mod_small. }
  rewrite <- E at 1. rewrite DecimalN.Unsigned.to_of.
  etransitivity; [apply DecimalFacts.nb_digits_unorm|].
  - intros Hnil. apply DecimalFacts.rev_nil_inv in Hnil.
    apply (f_equal Decimal.nb_digits) in Hnil.
    rewrite nb_digits_littleEndian in Hnil. discriminate.
  - now rewrite DecimalFacts.nb_digits_rev, nb_digits_littleEndian.
Qed.

Lemma string_of_uint_length (d : Decimal.uint) :
  String.length (NilEmpty.string_of_uint d) = Decimal.nb_digits d.
Proof. induction d; simpl; auto. Qed.

Lemma string_of_uint_digits (d : Decimal.uint) :
  allDigits (NilEmpty.string_of_uint d) = true.
Proof. induction d; simpl; auto. Qed.

Lemma to_uint_canonical (n : N) : Decimal.unorm (N.to_uint n) = N.to_uint n.
Proof.
  rewrite <- (DecimalN.Unsigned.of_to n) at 2. now rewrite DecimalN.Unsigned.to_of.
Qed.

Lemma decimalString_plain (n : N) :
  decimalString n = NilEmpty.string_of_uint (N.to_uint n).
Proof.
  unfold decimalString, NilZero.string_of_uint.
  pose proof (DecimalFacts.unorm_nonnil (N.to_uint n)) as H.
  rewrite to_uint_canonical in H. destruct (N.to_uint n); auto. now destruct H.
Qed.

Lemma decimalString_digits (n : N) : allDigits (decimalString n) = true.
Proof. rewrite decimalString_plain. apply string_of_uint_digits. Qed.

Lemma decimalString_numeric (n : N) :
  Semver.isNumericIdentifier (decimalString n) = true.
Proof.
  rewrite decimalString_plain.
  pose proof (to_uint_canonical n) as H. unfold Decimal.unorm in H.
  destruct (N.to_uint n) as [|d|d|d|d|d|d|d|d|d|d] eqn:E;
    try (cbn [NilEmpty.string_of_uint Semver.isNumericIdentifier Ascii.eqb Bool.eqb
              isDigit]; simpl; apply string_of_uint_digits).
  - discriminate.
  - cbn [Decimal.nzhead] in H.
    destruct (Decimal.nzhead d) eqn:En;
      try (exfalso; apply (DecimalFacts.nzhead_nonzero d d); congruence).
    injection H as <-. reflexivity.
Qed.

Lemma decimalValue_decimalString (n : N) : decimalValue (decimalString n) = n.
Proof.
  rewrite decimalString_plain. unfold decimalValue.
  rewrite NilEmpty.usu. apply DecimalN.Unsigned.of_to.
Qed.

Lemma decimalString_length (n : N) :
  (n <= Semver.MAX_SAFE_INTEGER)%N -> String.length (decimalString n) <= 16.
Proof.
  intros H. rewrite decimalString_plain, string_of_uint_length.
  apply (to_uint_digits 15). unfold Semver.MAX_SAFE_INTEGER in H.
  change (10 ^ N.of_nat 16)%N with 10000000000000000%N. lia.
Qed.

(** *** Writing a version and reading it back *)

Lemma allOf_app (p : ascii -> bool) (s t : string) :
  Semver.allOf p (s ++ t)%string = Semver.allOf p s && Semver.allOf p t.
Proof. induction s as [|c s IH]; simpl; auto. now rewrite IH, andb_assoc. Qed.

Lemma allDigits_allOf (p : ascii -> bool) (s : string) :
  (forall c, isDigit c = true -> p c = true) ->
  allDigits s = true -> Semver.allOf p s = true.
Proof.
  intros Hp. induction s as [|c s IH]; simpl; auto.
  intros H. apply andb_true_iff in H as [Hc Hs]. now rewrite (Hp c Hc), IH.
Qed.

Lemma isDigit_not (sep : ascii) (c : ascii) :
  isDigit sep = false -> isDigit c = true -> negb (c =? sep)%char = true.
Proof.
  intros Hsep Hc. destruct (Ascii.eqb_spec c sep) as [->|_]; [congruence|reflexivity].
Qed.

Lemma cut_without (sep : ascii) (s : string) :
  without sep s = true -> Semver.cut sep s = (s, None).
Proof.
  unfold without. induction s as [|c s IH]; simpl; auto.
  intros H. apply andb_true_iff in H as [Hc Hs]. apply negb_true_iff in Hc.
  now rewrite Hc, (IH Hs).
Qed.

Lemma length_append (s t : string) :
  String.length (s ++ t)%string = String.length s + String.length t.
Proof. induction s as [|c s IH]; simpl; auto. Qed.

(** The three numbers of a version, as [format] writes them. *)
Lemma mainVersion_format (x y z : N) :
  (x <= Semver.MAX_SAFE_INTEGER)%N -> (y <= Semver.MAX_SAFE_INTEGER)%N ->
  (z <= Semver.MAX_SAFE_INTEGER)%N ->
  Semver.mainVersion
    (decimalString x ++ "." ++ decimalString y ++ "." ++ decimalString z)%string
  = Some (x, y, z).
Proof.
  intros Hx Hy Hz. unfold Semver.mainVersion.
  assert (Hw : forall n, without "." (decimalString n) = true).
  { intros n. apply allDigits_allOf; [|apply decimalString_digits].
    intros c Hc. now apply isDigit_not. }
  change ("." ++ decimalString y ++ "." ++ decimalString z)%string
    with (String "." (decimalString y ++ String "." (decimalString z)))%string.
  rewrite (split_append "." _ _ (Hw x)), (split_append "." _ _ (Hw y)),
    (split_without "." _ (Hw z)).
  rewrite !decimalString_numeric, !decimalValue_decimalString. cbn [andb].
  apply N.ltb_ge in Hx, Hy, Hz. now rewrite Hx, Hy, Hz.
Qed.

(** A version without prerelease identifiers, as [format] writes it, reads
    back as itself, with or without the prefix of a tag. *)
Lemma clean_format (prefix : string) (v : Semver.SemVer) :
  prefix = "" \/ prefix = "v" ->
  Semver.prerelease v = [] ->
  (Semver.major v <= Semver.MAX_SAFE_INTEGER)%N ->
  (Semver.minor v <= Semver.MAX_SAFE_INTEGER)%N ->
  (Semver.patch v <= Semver.MAX_SAFE_INTEGER)%N ->
  Semver.clean (prefix ++ Semver.format v)
  = Some (Semver.mkSemVer (Semver.major v) (Semver.minor v) (Semver.patch v) [] []).
Proof.
  destruct v as [x y z pre bld]. cbn [Semver.prerelease Semver.major Semver.minor
                                      Semver.patch].
  intros Hprefix -> Hx Hy Hz. unfold Semver.format.
  cbn [Semver.prerelease Semver.major Semver.minor Semver.patch].
  set (main := (decimalString x ++ "." ++ decimalString y ++ "." ++ decimalString z)%string).
  assert (Hd : forall p, (forall c, isDigit c = true -> p c = true) -> p "."%char = true ->
                         Semver.allOf p main = true).
  { intros p Hp Hdot. unfold main.
    change ("." ++ decimalString y ++ "." ++ decimalString z)%string
      with (String "." (decimalString y ++ String "." (decimalString z)))%string.
    rewrite allOf_app. cbn [Semver.allOf]. rewrite allOf_app. cbn [Semver.allOf].
    rewrite !(allDigits_allOf p _ Hp (decimalString_digits _)), Hdot. reflexivity. }
  assert (Hhead : exists d rest, main = String d rest /\ isDigit d = true).
  { unfold main. pose proof (decimalString_digits x) as Hdx.
    pose proof (decimalString_numeric x) as Hnx.
    destruct (decimalString x) as [|d r]; [discriminate|].
    simpl in Hdx. apply andb_true_iff in Hdx as [Hdx _]. simpl. eauto. }
  assert (Hlen : String.length main <= 50).
  { unfold main.
    change ("." ++ decimalString y ++ "." ++ decimalString z)%string
      with (String "." (decimalString y ++ String "." (decimalString z)))%string.
    rewrite length_append. cbn [String.length]. rewrite length_append.
    cbn [String.length].
    pose proof (decimalString_length x Hx). pose proof (decimalString_length y Hy).
    pose proof (decimalString_length z Hz). lia. }
  assert (Hchars : Semver.allOf isVersionChar (prefix ++ main)%string = true).
  { rewrite allOf_app, Hd.
    - destruct Hprefix as [->| ->]; reflexivity.
    - intros c Hc. unfold isVersionChar, Semver.isIdentifierChar. now rewrite Hc.
    - reflexivity. }
  unfold Semver.clean. rewrite (trim_id _ Hchars).
  destruct Hhead as (d & rest & Emain & Hdigit).
  destruct (digit_not_v d Hdigit) as [Hv He].
  assert (Estrip : Semver.stripEqualsAndV (prefix ++ main)%string = main).
  { rewrite Emain. destruct Hprefix as [->| ->]; cbn [append Semver.stripEqualsAndV];
      cbn [Ascii.eqb Bool.eqb orb]; now rewrite Hv, He. }
  rewrite Estrip. unfold Semver.parse.
  assert (El : Nat.ltb Semver.MAX_LENGTH (String.length main) = false).
  { apply Nat.ltb_ge. unfold Semver.MAX_LENGTH. lia. }
  rewrite El.
  assert (Ev : stripPrefix "v" main = None).
  { rewrite Emain. cbn [stripPrefix]. rewrite Ascii.eqb_sym, Hv. reflexivity. }
  rewrite Ev. unfold Semver.fullPlain.
  rewrite (cut_without "+" main), (cut_without "-" main).
  - unfold main. rewrite (mainVersion_format x y z Hx Hy Hz). reflexivity.
  - apply Hd; [|reflexivity]. intros c Hc. now apply isDigit_not.
  - apply Hd; [|reflexivity]. intros c Hc. now apply isDigit_not.
Qed.

Lemma trimStart_allOf (p : ascii -> bool) (s : string) :
  (forall c, isWhiteSpace c = true -> p c = true) ->
  Semver.allOf p (trimStart s) = true -> Semver.allOf p s = true.
Proof.
  intros Hp. induction s as [|c s IH]; simpl; auto.
  destruct (isWhiteSpace c) eqn:E; auto. intros H. now rewrite (Hp c E), IH.
Qed.

Lemma trimEnd_allOf (p : ascii -> bool) (s : string) :
  (forall c, isWhiteSpace c = true -> p c = true) ->
  Semver.allOf p (trimEnd s) = true -> Semver.allOf p s = true.
Proof.
  intros Hp. induction s as [|c s IH]; simpl; auto.
  destruct (trimEnd s) as [|d t] eqn:Et.
  - destruct (isWhiteSpace c) eqn:E.
    + intros _. rewrite (Hp c E). now apply IH.
    + simpl. intros H. apply andb_true_iff in H as [Hc _]. rewrite Hc. now apply IH.
  - cbn [Semver.allOf]. intros H. apply andb_true_iff in H as [Hc H].
    rewrite Hc. now apply IH.
Qed.

Lemma stripEqualsAndV_allOf (p : ascii -> bool) (s : string) :
  p "="%char = true -> p "v"%char = true ->
  Semver.allOf p (Semver.stripEqualsAndV s) = true -> Semver.allOf p s = true.
Proof.
  intros He Hv. induction s as [|c s IH]; simpl; auto.
  destruct (Ascii.eqb_spec c "=") as [->|_]; [intros H; now rewrite He, IH|].
  destruct (Ascii.eqb_spec c "v") as [->|_]; [intros H; now rewrite Hv, IH|].
  auto.
Qed.

Lemma allOf_weaken (p q : ascii -> bool) (s : string) :
  (forall c, p c = true -> q c = true) ->
  Semver.allOf p s = true -> Semver.allOf q s = true.
Proof.
  intros H. induction s as [|c s IH]; simpl; auto.
  intros Hs. apply andb_true_iff in Hs as [Hc Hs]. now rewrite (H c Hc), IH.
Qed.

(** [clean] reads no name with another character. *)
Lemma clean_chars (s : string) (v : Semver.SemVer) :
  Semver.clean s = Some v -> Semver.allOf isCleanChar s = true.
Proof.
  unfold Semver.clean.
  destruct (Semver.parse _) as [parsed|] eqn:Eparse; [intros _|discriminate].
  assert (Hspace : forall c, isWhiteSpace c = true -> isCleanChar c = true).
  { intros c Hc. unfold isCleanChar. rewrite Hc. apply orb_true_r. }
  apply trimStart_allOf; [assumption|]. apply trimEnd_allOf; [assumption|].
  fold (trim s). apply stripEqualsAndV_allOf; try reflexivity.
  apply (allOf_weaken isVersionChar).
  { intros c Hc. unfold isCleanChar. now rewrite Hc. }
  unfold Semver.parse in Eparse.
  destruct (Nat.ltb _ _); [discriminate|].
  destruct (Semver.stripEqualsAndV (trim s)) as [|c r] eqn:Es; [reflexivity|].
  cbn [stripPrefix] in Eparse.
  destruct (Ascii.eqb_spec "v" c) as [<-|_].
  - cbn [stripPrefix] in Eparse. simpl. eapply fullPlain_chars; eauto.
  - eapply fullPlain_chars; eauto.
Qed.

(** With an identifier, the prerelease increment puts it first. *)
Lemma prerelease_starts_with_identifier (identifier : string) (v : Semver.SemVer) :
  identifier <> "" ->
  exists rest, Semver.prerelease (Semver.incPre identifier v)
               = Semver.Str identifier :: rest.
Proof.
  intros Hid. unfold Semver.incPre. cbn [Semver.prerelease].
  destruct (String.eqb_spec identifier "") as [|_]; [contradiction|].
  match goal with
  | |- context [match ?pre with [] => _ | _ => _ end] => destruct pre as [|[n|s] pre']
  end; eauto.
  destruct (String.eqb_spec s identifier) as [->|_]; eauto.
  destruct (Semver.secondIsNaN _); eauto.
Qed.

Lemma concat_head_allOf (p : ascii -> bool) (sep x : string) (xs : list string) :
  Semver.allOf p (String.concat sep (x :: xs)) = true -> Semver.allOf p x = true.
Proof.
  cbn [String.concat]. destruct xs; auto. rewrite allOf_app.
  intros H. now apply andb_true_iff in H as [H _].
Qed.

(** *** The version after a full bump *)

(** A full bump gives a version above the one it starts from. *)
Lemma full_bump_above (v v' : Semver.SemVer) (level : string) :
  In level fullBumps ->
  Semver.incSemVer level "" v = Some v' ->
  Semver.compare v' v = Gt
  /\ Semver.prerelease v' = [] /\ Semver.build v' = Semver.build v
  /\ (Semver.major v' <= Semver.major v + 1)%N
  /\ (Semver.minor v' <= Semver.minor v + 1)%N
  /\ (Semver.patch v' <= Semver.patch v + 1)%N.
Proof.
  destruct v as [x y z pre bld].
  intros [<-|[<-|[<-|[]]]]; intros [= <-];
    unfold Semver.incMajor, Semver.incMinor, Semver.incPatch, Semver.hasPrerelease,
      Semver.compare, Semver.compareMain, Semver.comparePre;
    cbn [Semver.major Semver.minor Semver.patch Semver.prerelease Semver.build].
  - destruct (N.eqb_spec y 0), (N.eqb_spec z 0), pre; cbn [negb orb]; subst;
      rewrite ?N.compare_refl;
      try (assert (E : (x + 1 ?= x)%N = Gt) by (apply N.compare_gt_iff; lia);
           rewrite E);
      repeat split; auto; lia.
  - rewrite N.compare_refl.
    destruct (N.eqb_spec z 0), pre; cbn [negb orb]; subst;
      rewrite ?N.compare_refl;
      try (assert (E : (y + 1 ?= y)%N = Gt) by (apply N.compare_gt_iff; lia);
           rewrite E);
      repeat split; auto; lia.
  - rewrite !N.compare_refl.
    destruct pre; cbn [negb orb]; subst;
      rewrite ?N.compare_refl;
      try (assert (E : (z + 1 ?= z)%N = Gt) by (apply N.compare_gt_iff; lia);
           rewrite E);
      repeat split; auto; lia.
Qed.

(** What is not above a version is below every version above it. *)
Lemma compare_below (a b c : Semver.SemVer) :
  exactVersion a -> exactVersion b -> exactVersion c ->
  Semver.compare b a <> Lt -> Semver.compare c b = Gt -> Semver.compare a c = Lt.
Proof.
  intros Ha Hb Hc Hba Hcb.
  assert (Hbc : Semver.compare b c = Lt).
  { rewrite (compare_antisym c b), Hcb. reflexivity. }
  destruct (Semver.compare a b) eqn:Eab.
  - apply compare_eq in Eab; auto. now subst.
  - now apply (compare_lt_trans a b c).
  - destruct Hba. rewrite (compare_antisym a b), Eab. reflexivity.
Qed.

Lemma tagPrefix_cases (inputs : Inputs) : tagPrefix inputs = "" \/ tagPrefix inputs = "v".
Proof. unfold tagPrefix. destruct (_ =? _)%string; auto. Qed.

(** The version a run starts from is exact when the tags are bounded. *)
Lemma currentVersion_exact (tags : list Tag) (latestTag : option Tag)
    (v : Semver.SemVer) :
  forallb bounded tags = true ->
  pickLatest tags true = Fulfilled latestTag ->
  currentVersion latestTag = Some v ->
  exactVersion v.
Proof.
  intros Hbound Hlatest Hv. destruct latestTag as [l|].
  - destruct (pickLatest_member tags true l Hlatest) as [Hl _].
    apply (bounded_exact l v); [|exact Hv].
    exact (proj1 (forallb_forall _ _) Hbound l Hl).
  - vm_compute in Hv. injection Hv as <-. split; [constructor|reflexivity].
Qed.

(** The tag of a full bump of the latest tag: its name reads back as the new
    version, which is above the version of every qualifying tag when the tags
    are bounded. *)
Lemma full_bump_tag (inputs : Inputs) (tags : list Tag) (latestTag : option Tag)
    (level : string) (v : Semver.SemVer) :
  forallb bounded tags = true ->
  pickLatest tags true = Fulfilled latestTag ->
  currentVersion latestTag = Some v ->
  In level fullBumps ->
  incrementable v ->
  exists v',
    Semver.incSemVer level "" v = Some v'
    /\ Semver.clean (tagPrefix inputs ++ Semver.format v') = Some v'
    /\ exactVersion v'
    /\ Semver.compare v' v = Gt
    /\ forall t, In t tags -> qualifies t = true ->
         exists y, Semver.clean (tag_name t) = Some y /\ Semver.compare y v' = Lt.
Proof.
  intros Hbound Hlatest Hv Hlevel (Hx & Hy & Hz).
  assert (exists v', Semver.incSemVer level "" v = Some v') as [v' Hinc].
  { destruct Hlevel as [<-|[<-|[<-|[]]]]; eexists; reflexivity. }
  destruct (full_bump_above v v' level Hlevel Hinc) as (Hgt & Hpre & Hbld & Hx' & Hy' & Hz').
  pose proof (currentVersion_exact tags latestTag v Hbound Hlatest Hv) as Hwf.
  assert (Hwf' : exactVersion v').
  { split; [rewrite Hpre; constructor|]. rewrite Hbld. apply Hwf. }
  exists v'. split; [assumption|]. split; [|split; [assumption|split; [assumption|]]].
  - rewrite (clean_format (tagPrefix inputs) v' (tagPrefix_cases inputs) Hpre) by lia.
    destruct v' as [a b c pre bld]. destruct Hwf' as [_ Hb]. cbn in Hpre, Hb |- *.
    now subst.
  - intros t Ht Hqt.
    destruct (pickLatest_all tags latestTag Hbound Hlatest) as [Hnone Hsome].
    destruct latestTag as [l|].
    + destruct (Hsome l eq_refl) as (_ & _ & Hgreatest).
      destruct (Hgreatest t Ht Hqt) as (x & y & Hx0 & Hy0 & Hxy).
      unfold currentVersion in Hv. rewrite Hv in Hx0. injection Hx0 as <-.
      exists y. split; [assumption|].
      apply (compare_below y v v'); auto.
      apply (bounded_exact t y); [|exact Hy0].
      exact (proj1 (forallb_forall _ _) Hbound t Ht).
    + rewrite (proj1 Hnone eq_refl t Ht) in Hqt. discriminate.
Qed.

(** *** The prerelease increment *)

(** The loop of ['pre'] leaves the first identifier what it is: a string, or
    a number. *)
Lemma incrementLastNumber_head (i : Semver.Identifier) (xs xs' : list Semver.Identifier) :
  Semver.incrementLastNumber (i :: xs) = Some xs' ->
  exists j rest, xs' = j :: rest
    /\ match i with
       | Semver.Str s => j = Semver.Str s
       | Semver.Num _ => exists n, j = Semver.Num n
       end.
Proof.
  cbn [Semver.incrementLastNumber].
  destruct (Semver.incrementLastNumber xs) as [ys|].
  - intros [= <-]. exists i, ys. split; auto. destruct i; eauto.
  - destruct i as [n|s]; [|discriminate]. intros [= <-]. eauto.
Qed.

(** The prerelease increment with an identifier. *)
Lemma incPre_identifier (identifier : string) (v : Semver.SemVer) :
  identifier <> "" ->
  (Semver.prerelease v = [] ->
   Semver.prerelease (Semver.incPre identifier v)
   = [Semver.Str identifier; Semver.Num 0])
  /\ (forall n,
        Semver.prerelease v = [Semver.Str identifier; Semver.Num n] ->
        Semver.prerelease (Semver.incPre identifier v)
        = [Semver.Str identifier; Semver.Num (n + 1)])
  /\ (forall i rest,
        Semver.prerelease v = i :: rest -> i <> Semver.Str identifier ->
        Semver.prerelease (Semver.incPre identifier v)
        = [Semver.Str identifier; Semver.Num 0]).
Proof.
  intros Hid. unfold Semver.incPre. cbn [Semver.prerelease].
  destruct (String.eqb_spec identifier "") as [|_]; [contradiction|].
  split; [|split].
  - intros ->. reflexivity.
  - intros n ->. cbn [Semver.incrementLastNumber]. rewrite String.eqb_refl. reflexivity.
  - intros i rest -> Hi.
    destruct (Semver.incrementLastNumber (i :: rest)) as [xs'|] eqn:E.
    + destruct (incrementLastNumber_head i rest xs' E) as (j & rest' & -> & Hj).
      destruct i as [k|s].
      * destruct Hj as [n ->]. reflexivity.
      * subst j. destruct (String.eqb_spec s identifier) as [->|_]; [|reflexivity].
        now destruct Hi.
    + cbn [app]. destruct i as [k|s]; [reflexivity|].
      destruct (String.eqb_spec s identifier) as [->|_]; [|reflexivity].
      now destruct Hi.
Qed.

(* ================================================================= *)
(** ** The claims *)

(** The five parts of a statement about a dry run. *)
Ltac five := refine (conj _ (conj _ (conj _ (conj _ _)))).

(** C2.  When the loop of [checkMessages] is at a commit that is not the stop
    commit, is not skipped as work in progress and matches [#major], it
    returns [major] at once, whatever the classification so far, and asks the
    remote for nothing more; the commits after it are not looked at: the scan
    of any sequence gives the same result and makes the same requests when
    the sequence is cut after that commit.  When no commit before it is the
    stop commit, the classification [checkMessages] returns is [major]. *)
Theorem major_marker_stops_the_scan (octokit : Octokit) (owner repo : string)
    (tagSha : option string) (issueTags : list string) (commit : Commit) :
  isTagSha (commit_sha commit) tagSha = false ->
  testMarker "#wip" (commit_message commit) = false ->
  testMarker "#major" (commit_message commit) = true ->
  (forall b rest,
     scanCommits octokit owner repo tagSha issueTags b (commit :: rest)
     = (Fulfilled major, []))
  /\ (forall b pre rest,
        scanCommits octokit owner repo tagSha issueTags b (pre ++ commit :: rest)
        = scanCommits octokit owner repo tagSha issueTags b (pre ++ [commit]))
  /\ (forall sha pre rest,
        checkMessages (withCommits octokit (pre ++ commit :: rest)) owner repo sha
          tagSha issueTags
        = checkMessages (withCommits octokit (pre ++ [commit])) owner repo sha
            tagSha issueTags)
  /\ (forall sha pre rest r,
        (forall c, In c pre -> isTagSha (commit_sha c) tagSha = false) ->
        fst (checkMessages (withCommits octokit (pre ++ commit :: rest)) owner repo sha
               tagSha issueTags)
        = Fulfilled r ->
        r = major).
Proof.
  intros Hstop Hwip Hmajor. split; [|split; [|split]].
  - intros b rest. now apply scan_major_here.
  - intros b pre rest. now apply scan_after_major.
  - intros sha pre rest. rewrite !checkMessages_withCommits.
    cbn [bind request]. now rewrite (scan_after_major _ _ _ _ _ _ rest Hstop Hwip Hmajor).
  - intros sha pre rest r Hpre. rewrite checkMessages_withCommits. cbn [bind request].
    destruct (scanCommits _ _ _ _ _ _ _) as [r' more] eqn:E. cbn [fst].
    intros ->. exact (scan_reaches_major _ _ _ _ _ _ rest Hstop Hwip Hmajor _ _ _ _ Hpre E).
Qed.

Lemma major_marker_stops_the_scan_witness :
  scanCommits (Example.onMain "") "rbkmoney" "action-tagger" (Some "a1")
    ["enhancement"] minor
    [mkCommit "c3" "breaking #major"; mkCommit "b2" "fixes #7"]
  = (Fulfilled major, []).
Proof.
  apply (major_marker_stops_the_scan (Example.onMain "") "rbkmoney" "action-tagger"
           (Some "a1") ["enhancement"] (mkCommit "c3" "breaking #major"));
    reflexivity.
Defined.

(** C3.  The classification only goes up in the order none < patch < minor
    (< major): the scan from a classification that is not [major] ends at
    least as high.  From [minor] it ends in [minor] or in [major] and asks for
    no issue; it ends in [minor] when no commit carries [#major], whatever
    [#patch] markers and references to fixed issues the commits have. *)
Theorem minor_is_never_downgraded (octokit : Octokit) (owner repo : string)
    (tagSha : option string) (issueTags : list string) :
  (forall commits b r done,
     b <> major ->
     scanCommits octokit owner repo tagSha issueTags b commits = (Fulfilled r, done) ->
     rank b <= rank r)
  /\ (forall commits,
        scanCommits octokit owner repo tagSha issueTags minor commits
        = (Fulfilled minor, [])
        \/ scanCommits octokit owner repo tagSha issueTags minor commits
           = (Fulfilled major, []))
  /\ (forall commits,
        (forall c, In c commits -> testMarker "#major" (commit_message c) = false) ->
        scanCommits octokit owner repo tagSha issueTags minor commits
        = (Fulfilled minor, [])).
Proof.
  split; [|split].
  - intros commits b r done. apply scan_monotone.
  - apply scan_from_minor.
  - apply scan_keeps_minor.
Qed.

Lemma minor_is_never_downgraded_witness :
  scanCommits (Example.onMain "") "rbkmoney" "action-tagger" (Some "a1")
    ["enhancement"] minor
    [mkCommit "c3" "typo #patch"; mkCommit "b2" "fixes #7"]
  = (Fulfilled minor, []).
Proof.
  apply (proj2 (proj2 (minor_is_never_downgraded (Example.onMain "") "rbkmoney"
                         "action-tagger" (Some "a1") ["enhancement"]))).
  intros c [<-|[<-|[]]]; reflexivity.
Defined.

(** C8, as the code has it.  A commit whose message matches [#wip] and that
    is not the stop commit contributes nothing, whatever else its message
    carries: with it or without it in the sequence, [checkMessages] returns
    the same classification and makes the same requests. *)
Theorem wip_commit_is_skipped (octokit : Octokit) (owner repo sha : string)
    (tagSha : option string) (issueTags : list string) (w : Commit)
    (pre post : list Commit) :
  testMarker "#wip" (commit_message w) = true ->
  isTagSha (commit_sha w) tagSha = false ->
  checkMessages (withCommits octokit (pre ++ w :: post)) owner repo sha tagSha issueTags
  = checkMessages (withCommits octokit (pre ++ post)) owner repo sha tagSha issueTags.
Proof.
  intros Hwip Hstop. rewrite !checkMessages_withCommits. cbn [bind request].
  now rewrite (scan_skips_wip _ _ _ _ _ w Hstop Hwip).
Qed.

Lemma wip_commit_is_skipped_witness :
  checkMessages
    (withCommits (Example.onMain "")
       ([Example.minorCommit] ++ mkCommit "c3" "half done #wip #major" :: []))
    "rbkmoney" "action-tagger" "c3" (Some "a1") ["enhancement"]
  = checkMessages (withCommits (Example.onMain "") ([Example.minorCommit] ++ []))
      "rbkmoney" "action-tagger" "c3" (Some "a1") ["enhancement"].
Proof.
  apply (wip_commit_is_skipped (Example.onMain "") "rbkmoney" "action-tagger" "c3"
           (Some "a1") ["enhancement"] (mkCommit "c3" "half done #wip #major"));
    reflexivity.
Defined.

(** C8, as the claim has it, fails: the loop tests for the stop commit before
    it tests for [#wip].  With the stop commit [a1], the sequence of one
    [#minor] commit classifies as [minor]; with a [#wip] commit whose
    identifier is [a1] put before it, the scan stops there with [none]. *)
Lemma wip_on_the_stop_commit_ends_the_scan :
  testMarker "#wip" (commit_message Example.wipOnTag) = true
  /\ fst (checkMessages (withCommits (Example.onMain "") [Example.minorCommit])
            "rbkmoney" "action-tagger" "b2" (Some "a1") ["enhancement"])
     = Fulfilled minor
  /\ fst (checkMessages
            (withCommits (Example.onMain "") [Example.wipOnTag; Example.minorCommit])
            "rbkmoney" "action-tagger" "b2" (Some "a1") ["enhancement"])
     = Fulfilled none.
Proof. repeat split. Qed.

(** The increments of a version that is not a prerelease. *)
Lemma inc_of_release (v : Semver.SemVer) :
  Semver.prerelease v = [] ->
  Semver.inc v "major" ""
  = Some (Semver.format (Semver.mkSemVer (Semver.major v + 1) 0 0 [] (Semver.build v)))
  /\ Semver.inc v "minor" ""
     = Some (Semver.format
               (Semver.mkSemVer (Semver.major v) (Semver.minor v + 1) 0 []
                  (Semver.build v)))
  /\ Semver.inc v "patch" ""
     = Some (Semver.format
               (Semver.mkSemVer (Semver.major v) (Semver.minor v)
                  (Semver.patch v + 1) [] (Semver.build v))).
Proof.
  intros Hpre. unfold Semver.inc, Semver.incSemVer.
  cbn [String.eqb Ascii.eqb Bool.eqb].
  unfold Semver.incMajor, Semver.incMinor, Semver.incPatch, Semver.hasPrerelease.
  rewrite Hpre. cbn [negb]. rewrite !orb_true_r. repeat split.
Qed.

(** A full bump leaves no prerelease identifiers. *)
Lemma full_bump_is_release (v : Semver.SemVer) (level : string) :
  In level fullBumps ->
  exists v', Semver.incSemVer level "" v = Some v' /\ Semver.prerelease v' = [].
Proof.
  intros [<-|[<-|[<-|[]]]]; eexists; split; reflexivity.
Qed.

(** C4, as the code has it.  The release branches are tested on the last
    segment of the reference of the branch (line 251), not on the name of the
    branch.  When that segment matches a pattern, the version a run computes
    is [semver.inc] of the current version by the classification, and by the
    configured level when the classification is [none]; it is the value of
    the output [new-tag], and the tag created unless the run is dry.  On a
    version that is not a prerelease the increments are the standard ones.
    With the only tag [v1.2.0], [bump: minor] and [release-branch: main], a
    push to [main] gives [1.3.0] when no commit carries a marker and [2.0.0]
    when one carries [#major]. *)
Theorem release_branch_bumps_by_level :
  (forall regExp context inputs octokit owner repo info tags latestTag msgLevel
          isRelease,
     Computes regExp context inputs octokit owner repo info tags latestTag msgLevel
       isRelease ->
     isReleaseBranch regExp (pop (split "/" (ref_name info))) (release_branch inputs)
     = Fulfilled true ->
     let run := main regExp context inputs octokit in
     let nextVersion :=
       incVersion (currentVersion latestTag) (bumpLevel (bump inputs) msgLevel) "" in
     outputValue "new-tag" (events run) = Some (commandValue nextVersion)
     /\ created (events run) =
        if (toLowerCase (dry_run inputs) =? "true")%string then []
        else [CreateRef owner repo
                ("refs/tags/" ++ tagPrefix inputs ++ templateString nextVersion)%string
                (ref_object_sha info)])
  /\ (forall level, bumpLevel level none = level)
  /\ (forall level msgLevel, msgLevel <> none ->
        bumpLevel level msgLevel = bumpName msgLevel)
  /\ (forall v,
        Semver.prerelease v = [] ->
        Semver.inc v "major" ""
        = Some (Semver.format
                  (Semver.mkSemVer (Semver.major v + 1) 0 0 [] (Semver.build v)))
        /\ Semver.inc v "minor" ""
           = Some (Semver.format
                     (Semver.mkSemVer (Semver.major v) (Semver.minor v + 1) 0 []
                        (Semver.build v)))
        /\ Semver.inc v "patch" ""
           = Some (Semver.format
                     (Semver.mkSemVer (Semver.major v) (Semver.minor v)
                        (Semver.patch v + 1) [] (Semver.build v))))
  /\ outputValue "new-tag"
       (events (main Example.noRegExp (Example.pushTo "refs/heads/main")
                  Example.inputs (Example.onMain "work")))
     = Some "1.3.0"
  /\ outputValue "new-tag"
       (events (main Example.noRegExp (Example.pushTo "refs/heads/main")
                  Example.inputs (Example.onMain "work #major")))
     = Some "2.0.0".
Proof.
  split; [|split; [|split; [|split; [|split]]]].
  - intros regExp context inputs octokit owner repo info tags latestTag msgLevel
      isRelease Hc Hrel.
    assert (isRelease = true) as ->.
    { destruct Hc as (_ & _ & _ & _ & _ & _ & _ & _ & Hrel'). congruence. }
    exact (run_computes regExp context inputs octokit owner repo info tags latestTag
             msgLevel true Hc).
  - reflexivity.
  - intros level [| | |] H; try reflexivity. now destruct H.
  - apply inc_of_release.
  - vm_compute. reflexivity.
  - vm_compute. reflexivity.
Qed.

Lemma release_branch_bumps_by_level_witness :
  created
    (events (main Example.noRegExp (Example.pushTo "refs/heads/main")
               Example.inputs (Example.onMain "fixes #7 #patch")))
  = [CreateRef "rbkmoney" "action-tagger" "refs/tags/v1.2.1" "b2"].
Proof.
  refine (proj2 (proj1 release_branch_bumps_by_level Example.noRegExp
                   (Example.pushTo "refs/heads/main") Example.inputs
                   (Example.onMain "fixes #7 #patch") "rbkmoney" "action-tagger"
                   (mkGitRef "refs/heads/main" "b2") [mkTag "v1.2.0" "a1"]
                   (Some (mkTag "v1.2.0" "a1")) patch true _ _)).
  - repeat split; try discriminate.
    + intros t [= <-]. discriminate.
    + exists (Some (mkTag "v1.2.0" "a1")). split; reflexivity.
  - reflexivity.
Defined.

(** C4, as the claim has it, fails: the branch [release/next] matches the
    pattern [release], its last segment [next] does not.  With the only tag
    [v1.2.0] and a commit that carries [#major], a push to that branch gives
    the prerelease [1.2.1-next.0], not [2.0.0]. *)
Lemma release_branch_test_sees_only_the_last_segment :
  let remote :=
    Example.remote [mkTag "v1.2.0" "a1"] [mkGitRef "refs/heads/release/next" "b2"]
      [mkCommit "b2" "work #major"; mkCommit "a1" "release"] Example.noIssues in
  let run :=
    main Example.noRegExp (Example.pushTo "refs/heads/release/next")
      (withReleaseBranch Example.inputs "release") remote in
  removeFirst "refs/heads/" "refs/heads/release/next" = "release/next"
  /\ isReleaseBranch Example.noRegExp "release/next" "release" = Fulfilled true
  /\ isReleaseBranch Example.noRegExp "next" "release" = Fulfilled false
  /\ fst (checkMessages remote "rbkmoney" "action-tagger" "b2" (Some "a1")
            ["enhancement"])
     = Fulfilled major
  /\ outputValue "new-tag" (events run) = Some "1.2.1-next.0"
  /\ outputValue "new-tag" (events run) <> Some "2.0.0".
Proof. repeat split. vm_compute. discriminate. Qed.




(** C6, as the code has it.  The run fails and asks for no reference to be
    created when the configured custom tag is among the tags the remote
    lists, and, when no custom tag is configured, when the commit of the
    latest tag is the head of the resolved branch. *)
Theorem conflicts_abort_before_write (regExp : string -> string -> Settled bool)
    (context : Context) (inputs : Inputs) (octokit : Octokit) :
  CustomTagExists context inputs octokit
  \/ (tag inputs = "" /\ LatestTagOnHead context inputs octokit) ->
  failed (main regExp context inputs octokit)
  /\ created (events (main regExp context inputs octokit)) = [].
Proof.
  intros [H|[Hcustom H]].
  - now apply custom_tag_conflict.
  - now apply latest_tag_conflict.
Qed.

Lemma conflicts_abort_before_write_witness :
  (failed (main Example.noRegExp (Example.pushTo "refs/heads/main")
             Example.customInputs Example.alreadyTagged)
   /\ created (events (main Example.noRegExp (Example.pushTo "refs/heads/main")
                         Example.customInputs Example.alreadyTagged)) = [])
  /\ (failed (main Example.noRegExp (Example.pushTo "refs/heads/main")
                Example.inputs Example.nothingNew)
      /\ created (events (main Example.noRegExp (Example.pushTo "refs/heads/main")
                            Example.inputs Example.nothingNew)) = []).
Proof.
  split.
  - apply (conflicts_abort_before_write Example.noRegExp
             (Example.pushTo "refs/heads/main") Example.customInputs
             Example.alreadyTagged).
    left. split; [discriminate|].
    exists "rbkmoney", "action-tagger", [mkTag "v9.9.9" "a1"], (mkTag "v9.9.9" "a1").
    repeat split. left. reflexivity.
  - apply (conflicts_abort_before_write Example.noRegExp
             (Example.pushTo "refs/heads/main") Example.inputs Example.nothingNew).
    right. split; [reflexivity|].
    exists "rbkmoney", "action-tagger", (mkGitRef "refs/heads/main" "b2"),
      [mkTag "v1.0.0" "b2"], (mkTag "v1.0.0" "b2").
    repeat split.
Defined.

(** C6, as the claim has it, fails: with the custom tag [v9.9.9], which does
    not exist, the latest tag [v1.0.0] is on the head of [main], and the run
    succeeds and creates the tag. *)
Lemma custom_tag_skips_the_head_check :
  LatestTagOnHead (Example.pushTo "refs/heads/main") Example.customInputs
    Example.nothingNew
  /\ exit (main Example.noRegExp (Example.pushTo "refs/heads/main")
             Example.customInputs Example.nothingNew) = Success
  /\ created (events (main Example.noRegExp (Example.pushTo "refs/heads/main")
                        Example.customInputs Example.nothingNew))
     = [CreateRef "rbkmoney" "action-tagger" "refs/tags/v9.9.9" "b2"].
Proof.
  split; [|split; reflexivity].
  exists "rbkmoney", "action-tagger", (mkGitRef "refs/heads/main" "b2"),
    [mkTag "v1.0.0" "b2"], (mkTag "v1.0.0" "b2").
  repeat split.
Qed.

(** C7, as the code has it.  When the event names the owner and the name of
    the repository, the process ends as [action()] settles: success when it
    is fulfilled, [core.setFailed] with the message when it is rejected, and
    never an uncaught exception.  An uncaught exception ends the process
    exactly when the owner or the name is missing. *)
Theorem errors_of_action_are_caught (regExp : string -> string -> Settled bool)
    (context : Context) (inputs : Inputs) (octokit : Octokit) (owner repo : string) :
  payload_repository context = Some (mkRepository (Some owner) (Some repo)) ->
  exit (main regExp context inputs octokit)
  = match fst (action regExp inputs (context_ref context) octokit owner repo) with
    | Fulfilled _ => Success
    | Rejected message => Failed message
    end
  /\ (forall message, exit (main regExp context inputs octokit) <> Uncaught message)
  /\ forall context',
       (exists message, exit (main regExp context' inputs octokit) = Uncaught message)
       <-> (forall owner' repo',
              payload_repository context'
              <> Some (mkRepository (Some owner') (Some repo'))).
Proof.
  intros Hrepo. split; [|split].
  - rewrite (main_caught regExp context inputs octokit owner repo Hrepo).
    destruct (action _ _ _ _ _ _) as [[[]|message] done]; reflexivity.
  - intros message H.
    apply (proj1 (uncaught_iff regExp context inputs octokit) (ex_intro _ message H)
             owner repo Hrepo).
  - intros context'. apply uncaught_iff.
Qed.

Lemma errors_of_action_are_caught_witness :
  exit (main Example.noRegExp (Example.pushTo "refs/heads/gone") Example.inputs
          (Example.onMain "work"))
  = Failed "failed to load branch gone".
Proof.
  apply (errors_of_action_are_caught Example.noRegExp (Example.pushTo "refs/heads/gone")
           Example.inputs (Example.onMain "work") "rbkmoney" "action-tagger").
  reflexivity.
Defined.

(** C7, as the claim has it, fails: for an event without repository the
    module throws before [action()] is called, outside of its [catch]. *)
Lemma missing_repository_is_uncaught :
  exit (main Example.noRegExp (mkContext None "refs/heads/main") Example.inputs
          (Example.onMain "work"))
  = Uncaught "Repository owner can't be null"
  /\ exit (main Example.noRegExp
             (mkContext (Some (mkRepository (Some "rbkmoney") None)) "refs/heads/main")
             Example.inputs (Example.onMain "work"))
     = Uncaught "Repository name can't be null".
Proof. split; reflexivity. Qed.

(** C9.  A run with [dry-run: true] (in any case of the letters) and a run
    on the same state with a [dry-run] that is not [true] make the same
    requests and set the same outputs, but for the creation of the reference,
    which the dry run never asks for.  When the other run does not get to the creation either, the
    two are the same; when it does, the dry run succeeds, and the creation is
    the last and only thing the other run adds. *)
Theorem dry_run_only_omits_the_write (regExp : string -> string -> Settled bool)
    (context : Context) (inputs : Inputs) (octokit : Octokit) (yes dryRun : string) :
  toLowerCase yes = "true" ->
  toLowerCase dryRun <> "true" ->
  let dry := main regExp context (withDryRun inputs yes) octokit in
  let wet := main regExp context (withDryRun inputs dryRun) octokit in
  events dry = reads (events wet)
  /\ created (events dry) = []
  /\ (forall name, outputValue name (events dry) = outputValue name (events wet))
  /\ (created (events wet) = [] -> wet = dry)
  /\ (forall e, In e (created (events wet)) ->
        exit dry = Success /\ events wet = events dry ++ [e]).
Proof.
  intros Hdry Hwet dry wet. unfold dry, wet, main.
  destruct (payload_repository context) as [[[owner'|] [repo'|]]|];
    cbn [owner_login repository_name];
    try (cbn; five; auto; intros e []).
  unfold action.
  cbn [github_token dry_run with_v tag withDryRun].
  change (resolveBranch (withDryRun inputs yes)) with (resolveBranch inputs).
  change (resolveBranch (withDryRun inputs dryRun)) with (resolveBranch inputs).
  change (computeVersion regExp (withDryRun inputs yes))
    with (computeVersion regExp inputs).
  change (computeVersion regExp (withDryRun inputs dryRun))
    with (computeVersion regExp inputs).
  destruct (String.eqb_spec (toLowerCase dryRun) "true") as [E|_]; [contradiction|].
  rewrite Hdry. change ("true" =? "true")%string with true.
  destruct (github_token inputs) as [|c token];
    [cbn; five; auto; intros e []|].
  pose proof (resolveBranch_reads inputs octokit owner' repo' (context_ref context)) as HB.
  destruct (resolveBranch _ _ _ _ _) as [[info|message] evB]; cbn [snd] in HB;
    cbn [bind ret app];
    [|cbn [events exit]; rewrite (reads_all _ HB), HB; five; auto; intros e []].
  set (step := match tag inputs with
               | "" => computeVersion regExp inputs octokit owner' repo'
                         (ref_object_sha info) (pop (split "/" (ref_name info)))
               | String _ _ => _
               end).
  assert (HS : created (snd step) = []).
  { unfold step. destruct (tag inputs) as [|c' customTag].
    - apply computeVersion_reads.
    - apply bind_reads; [apply checkTag_reads|]. intros [|].
      + reflexivity.
      + apply bind_reads; [reflexivity|]. intros _.
        apply bind_reads; reflexivity. }
  destruct step as [[nextVersion|message] evS]; cbn [snd] in HS;
    cbn [bind ret request app].
  - destruct (createRef _ _ _ _ _) as [[]|message]; cbn [events exit];
      rewrite ?app_nil_r, ?reads_app, ?created_app, ?(reads_all _ HB),
        ?(reads_all _ HS), ?HB, ?HS;
      cbn [reads created filter isCreateRef negb app];
      rewrite ?app_nil_r, ?app_assoc, ?outputValue_app; cbn [outputValue];
      (five; auto;
       [intros name; rewrite (outputValue_app name (evB ++ evS)); reflexivity
       | discriminate
       | intros e [<-|[]]; split; reflexivity]).
  - cbn [events exit].
    rewrite ?reads_app, ?created_app, ?(reads_all _ HB), ?(reads_all _ HS), ?HB, ?HS.
    five; auto. intros e [].
Qed.

Lemma dry_run_only_omits_the_write_witness :
  events (main Example.noRegExp (Example.pushTo "refs/heads/main")
            (withDryRun Example.inputs "true") (Example.onMain "work"))
  = reads (events (main Example.noRegExp (Example.pushTo "refs/heads/main")
                     (withDryRun Example.inputs "false") (Example.onMain "work"))).
Proof.
  apply (dry_run_only_omits_the_write Example.noRegExp
           (Example.pushTo "refs/heads/main") Example.inputs (Example.onMain "work")
           "true" "false").
  - reflexivity.
  - discriminate.
Defined.

(** C10.  With an empty [release-branch], [isReleaseBranch] answers [true]
    for every branch name: the only pattern is the empty one, which matches
    every string.  A run that computes a version then never keeps the
    prerelease increment: the version is [semver.inc] of the current version
    by the classification, or by the configured level when the classification
    is [none], and for the levels major, minor and patch it has no prerelease
    identifiers. *)
Theorem empty_release_branch_matches_everything :
  (forall regExp branchName, isReleaseBranch regExp branchName "" = Fulfilled true)
  /\ (forall regExp context inputs octokit owner repo info tags latestTag msgLevel
             isRelease,
        release_branch inputs = "" ->
        Computes regExp context inputs octokit owner repo info tags latestTag msgLevel
          isRelease ->
        isRelease = true
        /\ outputValue "new-tag" (events (main regExp context inputs octokit))
           = Some (commandValue
                     (incVersion (currentVersion latestTag)
                        (bumpLevel (bump inputs) msgLevel) "")))
  /\ (forall v level,
        In level fullBumps ->
        exists v', Semver.incSemVer level "" v = Some v' /\ Semver.prerelease v' = []).
Proof.
  split; [|split].
  - intros regExp branchName. unfold isReleaseBranch. cbn [split split_pieces map trim].
    cbn [trimStart trimEnd testBranches]. unfold regExpTest. cbn [isLiteralPattern].
    unfold occursIn, searches. destruct branchName; reflexivity.
  - intros regExp context inputs octokit owner repo info tags latestTag msgLevel
      isRelease Hempty Hc.
    assert (isRelease = true) as ->.
    { destruct Hc as (_ & _ & _ & _ & _ & _ & _ & _ & Hrel).
      rewrite Hempty in Hrel.
      assert (H : isReleaseBranch regExp (pop (split "/" (ref_name info))) ""
                  = Fulfilled true).
      { unfold isReleaseBranch. cbn [split split_pieces map trim].
        cbn [trimStart trimEnd testBranches]. unfold regExpTest. cbn [isLiteralPattern].
        unfold occursIn, searches. destruct (pop _); reflexivity. }
      congruence. }
    split; [reflexivity|].
    exact (proj1 (run_computes regExp context inputs octokit owner repo info tags
                    latestTag msgLevel true Hc)).
  - intros v level. apply full_bump_is_release.
Qed.

Lemma empty_release_branch_matches_everything_witness :
  outputValue "new-tag"
    (events (main Example.noRegExp (Example.pushTo "refs/heads/feature/x")
               (withReleaseBranch Example.inputs "") Example.onFeature))
  = Some "1.3.0".
Proof.
  refine (proj2 (proj1 (proj2 empty_release_branch_matches_everything) Example.noRegExp
                   (Example.pushTo "refs/heads/feature/x")
                   (withReleaseBranch Example.inputs "") Example.onFeature
                   "rbkmoney" "action-tagger" (mkGitRef "refs/heads/feature/x" "d4")
                   [mkTag "v1.2.0" "a1"; mkTag "v1.2.1-rc.1" "c3"]
                   (Some (mkTag "v1.2.1-rc.1" "c3")) none true eq_refl _)).
  repeat split; try discriminate.
  - intros t [= <-]. discriminate.
  - exists (Some (mkTag "v1.2.0" "a1")). split; reflexivity.
Defined.

(** C1, where the code departs from it.  The filter of main releases looks
    for prerelease identifiers in the name of the tag as it is, while the tag
    qualified, and was ordered, by its cleaned name.  A name that parses only
    once cleaned passes for a main release: of the tags [v1.0.0] and
    [=1.1.0-rc.1] the latest main tag is [=1.1.0-rc.1], whose version
    [1.1.0-rc.1] has prerelease identifiers, and not [v1.0.0]. *)
Theorem latest_main_tag_may_be_a_prerelease :
  pickLatest Example.tagsWithEquals false
  = Fulfilled (Some (mkTag "=1.1.0-rc.1" "b2"))
  /\ option_map Semver.prerelease (Semver.clean "=1.1.0-rc.1")
     = Some [Semver.Str "rc"; Semver.Num 1]
  /\ Semver.prereleaseOf "=1.1.0-rc.1" = None
  /\ option_map Semver.prerelease (Semver.clean "v1.0.0") = Some [].
Proof. repeat split. Qed.

(** X1, the half of C1 about the latest tag.  For every list of tags whose
    numeric prerelease identifiers are below [MAX_SAFE_INTEGER], where
    [semver.compare] orders the versions consistently, [getLatestTag] settles
    without a throw of the comparator; the result is absent exactly when no
    tag qualifies, and otherwise it is a qualifying tag of the list that
    [semver.compare] puts below no qualifying tag. *)
Theorem latest_tag_is_greatest (tags : list Tag) :
  forallb bounded tags = true ->
  exists latest,
    pickLatest tags true = Fulfilled latest
    /\ (latest = None <-> forall t, In t tags -> qualifies t = false)
    /\ forall t, latest = Some t ->
         In t tags /\ qualifies t = true
         /\ forall u, In u tags -> qualifies u = true -> notBelow t u.
Proof.
  intros Hbound. destruct (qualifying_bounded tags Hbound) as [Hq Hb].
  destruct (sort_sorted _ Hq Hb) as (s & Es & Hin & Hqs & Hss).
  exists (lastOf s). unfold pickLatest. rewrite Es. cbn [bindS]. split; [reflexivity|split].
  - rewrite lastOf_none. split.
    + intros -> t Ht. destruct (qualifies t) eqn:E; auto.
      destruct (proj2 (Hin t)). apply filter_In. auto.
    + intros H. destruct s as [|t s]; auto.
      assert (Ht : In t (filter qualifies tags)) by (apply Hin; left; auto).
      apply filter_In in Ht as [Ht Hqt]. rewrite (H t Ht) in Hqt. discriminate.
  - intros t Hlast.
    assert (Ht : In t (filter qualifies tags)) by (apply Hin; now apply lastOf_in).
    apply filter_In in Ht as [Ht Hqt]. repeat split; auto.
    intros u Hu Hqu. apply (lastOf_greatest s t Hss Hqs Hlast).
    apply Hin. apply filter_In. auto.
Qed.

Lemma latest_tag_is_greatest_witness :
  exists latest,
    pickLatest [mkTag "v1.2.0" "a1"; mkTag "v1.2.1-rc.1" "c3"; mkTag "nightly" "d4"] true
    = Fulfilled latest
    /\ (latest = None <->
        forall t,
          In t [mkTag "v1.2.0" "a1"; mkTag "v1.2.1-rc.1" "c3"; mkTag "nightly" "d4"] ->
          qualifies t = false)
    /\ forall t, latest = Some t ->
         In t [mkTag "v1.2.0" "a1"; mkTag "v1.2.1-rc.1" "c3"; mkTag "nightly" "d4"]
         /\ qualifies t = true
         /\ forall u,
              In u [mkTag "v1.2.0" "a1"; mkTag "v1.2.1-rc.1" "c3"; mkTag "nightly" "d4"] ->
              qualifies u = true -> notBelow t u.
Proof.
  apply (latest_tag_is_greatest
           [mkTag "v1.2.0" "a1"; mkTag "v1.2.1-rc.1" "c3"; mkTag "nightly" "d4"]).
  reflexivity.
Defined.

(** X2, what the code gives for the latest main tag.  For every list of tags
    whose numeric prerelease identifiers are below [MAX_SAFE_INTEGER], the
    result is absent exactly when no qualifying tag passes the filter of line
    67, and otherwise it is the greatest of the qualifying tags that pass it:
    those whose name, as it is written, does not parse to a version with
    prerelease identifiers. *)
Theorem latest_main_tag_is_greatest_of_the_filtered (tags : list Tag) :
  forallb bounded tags = true ->
  exists latest,
    pickLatest tags false = Fulfilled latest
    /\ (latest = None <->
        forall t, In t tags -> qualifies t && notPrerelease t = false)
    /\ forall t, latest = Some t ->
         In t tags /\ qualifies t = true /\ notPrerelease t = true
         /\ forall u, In u tags -> qualifies u = true -> notPrerelease u = true ->
              notBelow t u.
Proof. apply pickLatest_main. Qed.

Lemma latest_main_tag_is_greatest_of_the_filtered_witness :
  exists latest,
    pickLatest Example.tagsWithEquals false = Fulfilled latest
    /\ (latest = None <->
        forall t, In t Example.tagsWithEquals -> qualifies t && notPrerelease t = false)
    /\ forall t, latest = Some t ->
         In t Example.tagsWithEquals /\ qualifies t = true /\ notPrerelease t = true
         /\ forall u, In u Example.tagsWithEquals -> qualifies u = true ->
              notPrerelease u = true -> notBelow t u.
Proof.
  apply (latest_main_tag_is_greatest_of_the_filtered Example.tagsWithEquals).
  reflexivity.
Defined.

(** X3, the half of C1 about the latest main tag, where it holds.  When the
    numeric prerelease identifiers of the tags are below [MAX_SAFE_INTEGER]
    and every qualifying tag has a name that parses as it is written (no
    equals sign and one [v] at most before the version), [getLatestTag] with
    [boolAll = false] is absent exactly when no tag is a main release, and
    otherwise it is a main release, not a prerelease, that [semver.compare]
    puts below no main release of the list. *)
Theorem latest_main_tag_of_plain_names (tags : list Tag) :
  forallb bounded tags = true ->
  (forall t, In t tags -> qualifies t = true -> Semver.parse (tag_name t) <> None) ->
  exists latest,
    pickLatest tags false = Fulfilled latest
    /\ (latest = None <-> forall t, In t tags -> ~ mainRelease t)
    /\ forall t, latest = Some t ->
         In t tags /\ mainRelease t
         /\ forall u, In u tags -> mainRelease u -> notBelow t u.
Proof.
  intros Hbound Hplain.
  assert (Hq : forall t, mainRelease t -> qualifies t = true).
  { intros t (v & Hv & _). unfold qualifies. now rewrite Hv. }
  destruct (pickLatest_main tags Hbound) as (latest & E & Hnone & Hsome).
  exists latest. split; [assumption|split].
  - rewrite Hnone. split.
    + intros H t Ht Hm. pose proof (Hq t Hm) as Hqt.
      apply (plain_mainRelease t (Hplain t Ht Hqt)) in Hm as [_ Hnp].
      specialize (H t Ht). rewrite Hqt, Hnp in H. discriminate.
    + intros H t Ht. destruct (qualifies t) eqn:Eq; auto.
      destruct (notPrerelease t) eqn:En; auto.
      destruct (H t Ht).
      apply plain_mainRelease; [apply Hplain; assumption|split; reflexivity || assumption].
  - intros t Ht. destruct (Hsome t Ht) as (Hin & Hqt & Hnp & Hmax).
    split; [assumption|]. split.
    + apply plain_mainRelease; [apply Hplain; assumption|split; assumption].
    + intros u Hu Hm. pose proof (Hq u Hm) as Hqu.
      apply (plain_mainRelease u (Hplain u Hu Hqu)) in Hm as [_ Hnu]. auto.
Qed.

Lemma latest_main_tag_of_plain_names_witness :
  exists latest,
    pickLatest [mkTag "v1.2.0" "a1"; mkTag "v1.2.1-rc.1" "c3"; mkTag "nightly" "d4"] false
    = Fulfilled latest
    /\ (latest = None <->
        forall t,
          In t [mkTag "v1.2.0" "a1"; mkTag "v1.2.1-rc.1" "c3"; mkTag "nightly" "d4"] ->
          ~ mainRelease t)
    /\ forall t, latest = Some t ->
         In t [mkTag "v1.2.0" "a1"; mkTag "v1.2.1-rc.1" "c3"; mkTag "nightly" "d4"]
         /\ mainRelease t
         /\ forall u,
              In u [mkTag "v1.2.0" "a1"; mkTag "v1.2.1-rc.1" "c3"; mkTag "nightly" "d4"] ->
              mainRelease u -> notBelow t u.
Proof.
  apply (latest_main_tag_of_plain_names
           [mkTag "v1.2.0" "a1"; mkTag "v1.2.1-rc.1" "c3"; mkTag "nightly" "d4"]).
  - reflexivity.
  - intros t [<-|[<-|[<-|[]]]] H; vm_compute; discriminate.
Defined.

(* ================================================================= *)
(** ** Further properties of the steps and of a run *)

(** X4.  [checkTag] asks for the tags once and answers [true] exactly when a
    listed tag has the given name, letter for letter; the rejection of the
    listing is its own. *)
Theorem checkTag_finds_the_exact_name (octokit : Octokit) (owner repo tagName : string) :
  (forall tags,
     listTags octokit owner repo = Fulfilled tags ->
     exists found,
       checkTag octokit owner repo tagName = (Fulfilled found, [ListTags owner repo])
       /\ (found = true <-> exists t, In t tags /\ tag_name t = tagName))
  /\ (forall message,
        listTags octokit owner repo = Rejected message ->
        checkTag octokit owner repo tagName = (Rejected message, [ListTags owner repo])).
Proof.
  split.
  - intros tags Htags. rewrite checkTag_exact, Htags. eexists. split; [reflexivity|].
    rewrite existsb_exists. split.
    + intros (t & Ht & E). apply String.eqb_eq in E. eauto.
    + intros (t & Ht & E). exists t. split; auto. now apply String.eqb_eq.
  - intros message Htags. now rewrite checkTag_exact, Htags.
Qed.

Lemma checkTag_finds_the_exact_name_witness :
  exists found,
    checkTag Example.alreadyTagged "rbkmoney" "action-tagger" "V9.9.9"
    = (Fulfilled found, [ListTags "rbkmoney" "action-tagger"])
    /\ (found = true <->
        exists t, In t [mkTag "v9.9.9" "a1"] /\ tag_name t = "V9.9.9").
Proof.
  apply (proj1 (checkTag_finds_the_exact_name Example.alreadyTagged "rbkmoney"
                  "action-tagger" "V9.9.9")).
  reflexivity.
Defined.

(** X5.  The scan stops at the stop commit without looking at it: the
    classification and the requests are those of the commits before it,
    whatever the stop commit and the commits after it carry. *)
Theorem stop_commit_ends_the_scan (octokit : Octokit) (owner repo sha : string)
    (tagSha : option string) (issueTags : list string) (stop : Commit)
    (pre rest : list Commit) :
  isTagSha (commit_sha stop) tagSha = true ->
  (forall b,
     scanCommits octokit owner repo tagSha issueTags b (pre ++ stop :: rest)
     = scanCommits octokit owner repo tagSha issueTags b pre)
  /\ checkMessages (withCommits octokit (pre ++ stop :: rest)) owner repo sha tagSha
       issueTags
     = checkMessages (withCommits octokit pre) owner repo sha tagSha issueTags.
Proof.
  intros Hstop. split.
  - intros b. now apply scan_stops.
  - rewrite !checkMessages_withCommits. cbn [bind request].
    now rewrite (scan_stops octokit owner repo tagSha issueTags stop rest Hstop).
Qed.

Lemma stop_commit_ends_the_scan_witness :
  checkMessages
    (withCommits (Example.onMain "")
       ([mkCommit "b2" "typo #patch"] ++ mkCommit "a1" "release #major" :: []))
    "rbkmoney" "action-tagger" "b2" (Some "a1") ["enhancement"]
  = checkMessages (withCommits (Example.onMain "") [mkCommit "b2" "typo #patch"])
      "rbkmoney" "action-tagger" "b2" (Some "a1") ["enhancement"].
Proof.
  apply (stop_commit_ends_the_scan (Example.onMain "") "rbkmoney" "action-tagger" "b2"
           (Some "a1") ["enhancement"] (mkCommit "a1" "release #major")).
  reflexivity.
Defined.

(** X6.  Commits whose messages carry no marker and no reference to a fixed
    issue leave the classification as it is and cause no request: a branch of
    such commits only classifies as [none], with the listing of the commits
    as only request. *)
Theorem unmarked_commits_classify_as_none (octokit : Octokit) (owner repo sha : string)
    (tagSha : option string) (issueTags : list string) (commits : list Commit) :
  forallb unmarked commits = true ->
  (forall b,
     scanCommits octokit owner repo tagSha issueTags b commits = (Fulfilled b, []))
  /\ checkMessages (withCommits octokit commits) owner repo sha tagSha issueTags
     = (Fulfilled none, [ListCommits owner repo sha]).
Proof.
  intros H. split.
  - now apply scan_unmarked.
  - rewrite checkMessages_withCommits. cbn [bind request].
    now rewrite (scan_unmarked octokit owner repo tagSha issueTags commits H).
Qed.

Lemma unmarked_commits_classify_as_none_witness :
  checkMessages
    (withCommits (Example.onMain "")
       [mkCommit "c3" "prefix #majority"; mkCommit "b2" "fixed #12"])
    "rbkmoney" "action-tagger" "c3" None ["enhancement"]
  = (Fulfilled none, [ListCommits "rbkmoney" "action-tagger" "c3"]).
Proof.
  apply (unmarked_commits_classify_as_none (Example.onMain "") "rbkmoney"
           "action-tagger" "c3" None ["enhancement"]).
  reflexivity.
Defined.

(** X7.  [checkMessages] asks the remote for the commits, once and first, and
    after that only for issues, each with a positive number: it sets no
    output, creates no reference, and never asks for issue 0. *)
Theorem checkMessages_only_reads_issues (octokit : Octokit) (owner repo sha : string)
    (tagSha : option string) (issueTags : list string) :
  exists issues,
    snd (checkMessages octokit owner repo sha tagSha issueTags)
    = ListCommits owner repo sha :: issues
    /\ forallb isIssueRequest issues = true.
Proof.
  unfold checkMessages, bind, request.
  destruct (listCommits octokit owner repo sha) as [commits|m].
  - pose proof (scan_issue_requests octokit owner repo tagSha issueTags commits none) as H.
    destruct (scanCommits _ _ _ _ _ _ commits) as [r more]. cbn [snd] in *.
    exists more. auto.
  - exists []. auto.
Qed.

(** X8.  The issue of a fix makes the bump [minor] exactly when one of its
    labels is an object whose name (or [empty], for an object without a name)
    is among the configured labels; labels that are plain strings do not
    count.  Otherwise the bump is [patch]. *)
Theorem labels_decide_minor (issueTags : list string) (labels : list Label) :
  (labelsBump issueTags labels = minor <->
   exists l name,
     In l labels /\ labelName l = Some name /\ includes issueTags name = true)
  /\ (labelsBump issueTags labels = patch \/ labelsBump issueTags labels = minor).
Proof.
  split; [|apply labelsBump_cases].
  induction labels as [|l labels IH]; simpl.
  - split; [discriminate|]. intros (l & name & [] & _).
  - destruct l as [s|name].
    + rewrite IH. split.
      * intros (l & n & Hl & H). eauto 6.
      * intros (l & n & [<-|Hl] & Hn & H); [discriminate|]. eauto.
    + set (name' := match name with Some (String c s) => String c s | _ => "empty" end).
      assert (Hn : labelName (LabelObject name) = Some name').
      { destruct name as [[|c s]|]; reflexivity. }
      destruct (includes issueTags name') eqn:E.
      * split; [|reflexivity]. intros _. exists (LabelObject name), name'. auto.
      * rewrite IH. split.
        -- intros (l & n & Hl & H). eauto 6.
        -- intros (l & n & [<-|Hl] & Hl' & H); [|eauto].
           rewrite Hn in Hl'. injection Hl' as <-. congruence.
Qed.

(** X9.  A marker ([#wip], [#major], [#minor], [#patch]: a word after the
    hash) is found in a message exactly when the message contains it followed
    by the end of the message or by a character that is not a letter, a digit
    or an underscore. *)
Theorem marker_is_a_whole_word (marker message : string) :
  testMarker marker message = true <->
  exists before after,
    message = (before ++ marker ++ after)%string /\ boundaryAfterWord after = true.
Proof.
  unfold testMarker. rewrite searches_iff. split.
  - intros (pre & t & -> & H). unfold markerAt in H.
    destruct (stripPrefix marker t) as [rest|] eqn:E; [|discriminate].
    apply stripPrefix_append in E. subst. eauto.
  - intros (pre & rest & -> & H). exists pre, (marker ++ rest)%string. split; auto.
    unfold markerAt.
    rewrite (proj2 (stripPrefix_append marker (marker ++ rest) rest) eq_refl). exact H.
Qed.

(** X10.  The test for a fix finds [fix #] or [fixes #] followed by a digit,
    anywhere in the message.  Whenever the matcher of the issue number finds
    something, the test for a fix passes as well and the number it captures is
    a string of digits that is not empty. *)
Theorem fix_reference_forms (message : string) :
  (testFix message = true <->
   exists before c after,
     isDigit c = true
     /\ (message = (before ++ "fix #" ++ String c after)%string
         \/ message = (before ++ "fixes #" ++ String c after)%string))
  /\ (forall id,
        execMatcher message = Some id -> testFix message = true /\ isNumeric id = true).
Proof.
  split.
  - unfold testFix. rewrite searches_iff. split.
    + intros (pre & t & -> & H). apply fixAt_forms in H as (c & rest & Hc & [->| ->]);
        exists pre, c, rest; auto.
    + intros (pre & c & rest & Hc & [->| ->]).
      * exists pre, ("fix #" ++ String c rest)%string. split; auto.
        apply fixAt_forms. eauto.
      * exists pre, ("fixes #" ++ String c rest)%string. split; auto.
        apply fixAt_forms. eauto.
  - intros id H. unfold execMatcher in H. unfold testFix.
    destruct (firstMatch_some _ _ _ H) as (pre & t & -> & Ht).
    apply matcherAt_fixAt in Ht as [Hf Hn]. split; auto.
    apply searches_iff. eauto.
Qed.

(** X11.  For patterns without syntax characters a branch is a release branch
    exactly when one of the patterns, trimmed, occurs somewhere in its name:
    the match is not anchored.  The patterns are tried in order and the first
    match decides: a branch that contains the first pattern is a release
    branch whatever follows the first comma. *)
Theorem release_branch_patterns_are_unanchored
    (regExp : string -> string -> Settled bool) (branchName : string) :
  (forall branchList,
     forallb (fun p => isLiteralPattern (trim p)) (split "," branchList) = true ->
     isReleaseBranch regExp branchName branchList
     = Fulfilled (existsb (fun p => occursIn (trim p) branchName) (split "," branchList)))
  /\ (forall first others,
        without "," first = true ->
        isLiteralPattern (trim first) = true ->
        occursIn (trim first) branchName = true ->
        isReleaseBranch regExp branchName (first ++ String "," others)%string
        = Fulfilled true).
Proof.
  split.
  - intros branchList H. unfold isReleaseBranch.
    rewrite testBranches_literal.
    + f_equal. induction (split "," branchList) as [|p ps IH]; simpl; auto.
      f_equal. apply IH. simpl in H. now apply andb_true_iff in H as [_ H].
    + rewrite forallb_forall in *. intros p Hp.
      apply in_map_iff in Hp as (q & <- & Hq). auto.
  - intros first others Hcomma Hlit Hocc. unfold isReleaseBranch.
    rewrite (split_append "," first others Hcomma). cbn [map testBranches].
    unfold regExpTest. rewrite Hlit. cbn [bindS]. now rewrite Hocc.
Qed.

Lemma release_branch_patterns_are_unanchored_witness :
  isReleaseBranch Example.noRegExp "maintenance" ("main" ++ String "," " rel(ease")%string
  = Fulfilled true.
Proof.
  apply (proj2 (release_branch_patterns_are_unanchored Example.noRegExp "maintenance")
           "main" " rel(ease");
    reflexivity.
Defined.

(** X12.  With a forced branch the reference of the event plays no role: the
    run asks for that branch only, and when the remote has no such reference
    it fails with [unknown branch provided] instead of turning to the branch
    of the event.  Without one it asks for the reference of the event less
    its first [refs/heads/], and fails with [failed to load branch] and that
    name when there is none. *)
Theorem forced_branch_is_not_replaced (inputs : Inputs) (octokit : Octokit)
    (owner repo : string) :
  (branch inputs <> "" ->
   (forall ref ref',
      resolveBranch inputs ref octokit owner repo
      = resolveBranch inputs ref' octokit owner repo)
   /\ (forall ref,
         listMatchingRefs octokit owner repo ("heads/" ++ branch inputs)%string
         = Fulfilled [] ->
         resolveBranch inputs ref octokit owner repo
         = (Rejected "unknown branch provided",
            [ListMatchingRefs owner repo ("heads/" ++ branch inputs)%string])))
  /\ (branch inputs = "" ->
      forall ref,
        listMatchingRefs octokit owner repo
          ("heads/" ++ removeFirst "refs/heads/" ref)%string
        = Fulfilled [] ->
        resolveBranch inputs ref octokit owner repo
        = (Rejected ("failed to load branch " ++ removeFirst "refs/heads/" ref)%string,
           [ListMatchingRefs owner repo
              ("heads/" ++ removeFirst "refs/heads/" ref)%string])).
Proof.
  split.
  - intros Hforced. unfold resolveBranch, loadBranch, request.
    destruct (branch inputs) as [|c b] eqn:E; [now destruct Hforced|]. split.
    + intros ref ref'.
      destruct (listMatchingRefs _ _ _ _) as [[|info refs]|m]; reflexivity.
    + intros ref ->. reflexivity.
  - intros Hnone ref Hrefs. unfold resolveBranch, loadBranch, request.
    rewrite Hnone. cbn [bind ret app]. rewrite Hrefs. reflexivity.
Qed.

Lemma forced_branch_is_not_replaced_witness :
  resolveBranch (mkInputs "token" "" "" "gone" "" "" "" "") "refs/heads/main"
    (Example.onMain "") "rbkmoney" "action-tagger"
  = (Rejected "unknown branch provided",
     [ListMatchingRefs "rbkmoney" "action-tagger" "heads/gone"]).
Proof.
  apply (proj1 (forced_branch_is_not_replaced (mkInputs "token" "" "" "gone" "" "" "" "")
                  (Example.onMain "") "rbkmoney" "action-tagger")).
  - discriminate.
  - reflexivity.
Defined.

(** X13.  A custom tag that is not among the listed tags is used as it is:
    after the branch is resolved the run lists the tags, sets the output
    [new-tag] to the custom tag and, unless it is a dry run, creates
    [refs/tags/] followed by the custom tag on the head of the branch.  No
    version is computed: the commits are not listed, and [with-v], [bump] and
    [release-branch] play no role. *)
Theorem custom_tag_is_used_verbatim (regExp : string -> string -> Settled bool)
    (context : Context) (inputs : Inputs) (octokit : Octokit) (owner repo : string)
    (info : GitRef) (tags : list Tag) :
  Resolves context inputs octokit owner repo info ->
  tag inputs <> "" ->
  listTags octokit owner repo = Fulfilled tags ->
  (forall t, In t tags -> tag_name t <> tag inputs) ->
  let run := main regExp context inputs octokit in
  let ref := ("refs/tags/" ++ tag inputs)%string in
  events run
  = snd (resolveBranch inputs (context_ref context) octokit owner repo)
    ++ [ListTags owner repo; SetOutput "new-tag" (tag inputs)]
    ++ (if (toLowerCase (dry_run inputs) =? "true")%string then []
        else [CreateRef owner repo ref (ref_object_sha info)])
  /\ exit run
     = if (toLowerCase (dry_run inputs) =? "true")%string then Success
       else match createRef octokit owner repo ref (ref_object_sha info) with
            | Fulfilled _ => Success
            | Rejected message => Failed message
            end.
Proof.
  intros (Hrepo & Htoken & Hbranch) Hcustom Htags Hfree run ref. unfold run, ref.
  rewrite (main_caught regExp context inputs octokit owner repo Hrepo). unfold action.
  destruct (github_token inputs) as [|c token]; [now destruct Htoken|].
  destruct (resolveBranch _ _ _ _ _) as [r evB]. cbn [fst snd] in *. subst r.
  cbn [bind ret app].
  destruct (tag inputs) as [|c' customTag] eqn:Etag; [now destruct Hcustom|].
  rewrite checkTag_exact, Htags.
  assert (E : existsb (fun t => (tag_name t =? String c' customTag)%string) tags = false).
  { destruct (existsb _ tags) eqn:E; auto.
    apply existsb_exists in E as (t & Ht & E). apply String.eqb_eq in E.
    now destruct (Hfree t Ht). }
  rewrite E. cbn [bind ret setOutput app].
  destruct (toLowerCase (dry_run inputs) =? "true")%string.
  - cbn [bind ret app events exit]. rewrite ?List.app_nil_r. split; reflexivity.
  - cbn [bind request app]. destruct (createRef _ _ _ _ _) as [[]|m];
      cbn [events exit]; rewrite <- ?List.app_assoc; split; reflexivity.
Qed.

Lemma custom_tag_is_used_verbatim_witness :
  events (main Example.noRegExp (Example.pushTo "refs/heads/main") Example.customInputs
            Example.nothingNew)
  = snd (resolveBranch Example.customInputs "refs/heads/main" Example.nothingNew
           "rbkmoney" "action-tagger")
    ++ [ListTags "rbkmoney" "action-tagger"; SetOutput "new-tag" "v9.9.9"]
    ++ [CreateRef "rbkmoney" "action-tagger" "refs/tags/v9.9.9" "b2"].
Proof.
  apply (custom_tag_is_used_verbatim Example.noRegExp (Example.pushTo "refs/heads/main")
           Example.customInputs Example.nothingNew "rbkmoney" "action-tagger"
           (mkGitRef "refs/heads/main" "b2") [mkTag "v1.0.0" "b2"]).
  - repeat split. discriminate.
  - discriminate.
  - reflexivity.
  - intros t [<-|[]]. discriminate.
Defined.

(** X14.  When the remote rejects the listing of the tags, the run fails
    with the message of the rejection, right after the branch is resolved:
    nothing is set and nothing is created, with or without a custom tag. *)
Theorem tag_listing_failure_fails_the_run (regExp : string -> string -> Settled bool)
    (context : Context) (inputs : Inputs) (octokit : Octokit) (owner repo : string)
    (info : GitRef) (message : string) :
  Resolves context inputs octokit owner repo info ->
  listTags octokit owner repo = Rejected message ->
  main regExp context inputs octokit
  = mkRun (Failed message)
      (snd (resolveBranch inputs (context_ref context) octokit owner repo)
       ++ [ListTags owner repo]).
Proof.
  intros (Hrepo & Htoken & Hbranch) Htags.
  rewrite (main_caught regExp context inputs octokit owner repo Hrepo). unfold action.
  destruct (github_token inputs) as [|c token]; [now destruct Htoken|].
  destruct (resolveBranch _ _ _ _ _) as [r evB]. cbn [fst snd] in *. subst r.
  cbn [bind ret app].
  destruct (tag inputs) as [|c' customTag].
  - unfold computeVersion, getLatestTag, request. rewrite Htags. reflexivity.
  - rewrite checkTag_exact, Htags. reflexivity.
Qed.

Lemma tag_listing_failure_fails_the_run_witness :
  main Example.noRegExp (Example.pushTo "refs/heads/main") Example.inputs
    (mkOctokit (fun _ _ => Rejected "Bad credentials")
       (listMatchingRefs (Example.onMain "")) (listCommits (Example.onMain ""))
       (issuesGet (Example.onMain "")) (createRef (Example.onMain "")))
  = mkRun (Failed "Bad credentials")
      (snd (resolveBranch Example.inputs "refs/heads/main" (Example.onMain "")
              "rbkmoney" "action-tagger")
       ++ [ListTags "rbkmoney" "action-tagger"]).
Proof.
  refine (tag_listing_failure_fails_the_run Example.noRegExp
            (Example.pushTo "refs/heads/main") Example.inputs _ "rbkmoney"
            "action-tagger" (mkGitRef "refs/heads/main" "b2") "Bad credentials" _ _).
  - repeat split. discriminate.
  - reflexivity.
Defined.

(** X15.  A run asks for at most one reference to be created, as the last
    thing it does.  When it does, the repository is named, the token is there,
    the branch resolved and the run is not dry; the request comes right after
    the output [new-tag] is set, for [refs/tags/] and a name, on the head of
    the resolved branch, and the run succeeds or fails as the remote answers
    it.  With a custom tag the name and the output are that tag; without one
    the name is the prefix followed by the output, or by [null] when no
    version could be computed and the output is empty. *)
Theorem tag_is_created_last_on_the_head (regExp : string -> string -> Settled bool)
    (context : Context) (inputs : Inputs) (octokit : Octokit) :
  let run := main regExp context inputs octokit in
  created (events run) = []
  \/ exists owner repo info before value name,
       Resolves context inputs octokit owner repo info
       /\ toLowerCase (dry_run inputs) <> "true"
       /\ events run
          = before ++ [SetOutput "new-tag" value;
                       CreateRef owner repo ("refs/tags/" ++ name)%string
                         (ref_object_sha info)]
       /\ created before = []
       /\ match tag inputs with
          | "" => name = (tagPrefix inputs ++ value)%string
                  \/ (value = "" /\ name = (tagPrefix inputs ++ "null")%string)
          | customTag => value = customTag /\ name = customTag
          end
       /\ exit run
          = match createRef octokit owner repo ("refs/tags/" ++ name)%string
                    (ref_object_sha info) with
            | Fulfilled _ => Success
            | Rejected message => Failed message
            end.
Proof.
  intros run. unfold run, main.
  destruct (payload_repository context) as [[[owner'|] [repo'|]]|] eqn:Hrepo;
    cbn [owner_login repository_name]; try (left; reflexivity).
  unfold action.
  destruct (github_token inputs) as [|c token] eqn:Htoken; [left; reflexivity|].
  pose proof (resolveBranch_reads inputs octokit owner' repo' (context_ref context)) as HB.
  destruct (resolveBranch _ _ _ _ _) as [[info|message] evB] eqn:Hbranch; cbn [snd] in HB;
    cbn [bind ret app]; [|left; exact HB].
  assert (HR : Resolves context inputs octokit owner' repo' info).
  { repeat split; [assumption|congruence|now rewrite Hbranch]. }
  destruct (tag inputs) as [|c' customTag] eqn:Hcustom.
  - pose proof (computeVersion_reads regExp inputs octokit owner' repo'
                  (ref_object_sha info) (pop (split "/" (ref_name info)))) as HS.
    destruct (computeVersion _ _ _ _ _ _ _) as [[v|message] evS] eqn:Hversion;
      cbn [snd] in HS; cbn [bind app events];
      [|left; rewrite created_app, HB, HS; reflexivity].
    destruct (String.eqb_spec (toLowerCase (dry_run inputs)) "true") as [Hdry|Hdry].
    { left. cbn [ret events]. rewrite List.app_nil_r, created_app, HB, HS. reflexivity. }
    apply computeVersion_ends in Hversion as (Hv & before & ->).
    rewrite created_app in HS. apply List.app_eq_nil in HS as [HS _].
    right. exists owner', repo', info, (evB ++ before), (commandValue v),
             (tagPrefix inputs ++ templateString v)%string.
    split; [exact HR|]. split; [exact Hdry|].
    unfold tagPrefix. cbn [request bind].
    destruct (createRef _ _ _ _ _) as [[]|m]; cbn [events exit];
      rewrite <- !List.app_assoc; cbn [app];
      (split; [reflexivity|]); (split; [rewrite created_app, HB, HS; reflexivity|]);
      (split; [|reflexivity]);
      destruct v; [now destruct Hv|right; split; reflexivity|left; reflexivity
                  |now destruct Hv|right; split; reflexivity|left; reflexivity].
  - pose proof (checkTag_reads octokit owner' repo' (String c' customTag)) as HT.
    destruct (checkTag _ _ _ _) as [[[|]|message] evT]; cbn [snd] in HT;
      cbn [bind throw ret setOutput app events];
      try (left; rewrite ?List.app_nil_r, created_app, HB, HT; reflexivity).
    destruct (String.eqb_spec (toLowerCase (dry_run inputs)) "true") as [Hdry|Hdry].
    { left. cbn [ret events bind app]. rewrite !created_app, HB, HT. reflexivity. }
    right. exists owner', repo', info, (evB ++ evT), (String c' customTag),
             (String c' customTag).
    split; [exact HR|]. split; [exact Hdry|].
    cbn [request bind].
    destruct (createRef _ _ _ _ _) as [[]|m]; cbn [events exit];
      rewrite ?List.app_nil_r, <- ?List.app_assoc; cbn [app];
      (split; [reflexivity|]); (split; [rewrite created_app, HB, HT; reflexivity|]);
      split; auto.
Qed.

(** X16.  Once the tags are listed, a run without custom tag sets the output
    [tag] to the name of the latest tag, [0.0.0] when no tag qualifies, and
    nothing changes it afterwards, whether the run then stops at the head
    check, fails on the commits, the issues, the release branches or the
    creation, or succeeds.  A run with a custom tag never sets it. *)
Theorem latest_tag_is_reported_before_the_checks
    (regExp : string -> string -> Settled bool)
    (context : Context) (inputs : Inputs) (octokit : Octokit) (owner repo : string)
    (info : GitRef) (tags : list Tag) (latestTag : option Tag) :
  Resolves context inputs octokit owner repo info ->
  listTags octokit owner repo = Fulfilled tags ->
  pickLatest tags true = Fulfilled latestTag ->
  outputValue "tag" (events (main regExp context inputs octokit))
  = match tag inputs with
    | "" => Some match latestTag with Some t => tag_name t | None => "0.0.0" end
    | _ => None
    end.
Proof.
  intros (Hrepo & Htoken & Hbranch) Htags Hlatest.
  destruct (pickLatest_settles tags false) as [latestMainTag Hmain].
  rewrite (main_caught regExp context inputs octokit owner repo Hrepo). unfold action.
  destruct (github_token inputs) as [|c token]; [now destruct Htoken|].
  pose proof (resolveBranch_keeps inputs octokit owner repo "tag" (context_ref context))
    as HB.
  destruct (resolveBranch _ _ _ _ _) as [r evB]. cbn [fst snd] in *. subst r.
  cbn [bind ret app].
  destruct (tag inputs) as [|c' customTag].
  - unfold computeVersion.
    rewrite (getLatestTag_fulfilled octokit owner repo tags true latestTag Htags Hlatest).
    rewrite (getLatestTag_fulfilled octokit owner repo tags false latestMainTag Htags Hmain).
    cbn [bind setOutput ret app].
    assert (Hgoal : forall rest (r : Exit),
              forallb (keeps "tag") rest = true ->
              outputValue "tag" (evB ++ ListTags owner repo :: ListTags owner repo
                                 :: SetOutput "tag" match latestTag with
                                                    | Some t => tag_name t
                                                    | None => "0.0.0"
                                                    end :: rest)
              = Some match latestTag with Some t => tag_name t | None => "0.0.0" end).
    { intros rest _ Hrest.
      transitivity
        (outputValue "tag"
           ((evB ++ [ListTags owner repo; ListTags owner repo;
                     SetOutput "tag" match latestTag with
                                     | Some t => tag_name t
                                     | None => "0.0.0"
                                     end]) ++ rest)).
      { rewrite <- List.app_assoc. reflexivity. }
      rewrite (outputValue_kept _ _ _ Hrest), outputValue_app. reflexivity. }
    pose proof (checkMessages_keeps octokit owner repo "tag" (ref_object_sha info)
                  (option_map tag_commit_sha latestMainTag)
                  (issLabs (issue_labels_input inputs))) as HM.
    assert (Hsha : exists ok : bool,
               match latestTag with
               | Some t => if (tag_commit_sha t =? ref_object_sha info)%string
                           then @throw unit "no new commits, avoid tagging" else ret tt
               | None => ret tt
               end = if ok then ret tt else throw "no new commits, avoid tagging").
    { destruct latestTag as [t|]; [|now exists true].
      destruct (_ =? _)%string; [now exists false|now exists true]. }
    destruct Hsha as [ok ->]. destruct ok; cbn [bind ret throw app];
      [|cbn [events]; now apply (Hgoal [] Success)].
    destruct (checkMessages _ _ _ _ _ _) as [[msgLevel|m] evM]; cbn [snd] in HM;
      cbn [bind app]; rewrite ?List.app_nil_r;
      [|cbn [events]; now apply (Hgoal evM Success)].
    unfold lift. destruct (isReleaseBranch _ _ _) as [isRelease|m];
      cbn [bind setOutput ret app]; rewrite ?List.app_nil_r;
      [|cbn [events]; now apply (Hgoal evM Success)].
    destruct (toLowerCase (dry_run inputs) =? "true")%string;
      cbn [bind ret request app events]; rewrite ?List.app_nil_r.
    + rewrite <- ?List.app_assoc. cbn [app]. apply (Hgoal _ Success).
      rewrite forallb_app, HM. reflexivity.
    + destruct (createRef _ _ _ _ _) as [[]|m]; cbn [events];
        rewrite <- ?List.app_assoc; cbn [app]; apply (Hgoal _ Success);
        rewrite !forallb_app, HM; reflexivity.
  - rewrite checkTag_exact, Htags. cbn [bind app].
    destruct (existsb _ tags); cbn [bind throw ret setOutput app events].
    + apply outputValue_kept with (before := []).
      rewrite forallb_app, HB. reflexivity.
    + destruct (toLowerCase (dry_run inputs) =? "true")%string;
        cbn [bind ret request app events]; rewrite ?List.app_nil_r.
      * apply outputValue_kept with (before := []).
        rewrite !forallb_app, HB. reflexivity.
      * destruct (createRef _ _ _ _ _) as [[]|m]; cbn [events];
          apply outputValue_kept with (before := []);
          rewrite !forallb_app, HB; reflexivity.
Qed.

Lemma latest_tag_is_reported_before_the_checks_witness :
  outputValue "tag"
    (events (main Example.noRegExp (Example.pushTo "refs/heads/main") Example.inputs
               Example.nothingNew))
  = Some "v1.0.0".
Proof.
  apply (latest_tag_is_reported_before_the_checks Example.noRegExp
           (Example.pushTo "refs/heads/main") Example.inputs Example.nothingNew
           "rbkmoney" "action-tagger" (mkGitRef "refs/heads/main" "b2")
           [mkTag "v1.0.0" "b2"] (Some (mkTag "v1.0.0" "b2"))).
  - repeat split. discriminate.
  - reflexivity.
  - vm_compute. reflexivity.
Defined.

(** X17.  On a release branch, when no commit decides the bump and the
    configured level is none of those [inc] knows, [semver.inc] answers
    [null]: the output [new-tag] is empty, and a run that is not dry asks for
    the tag [null], after the prefix, to be created. *)
Theorem unknown_bump_level_gives_null (regExp : string -> string -> Settled bool)
    (context : Context) (inputs : Inputs) (octokit : Octokit) (owner repo : string)
    (info : GitRef) (tags : list Tag) (latestTag : option Tag) :
  Computes regExp context inputs octokit owner repo info tags latestTag none true ->
  ~ In (bump inputs) releaseTypes ->
  let run := main regExp context inputs octokit in
  outputValue "new-tag" (events run) = Some ""
  /\ created (events run)
     = if (toLowerCase (dry_run inputs) =? "true")%string then []
       else [CreateRef owner repo ("refs/tags/" ++ tagPrefix inputs ++ "null")%string
               (ref_object_sha info)].
Proof.
  intros Hc Hlevel run.
  destruct (run_computes regExp context inputs octokit owner repo info tags latestTag
              none true Hc) as [Hout Hcreated].
  fold run in Hout, Hcreated.
  assert (E : computed inputs latestTag (pop (split "/" (ref_name info))) none true = Null).
  { unfold computed, bumpLevel, incVersion. cbn [isNone].
    destruct (currentVersion latestTag) as [v|]; [|reflexivity].
    unfold Semver.inc.
    rewrite (proj2 (incSemVer_none (bump inputs) "" v) Hlevel). reflexivity. }
  rewrite E in Hout, Hcreated. split; assumption.
Qed.

Lemma unknown_bump_level_gives_null_witness :
  created (events (main Example.noRegExp (Example.pushTo "refs/heads/main")
                     (mkInputs "token" "" "" "" "main" "" "" "") (Example.onMain "work")))
  = [CreateRef "rbkmoney" "action-tagger" "refs/tags/vnull" "b2"].
Proof.
  refine (proj2 (unknown_bump_level_gives_null Example.noRegExp
                   (Example.pushTo "refs/heads/main")
                   (mkInputs "token" "" "" "" "main" "" "" "") (Example.onMain "work")
                   "rbkmoney" "action-tagger" (mkGitRef "refs/heads/main" "b2")
                   [mkTag "v1.2.0" "a1"] (Some (mkTag "v1.2.0" "a1")) _ _)).
  - repeat split; try discriminate.
    + intros t [= <-]. discriminate.
    + exists (Some (mkTag "v1.2.0" "a1")). split; reflexivity.
  - unfold releaseTypes. simpl. intuition discriminate.
Defined.

(** X18.  When no tag qualifies, the version is counted from [0.0.0]: on a
    release branch [1.0.0], [0.1.0] or [0.0.1] for the levels major, minor and
    patch (and the prerelease [-0] of these for the [pre] levels, nothing for
    a level [inc] does not know); elsewhere [0.0.1-], the name of the branch
    and [.0]. *)
Theorem first_version_starts_from_zero (regExp : string -> string -> Settled bool)
    (context : Context) (inputs : Inputs) (octokit : Octokit) (owner repo : string)
    (info : GitRef) (tags : list Tag) (msgLevel : ReleaseBump) (isRelease : bool) :
  Computes regExp context inputs octokit owner repo info tags None msgLevel isRelease ->
  let branchName := pop (split "/" (ref_name info)) in
  let level := bumpLevel (bump inputs) msgLevel in
  outputValue "new-tag" (events (main regExp context inputs octokit))
  = Some (if isRelease then
            if (level =? "premajor")%string then "1.0.0-0"
            else if (level =? "preminor")%string then "0.1.0-0"
            else if (level =? "prepatch")%string then "0.0.1-0"
            else if (level =? "prerelease")%string then "0.0.1-0"
            else if (level =? "major")%string then "1.0.0"
            else if (level =? "minor")%string then "0.1.0"
            else if (level =? "patch")%string then "0.0.1"
            else if (level =? "pre")%string then "0.0.0-0"
            else ""
          else if (branchName =? "")%string then "0.0.1-0"
          else ("0.0.1-" ++ branchName ++ ".0")%string).
Proof.
  intros Hc branchName level.
  destruct (run_computes regExp context inputs octokit owner repo info tags None
              msgLevel isRelease Hc) as [Hout _].
  rewrite Hout. f_equal. unfold computed. fold branchName. fold level.
  change (currentVersion None) with (Some (Semver.mkSemVer 0 0 0 [] [])).
  unfold incVersion, Semver.inc, Semver.incSemVer.
  destruct isRelease.
  - repeat match goal with
    | |- context [(level =? ?s)%string] => destruct (level =? s)%string
    end; reflexivity.
  - unfold Semver.incPre.
    cbn [String.eqb Ascii.eqb Bool.eqb Semver.hasPrerelease Semver.prerelease
         Semver.incPatch negb ofNullable commandValue].
    destruct (branchName =? "")%string; reflexivity.
Qed.

Lemma first_version_starts_from_zero_witness :
  outputValue "new-tag"
    (events (main Example.noRegExp (Example.pushTo "refs/heads/feature/x") Example.inputs
               (Example.remote [mkTag "latest" "a1"]
                  [mkGitRef "refs/heads/feature/x" "d4"]
                  [mkCommit "d4" "work"] Example.noIssues)))
  = Some "0.0.1-x.0".
Proof.
  apply (first_version_starts_from_zero Example.noRegExp
           (Example.pushTo "refs/heads/feature/x") Example.inputs
           (Example.remote [mkTag "latest" "a1"] [mkGitRef "refs/heads/feature/x" "d4"]
              [mkCommit "d4" "work"] Example.noIssues)
           "rbkmoney" "action-tagger" (mkGitRef "refs/heads/feature/x" "d4")
           [mkTag "latest" "a1"] none false).
  repeat split; try discriminate.
  exists None. split; reflexivity.
Defined.

(** X19.  On a release branch, for the levels major, minor and patch, a
    current version whose numbers leave room for an increment, and tags whose
    numeric prerelease identifiers are below [MAX_SAFE_INTEGER]: the name of
    the tag the run computes, prefix included, cleans back to the version that
    was computed, which has no prerelease identifiers, is above the current
    version, and is above the version of every qualifying tag of the list. *)
Theorem release_tag_reads_back_above_the_others
    (regExp : string -> string -> Settled bool)
    (context : Context) (inputs : Inputs) (octokit : Octokit) (owner repo : string)
    (info : GitRef) (tags : list Tag) (latestTag : option Tag) (msgLevel : ReleaseBump)
    (v : Semver.SemVer) :
  Computes regExp context inputs octokit owner repo info tags latestTag msgLevel true ->
  forallb bounded tags = true ->
  In (bumpLevel (bump inputs) msgLevel) fullBumps ->
  currentVersion latestTag = Some v ->
  incrementable v ->
  exists v',
    outputValue "new-tag" (events (main regExp context inputs octokit))
    = Some (Semver.format v')
    /\ Semver.clean (tagPrefix inputs ++ Semver.format v') = Some v'
    /\ Semver.prerelease v' = []
    /\ Semver.compare v' v = Gt
    /\ forall t, In t tags -> qualifies t = true ->
         exists y, Semver.clean (tag_name t) = Some y /\ Semver.compare y v' = Lt.
Proof.
  intros Hc Hbound Hlevel Hv Hroom.
  destruct (run_computes regExp context inputs octokit owner repo info tags latestTag
              msgLevel true Hc) as [Hout _].
  destruct Hc as (_ & _ & _ & _ & _ & Hlatest & _).
  destruct (full_bump_tag inputs tags latestTag _ v Hbound Hlatest Hv Hlevel Hroom)
    as (v' & Hinc & Hclean & Hwf & Hgt & Habove).
  destruct (full_bump_is_release v _ Hlevel) as (v'' & Hinc' & Hpre).
  rewrite Hinc in Hinc'. injection Hinc' as <-.
  exists v'. repeat split; auto.
  rewrite Hout. unfold computed, incVersion, Semver.inc. now rewrite Hv, Hinc.
Qed.

Lemma release_tag_reads_back_above_the_others_witness :
  exists v',
    outputValue "new-tag"
      (events (main Example.noRegExp (Example.pushTo "refs/heads/main") Example.inputs
                 (Example.onMain "work")))
    = Some (Semver.format v')
    /\ Semver.clean (tagPrefix Example.inputs ++ Semver.format v') = Some v'
    /\ Semver.prerelease v' = []
    /\ Semver.compare v' (Semver.mkSemVer 1 2 0 [] []) = Gt
    /\ forall t, In t [mkTag "v1.2.0" "a1"] -> qualifies t = true ->
         exists y, Semver.clean (tag_name t) = Some y /\ Semver.compare y v' = Lt.
Proof.
  apply (release_tag_reads_back_above_the_others Example.noRegExp
           (Example.pushTo "refs/heads/main") Example.inputs (Example.onMain "work")
           "rbkmoney" "action-tagger" (mkGitRef "refs/heads/main" "b2")
           [mkTag "v1.2.0" "a1"] (Some (mkTag "v1.2.0" "a1")) none
           (Semver.mkSemVer 1 2 0 [] [])).
  - repeat split; try discriminate.
    + intros t [= <-]. discriminate.
    + exists (Some (mkTag "v1.2.0" "a1")). split; reflexivity.
  - reflexivity.
  - simpl. auto.
  - reflexivity.
  - repeat split.
Defined.

(** X20.  After a run on a release branch has created its tag, a second run
    with the same inputs, for which the remote lists the new tag among the
    old ones and the branch has not moved, finds the new tag as the latest
    one on the head of the branch: it sets the output [tag] to it and fails
    with [no new commits, avoid tagging], without classifying commits and
    without creating anything.  The numeric prerelease identifiers of the
    old tags are below [MAX_SAFE_INTEGER]. *)
Theorem second_run_on_the_same_head_stops
    (regExp : string -> string -> Settled bool)
    (context : Context) (inputs : Inputs) (octokit again : Octokit) (owner repo : string)
    (info : GitRef) (tags tags' : list Tag) (latestTag : option Tag)
    (msgLevel : ReleaseBump) (v : Semver.SemVer) :
  Computes regExp context inputs octokit owner repo info tags latestTag msgLevel true ->
  forallb bounded tags = true ->
  In (bumpLevel (bump inputs) msgLevel) fullBumps ->
  currentVersion latestTag = Some v ->
  incrementable v ->
  toLowerCase (dry_run inputs) <> "true" ->
  forall name,
    created (events (main regExp context inputs octokit))
    = [CreateRef owner repo ("refs/tags/" ++ name)%string (ref_object_sha info)] ->
    listTags again owner repo = Fulfilled tags' ->
    (forall t, In t tags' <-> t = mkTag name (ref_object_sha info) \/ In t tags) ->
    fst (resolveBranch inputs (context_ref context) again owner repo) = Fulfilled info ->
    main regExp context inputs again
    = mkRun (Failed "no new commits, avoid tagging")
        (snd (resolveBranch inputs (context_ref context) again owner repo)
         ++ [ListTags owner repo; ListTags owner repo; SetOutput "tag" name]).
Proof.
  intros Hc Hbound Hlevel Hv Hroom Hwet name Hcreated Htags' Hin' Hbranch'.
  destruct (run_computes regExp context inputs octokit owner repo info tags latestTag
              msgLevel true Hc) as [_ Hcreated'].
  destruct Hc as (Hrepo & Htoken & Hcustom & _ & _ & Hlatest & _).
  destruct (full_bump_tag inputs tags latestTag _ v Hbound Hlatest Hv Hlevel Hroom)
    as (v' & Hinc & Hclean & Hwf & Hgt & Habove).
  assert (Hname : name = (tagPrefix inputs ++ Semver.format v')%string).
  { rewrite Hcreated in Hcreated'.
    destruct (String.eqb_spec (toLowerCase (dry_run inputs)) "true"); [contradiction|].
    injection Hcreated' as E. rewrite E.
    unfold computed, incVersion, Semver.inc. now rewrite Hv, Hinc. }
  set (new := mkTag name (ref_object_sha info)) in *.
  assert (Hnew : In new tags') by (apply Hin'; auto).
  assert (Hqnew : qualifies new = true).
  { unfold qualifies, new. cbn [tag_name]. now rewrite Hname, Hclean. }
  assert (Hbound' : forallb bounded tags' = true).
  { apply forallb_forall. intros t Ht. apply Hin' in Ht as [->|Ht].
    - unfold bounded, new. cbn [tag_name]. rewrite Hname, Hclean.
      destruct Hwf as [Hpre _]. apply forallb_forall. intros i Hi.
      rewrite Forall_forall in Hpre. exact (Hpre i Hi).
    - exact (proj1 (forallb_forall _ _) Hbound t Ht). }
  destruct (pickLatest_settles tags' true) as [latest' Hlatest'].
  destruct (pickLatest_all tags' latest' Hbound' Hlatest') as [Hnone Hsome].
  destruct latest' as [t|];
    [|rewrite (proj1 Hnone eq_refl new Hnew) in Hqnew; discriminate].
  destruct (Hsome t eq_refl) as (Ht & Hqt & Hgreatest).
  assert (Et : t = new).
  { apply Hin' in Ht as [Et|Ht]; [assumption|exfalso].
    destruct (Habove t Ht Hqt) as (y & Hy & Hlt).
    destruct (Hgreatest new Hnew Hqnew) as (x & w & Hx & Hw & Hxw).
    unfold new in Hw. cbn [tag_name] in Hw. rewrite Hname, Hclean in Hw.
    injection Hw as <-. rewrite Hy in Hx. injection Hx as <-. contradiction. }
  subst t.
  apply (head_conflict regExp context inputs again owner repo info tags' new);
    [repeat split| | | |]; auto.
Qed.

Lemma second_run_on_the_same_head_stops_witness :
  main Example.noRegExp (Example.pushTo "refs/heads/main") Example.inputs
    (Example.remote [mkTag "v1.3.0" "b2"; mkTag "v1.2.0" "a1"]
       [mkGitRef "refs/heads/main" "b2"]
       [mkCommit "b2" "work"; mkCommit "a1" "release"] Example.noIssues)
  = mkRun (Failed "no new commits, avoid tagging")
      [ListMatchingRefs "rbkmoney" "action-tagger" "heads/main";
       ListTags "rbkmoney" "action-tagger"; ListTags "rbkmoney" "action-tagger";
       SetOutput "tag" "v1.3.0"].
Proof.
  refine (second_run_on_the_same_head_stops Example.noRegExp
            (Example.pushTo "refs/heads/main") Example.inputs (Example.onMain "work")
            (Example.remote [mkTag "v1.3.0" "b2"; mkTag "v1.2.0" "a1"]
               [mkGitRef "refs/heads/main" "b2"]
               [mkCommit "b2" "work"; mkCommit "a1" "release"] Example.noIssues)
            "rbkmoney" "action-tagger" (mkGitRef "refs/heads/main" "b2")
            [mkTag "v1.2.0" "a1"] [mkTag "v1.3.0" "b2"; mkTag "v1.2.0" "a1"]
            (Some (mkTag "v1.2.0" "a1")) none (Semver.mkSemVer 1 2 0 [] [])
            _ _ _ _ _ _ "v1.3.0" _ _ _ _).
  - repeat split; try discriminate.
    + intros t [= <-]. discriminate.
    + exists (Some (mkTag "v1.2.0" "a1")). split; reflexivity.
  - reflexivity.
  - simpl. auto.
  - reflexivity.
  - repeat split.
  - discriminate.
  - vm_compute. reflexivity.
  - reflexivity.
  - intros t. simpl. intuition congruence.
  - reflexivity.
Defined.

(** X21.  Without a custom tag, the tags whose names do not clean to a
    version play no role: two lists of tags with the same qualifying tags, in
    the same order, give the same run. *)
Theorem tags_that_do_not_qualify_are_ignored (regExp : string -> string -> Settled bool)
    (context : Context) (inputs : Inputs) (octokit : Octokit) (tags tags' : list Tag) :
  tag inputs = "" ->
  filter qualifies tags' = filter qualifies tags ->
  main regExp context inputs (withTags octokit tags')
  = main regExp context inputs (withTags octokit tags).
Proof.
  intros Hcustom Hfilter. unfold main.
  destruct (payload_repository context) as [[[owner'|] [repo'|]]|];
    cbn [owner_login repository_name]; try reflexivity.
  now rewrite <- (action_withTags regExp inputs (withTags octokit tags) owner' repo'
                    (context_ref context) tags tags' Hcustom eq_refl Hfilter).
Qed.

Lemma tags_that_do_not_qualify_are_ignored_witness :
  main Example.noRegExp (Example.pushTo "refs/heads/main") Example.inputs
    (withTags (Example.onMain "work")
       [mkTag "latest" "b2"; mkTag "v1.2.0" "a1"; mkTag "1.3" "b2"])
  = main Example.noRegExp (Example.pushTo "refs/heads/main") Example.inputs
      (withTags (Example.onMain "work") [mkTag "v1.2.0" "a1"]).
Proof.
  apply (tags_that_do_not_qualify_are_ignored Example.noRegExp
           (Example.pushTo "refs/heads/main") Example.inputs (Example.onMain "work")
           [mkTag "v1.2.0" "a1"]
           [mkTag "latest" "b2"; mkTag "v1.2.0" "a1"; mkTag "1.3" "b2"]).
  - reflexivity.
  - reflexivity.
Defined.

(** X22.  Off the release branches the name of the branch goes into the
    version as it is.  When it holds a character that [clean] does not read
    (an underscore, say), the tag of the computed version does not qualify:
    once it is in the list the run is what it was before, and asks for the
    same tag again. *)
Theorem branch_name_can_spoil_the_tag (regExp : string -> string -> Settled bool)
    (context : Context) (inputs : Inputs) (octokit : Octokit) (owner repo : string)
    (info : GitRef) (tags : list Tag) (latestTag : option Tag) (msgLevel : ReleaseBump) :
  Computes regExp context inputs octokit owner repo info tags latestTag msgLevel false ->
  Semver.allOf isCleanChar (pop (split "/" (ref_name info))) = false ->
  exists version,
    outputValue "new-tag" (events (main regExp context inputs octokit)) = Some version
    /\ Semver.clean (tagPrefix inputs ++ version) = None
    /\ forall before after sha,
         tags = before ++ after ->
         main regExp context inputs
           (withTags octokit
              (before ++ mkTag (tagPrefix inputs ++ version) sha :: after))
         = main regExp context inputs octokit.
Proof.
  intros Hc Hbad.
  destruct (run_computes regExp context inputs octokit owner repo info tags latestTag
              msgLevel false Hc) as [Hout _].
  destruct Hc as (Hrepo & _ & Hcustom & _ & Htags & Hlatest & _).
  destruct (currentVersion_some tags latestTag Hlatest) as [v Hv].
  set (branchName := pop (split "/" (ref_name info))) in *.
  assert (Hid : branchName <> "") by (intros E; rewrite E in Hbad; discriminate).
  set (v' := Semver.incPre branchName
               (if Semver.hasPrerelease v then v else Semver.incPatch v)).
  assert (Hcomputed : computed inputs latestTag branchName msgLevel false
                      = Text (Semver.format v')).
  { unfold computed, incVersion, Semver.inc. rewrite Hv. reflexivity. }
  rewrite Hcomputed in Hout. cbn [commandValue] in Hout.
  assert (Hclean : Semver.clean (tagPrefix inputs ++ Semver.format v') = None).
  { destruct (Semver.clean _) as [w|] eqn:E; [exfalso|reflexivity].
    apply clean_chars in E. rewrite allOf_app in E. apply andb_true_iff in E as [_ E].
    destruct (prerelease_starts_with_identifier branchName
                (if Semver.hasPrerelease v then v else Semver.incPatch v) Hid)
      as [rest Hrest].
    fold v' in Hrest. unfold Semver.format in E. rewrite Hrest in E.
    rewrite allOf_app in E. apply andb_true_iff in E as [_ E].
    change ("-" ++ join "." (map Semver.identifierString (Semver.Str branchName :: rest)))%string
      with (String "-" (String.concat "."
                          (branchName :: map Semver.identifierString rest))) in E.
    cbn [Semver.allOf] in E. apply andb_true_iff in E as [_ E].
    apply concat_head_allOf in E. congruence. }
  exists (Semver.format v'). split; [assumption|]. split; [assumption|].
  intros before after sha ->. unfold main. rewrite Hrepo.
  cbn [owner_login repository_name].
  rewrite (action_withTags regExp inputs octokit owner repo (context_ref context)
             (before ++ after) _ Hcustom Htags); [reflexivity|].
  apply filter_insert. unfold qualifies. cbn [tag_name]. now rewrite Hclean.
Qed.

Lemma branch_name_can_spoil_the_tag_witness :
  exists version,
    outputValue "new-tag"
      (events (main Example.noRegExp (Example.pushTo "refs/heads/my_work") Example.inputs
                 (Example.remote [mkTag "v1.2.0" "a1"]
                    [mkGitRef "refs/heads/my_work" "d4"]
                    [mkCommit "d4" "work"; mkCommit "a1" "release"] Example.noIssues)))
    = Some version
    /\ Semver.clean (tagPrefix Example.inputs ++ version) = None
    /\ forall before after sha,
         [mkTag "v1.2.0" "a1"] = before ++ after ->
         main Example.noRegExp (Example.pushTo "refs/heads/my_work") Example.inputs
           (withTags
              (Example.remote [mkTag "v1.2.0" "a1"]
                 [mkGitRef "refs/heads/my_work" "d4"]
                 [mkCommit "d4" "work"; mkCommit "a1" "release"] Example.noIssues)
              (before ++ mkTag (tagPrefix Example.inputs ++ version) sha :: after))
         = main Example.noRegExp (Example.pushTo "refs/heads/my_work") Example.inputs
             (Example.remote [mkTag "v1.2.0" "a1"]
                [mkGitRef "refs/heads/my_work" "d4"]
                [mkCommit "d4" "work"; mkCommit "a1" "release"] Example.noIssues).
Proof.
  apply (branch_name_can_spoil_the_tag Example.noRegExp
           (Example.pushTo "refs/heads/my_work") Example.inputs
           (Example.remote [mkTag "v1.2.0" "a1"] [mkGitRef "refs/heads/my_work" "d4"]
              [mkCommit "d4" "work"; mkCommit "a1" "release"] Example.noIssues)
           "rbkmoney" "action-tagger" (mkGitRef "refs/heads/my_work" "d4")
           [mkTag "v1.2.0" "a1"] (Some (mkTag "v1.2.0" "a1")) none).
  - repeat split; try discriminate.
    + intros t [= <-]. discriminate.
    + exists (Some (mkTag "v1.2.0" "a1")). split; reflexivity.
  - reflexivity.
Defined.

(** X23.  A commit that refers to a fixed issue makes the run depend on that
    issue: when the remote rejects the request for it, [checkMessages] is
    rejected with the same message, right after that request, whatever the
    later commits carry.  The issue asked for is [Number] of the digits: the
    number they write when it is below [2 ^ 53], and the nearest double from
    there on, [9007199254740992] for [#9007199254740993].  A run whose
    classification is rejected fails with that message: it creates nothing,
    and the output [new-tag] is not set. *)
Theorem unknown_issue_fails_the_run :
  (forall octokit owner repo sha tagSha issueTags c rest id message,
     isTagSha (commit_sha c) tagSha = false ->
     plainFix c = true ->
     execMatcher (commit_message c) = Some id ->
     (0 < numberOfDigits id)%N ->
     issuesGet octokit owner repo (numberOfDigits id) = Rejected message ->
     checkMessages (withCommits octokit (c :: rest)) owner repo sha tagSha issueTags
     = (Rejected message,
        [ListCommits owner repo sha; IssuesGet owner repo (numberOfDigits id)]))
  /\ (forall id,
        (decimalValue id < 9007199254740992)%N -> numberOfDigits id = decimalValue id)
  /\ numberOfDigits "9007199254740993" = 9007199254740992%N
  /\ (forall regExp context inputs octokit owner repo info tags latestTag latestMainTag
             message,
        Resolves context inputs octokit owner repo info ->
        tag inputs = "" ->
        listTags octokit owner repo = Fulfilled tags ->
        pickLatest tags true = Fulfilled latestTag ->
        (forall t, latestTag = Some t -> tag_commit_sha t <> ref_object_sha info) ->
        pickLatest tags false = Fulfilled latestMainTag ->
        fst (checkMessages octokit owner repo (ref_object_sha info)
               (option_map tag_commit_sha latestMainTag)
               (issLabs (issue_labels_input inputs)))
        = Rejected message ->
        let run := main regExp context inputs octokit in
        exit run = Failed message
        /\ created (events run) = []
        /\ outputValue "new-tag" (events run) = None).
Proof.
  split; [|split; [|split]].
  - intros octokit owner repo sha tagSha issueTags c rest id message
      Hstop Hfix Hid Hpos Hissue.
    unfold plainFix in Hfix.
    apply andb_true_iff in Hfix as [Hfix Hf]. apply andb_true_iff in Hfix as [Hfix Hp].
    apply andb_true_iff in Hfix as [Hfix Hm]. apply andb_true_iff in Hfix as [Hw HM].
    apply negb_true_iff in Hw, HM, Hm, Hp.
    rewrite checkMessages_withCommits. cbn [bind request scanCommits].
    rewrite Hstop, Hw, HM, Hm, Hp, Hf, Hid. cbn [isMinor negb andb].
    apply N.ltb_lt in Hpos. rewrite Hpos. cbn [bind request]. rewrite Hissue. reflexivity.
  - intros id H. unfold numberOfDigits, roundToDouble.
    apply N.ltb_lt in H. now rewrite H.
  - vm_compute. reflexivity.
  - intros regExp context inputs octokit owner repo info tags latestTag latestMainTag
      message HR Hcustom Htags Hlatest Hnew Hmain Hmsgs run. unfold run.
    rewrite (classification_rejected regExp context inputs octokit owner repo info tags
               latestTag latestMainTag message HR Hcustom Htags Hlatest Hnew Hmain Hmsgs).
    cbn [exit events]. split; [reflexivity|]. split.
    + rewrite !created_app.
      rewrite (resolveBranch_reads inputs octokit owner repo (context_ref context)).
      rewrite (checkMessages_reads octokit owner repo).
      reflexivity.
    + rewrite List.app_assoc. rewrite outputValue_kept.
      * pose proof (outputValue_kept "new-tag" [] _
                      (resolveBranch_keeps inputs octokit owner repo "new-tag"
                         (context_ref context))) as HB.
        cbn [app outputValue] in HB. rewrite outputValue_app. exact HB.
      * apply checkMessages_keeps.
Qed.

Lemma unknown_issue_fails_the_run_witness :
  checkMessages
    (withCommits (Example.onMain "") [mkCommit "b2" "fixes #7"; mkCommit "a1" "release"])
    "rbkmoney" "action-tagger" "b2" (Some "a1") ["enhancement"]
  = (Rejected "Not Found",
     [ListCommits "rbkmoney" "action-tagger" "b2"; IssuesGet "rbkmoney" "action-tagger" 7]).
Proof.
  apply (proj1 unknown_issue_fails_the_run (Example.onMain "") "rbkmoney" "action-tagger"
           "b2" (Some "a1") ["enhancement"] (mkCommit "b2" "fixes #7")
           [mkCommit "a1" "release"] "7" "Not Found"); reflexivity.
Defined.

(** X24.  Off the release branches, for a branch name that is not empty:
    from a latest tag without prerelease identifiers the run computes the next
    patch with the branch name and the counter 0; from a latest tag that is
    the prerelease of this branch with counter [n], the same version with
    counter [n + 1]; from a latest tag that is the prerelease of something
    else, the same version with the branch name and the counter 0. *)
Theorem prerelease_counter_counts_up (regExp : string -> string -> Settled bool)
    (context : Context) (inputs : Inputs) (octokit : Octokit) (owner repo : string)
    (info : GitRef) (tags : list Tag) (t : Tag) (msgLevel : ReleaseBump)
    (v : Semver.SemVer) :
  Computes regExp context inputs octokit owner repo info tags (Some t) msgLevel false ->
  Semver.clean (tag_name t) = Some v ->
  pop (split "/" (ref_name info)) <> "" ->
  let branchName := pop (split "/" (ref_name info)) in
  let newTag := outputValue "new-tag" (events (main regExp context inputs octokit)) in
  let next (patch : N) (counter : N) :=
    Some (Semver.format
            (Semver.mkSemVer (Semver.major v) (Semver.minor v) patch
               [Semver.Str branchName; Semver.Num counter] [])) in
  (Semver.prerelease v = [] -> newTag = next (Semver.patch v + 1)%N 0%N)
  /\ (forall n,
        Semver.prerelease v = [Semver.Str branchName; Semver.Num n] ->
        newTag = next (Semver.patch v) (n + 1)%N)
  /\ (forall i rest,
        Semver.prerelease v = i :: rest -> i <> Semver.Str branchName ->
        newTag = next (Semver.patch v) 0%N).
Proof.
  intros Hc Hv Hb branchName newTag next.
  destruct (run_computes regExp context inputs octokit owner repo info tags (Some t)
              msgLevel false Hc) as [Hout _].
  fold branchName in Hout, Hb. fold newTag in Hout.
  assert (E : newTag
              = Some (Semver.format
                        (Semver.incPre branchName
                           (if Semver.hasPrerelease v then v else Semver.incPatch v)))).
  { rewrite Hout. unfold computed, currentVersion, incVersion, Semver.inc.
    rewrite Hv. reflexivity. }
  rewrite E. unfold next, Semver.format, Semver.hasPrerelease.
  split; [|split].
  - intros Hpre. rewrite Hpre.
    destruct (incPre_identifier branchName (Semver.incPatch v) Hb) as (H & _).
    rewrite (H eq_refl). unfold Semver.incPre, Semver.incPatch, Semver.hasPrerelease.
    rewrite Hpre. reflexivity.
  - intros n Hpre. rewrite Hpre.
    destruct (incPre_identifier branchName v Hb) as (_ & H & _).
    rewrite (H n Hpre). reflexivity.
  - intros i rest Hpre Hi. rewrite Hpre.
    destruct (incPre_identifier branchName v Hb) as (_ & _ & H).
    rewrite (H i rest Hpre Hi). reflexivity.
Qed.

Lemma prerelease_counter_counts_up_witness :
  outputValue "new-tag"
    (events (main Example.noRegExp (Example.pushTo "refs/heads/feature/x") Example.inputs
               (Example.remote [mkTag "v1.2.0" "a1"; mkTag "v1.2.1-x.0" "c3"]
                  [mkGitRef "refs/heads/feature/x" "d4"]
                  [mkCommit "d4" "work"; mkCommit "c3" "more"; mkCommit "a1" "release"]
                  Example.noIssues)))
  = Some (Semver.format (Semver.mkSemVer 1 2 1 [Semver.Str "x"; Semver.Num (0 + 1)] [])).
Proof.
  refine (proj1 (proj2 (prerelease_counter_counts_up Example.noRegExp
            (Example.pushTo "refs/heads/feature/x") Example.inputs
            (Example.remote [mkTag "v1.2.0" "a1"; mkTag "v1.2.1-x.0" "c3"]
               [mkGitRef "refs/heads/feature/x" "d4"]
               [mkCommit "d4" "work"; mkCommit "c3" "more"; mkCommit "a1" "release"]
               Example.noIssues)
            "rbkmoney" "action-tagger" (mkGitRef "refs/heads/feature/x" "d4")
            [mkTag "v1.2.0" "a1"; mkTag "v1.2.1-x.0" "c3"] (mkTag "v1.2.1-x.0" "c3") none
            (Semver.mkSemVer 1 2 1 [Semver.Str "x"; Semver.Num 0] []) _ _ _)) 0%N eq_refl).
  - repeat split; try discriminate.
    + intros t [= <-]. discriminate.
    + exists (Some (mkTag "v1.2.0" "a1")). split; reflexivity.
  - reflexivity.
  - discriminate.
Defined.
